(** * NyxNet game server: wire protocol and WebSocket framing

    A shallow embedding of the protocol layer of the repository
    (src/protocol: VarInt, VarLong, ProtocolWriter, ProtocolReader, Checksum,
    Cipher, Packet; src/websocket-bridge.ts; src/websocket/nyx-ws.ts) together
    with the properties its specification states about it.

    Conventions.  A Node [Buffer] is a [list Z] whose elements are bytes
    (0..255); storing a number into a buffer keeps its low eight bits.  JS
    bit operations are the [Z] bit operations, with the 32-bit wrap-around
    written out where the source relies on it.  Exceptions are values of
    [result]. *)

From Stdlib Require Import String Ascii ZArith Bool Lia List Permutation.
Import ListNotations.
Open Scope Z_scope.

Set Warnings "-register-all".

Ltac Zify.zify_post_hook ::= Z.to_euclidean_division_equations.

(** ** Buffers *)

Definition is_byte (b : Z) : Prop := 0 <= b < 256.

Definition bytes_ok (l : list Z) : Prop := Forall is_byte l.

Definition is_byteb (b : Z) : bool := (0 <=? b) && (b <? 256).

Definition bytes_okb (l : list Z) : bool := forallb is_byteb l.

(** [buf.length] *)
Definition blen (l : list Z) : Z := Z.of_nat (length l).

(** [buf[i]]: [None] is JS [undefined], the result of indexing out of range. *)
Definition buf_get (l : list Z) (i : Z) : option Z :=
  if i <? 0 then None else nth_error l (Z.to_nat i).

(** [buf[i] = v] for an index inside the buffer. *)
Definition buf_set (l : list Z) (i : nat) (v : Z) : list Z :=
  firstn i l ++ Z.land v 255 :: skipn (S i) l.

(** [buf.slice(start, end)] and [buf.subarray(start, end)]: a negative index
    counts from the end, indices are clamped to the buffer, and the result is
    empty when [end <= start]. *)
Definition adjustOffset (offset len : Z) : Z :=
  if offset <? 0 then Z.max (offset + len) 0 else Z.min offset len.

Definition slice (l : list Z) (start end_ : Z) : list Z :=
  let s := adjustOffset start (blen l) in
  let e := adjustOffset end_ (blen l) in
  firstn (Z.to_nat (e - s)) (skipn (Z.to_nat s) l).

(** ** Checksum (src/protocol/Checksum.ts) *)

Module Checksum.

Definition calculate (buffer : list Z) : Z :=
  let sum := fold_left (fun sum b => Z.land (sum + b) 255) buffer 0 in
  Z.lxor sum 170.

Definition verify (buffer : list Z) (expectedChecksum : Z) : bool :=
  calculate buffer =? expectedChecksum.

End Checksum.

(** ** Cipher (src/protocol/Cipher.ts) *)

Module Cipher.

Definition default_key : Z := 94.

(** The loop of [encrypt], started at index [i]. *)
Fixpoint encrypt_from (key : Z) (i : Z) (buffer : list Z) : list Z :=
  match buffer with
  | [] => []
  | b :: rest =>
      Z.land (Z.lxor (Z.lxor b key) (Z.land i 255)) 255
        :: encrypt_from key (i + 1) rest
  end.

Definition encrypt (key : Z) (buffer : list Z) : list Z :=
  encrypt_from key 0 buffer.

Definition decrypt (key : Z) (buffer : list Z) : list Z :=
  encrypt key buffer.

(** The keystream byte at position [i]. *)
Definition keystream (key : Z) (i : Z) : Z :=
  Z.land (Z.lxor key (Z.land i 255)) 255.

End Cipher.

(** ** Exceptions *)

(** The errors the protocol code throws itself ([new Error(...)]), and the
    [RangeError] the Node runtime throws from [readInt16BE] and its
    siblings, from [writeUInt32BE] and from [new Array(n)]. *)
Inductive error : Type :=
| BufferUnderflow                      (* 'Buffer underflow' *)
| InvalidMagic                         (* 'Invalid packet magic' *)
| UnsupportedVersion                   (* 'Unsupported version: ...' *)
| ChecksumMismatch                     (* 'Checksum mismatch' *)
| UnknownType                          (* 'Unknown type: ...' *)
| RangeError.                          (* thrown by the runtime *)

(** The outcome of a call: a value, an exception, or recursion deeper
    than the fuel given to the model. *)
Inductive result (A : Type) : Type :=
| Ok (a : A)
| Throw (e : error)
| OutOfFuel.

Arguments Ok {A} a.
Arguments Throw {A} e.
Arguments OutOfFuel {A}.

(** ** JS numbers *)

(** A JS number is a binary64 float.  [Int z] stands for the numbers on which
    [Number.isInteger] holds, by their value; [Dbl w] for all the others
    (fractions, NaN, the infinities), by their binary64 bit pattern. *)
Inductive number : Type :=
| Int (z : Z)
| Dbl (w : Z).

(** A decoded IEEE-754 datum: [Finite s m e] is (-1)^s * m * 2^e. *)
Inductive fp : Type :=
| Finite (s : bool) (m e : Z)
| Infinite (s : bool)
| NaN.

Module IEEE.

(** A format is given by the widths of its exponent and fraction fields. *)
Record format : Type := { ebits : Z; mbits : Z }.

Definition binary32 : format := {| ebits := 8; mbits := 23 |}.
Definition binary64 : format := {| ebits := 11; mbits := 52 |}.

Definition emax_field (f : format) : Z := 2 ^ ebits f - 1.

(** Exponent of the last place of the subnormal numbers. *)
Definition emin (f : format) : Z := 3 - 2 ^ (ebits f - 1) - mbits f - 1.

Definition sign_bit (f : format) (s : bool) : Z :=
  if s then 2 ^ (ebits f + mbits f) else 0.

Definition decode (f : format) (w : Z) : fp :=
  let s := Z.testbit w (ebits f + mbits f) in
  let E := Z.land (Z.shiftr w (mbits f)) (emax_field f) in
  let M := Z.land w (2 ^ mbits f - 1) in
  if E =? emax_field f then (if M =? 0 then Infinite s else NaN)
  else if E =? 0 then Finite s M (emin f)
  else Finite s (2 ^ mbits f + M) (E - 1 + emin f).

(** Round to nearest, ties to even. *)
Definition encode (f : format) (x : fp) : Z :=
  match x with
  | NaN => emax_field f * 2 ^ mbits f + 2 ^ (mbits f - 1)
  | Infinite s => sign_bit f s + emax_field f * 2 ^ mbits f
  | Finite s m e =>
      if m <=? 0 then sign_bit f s
      else
        let q := Z.max (Z.log2 m + e - mbits f) (emin f) in
        let M :=
          if q <=? e then m * 2 ^ (e - q)
          else
            let sh := q - e in
            let M0 := m / 2 ^ sh in
            let r := m mod 2 ^ sh in
            let half := 2 ^ (sh - 1) in
            if (half <? r) || ((r =? half) && Z.odd M0) then M0 + 1 else M0 in
        let bits := (q - emin f) * 2 ^ mbits f + M in
        sign_bit f s + Z.min bits (emax_field f * 2 ^ mbits f)
  end.

End IEEE.

Definition fp_of_number (n : number) : fp :=
  match n with
  | Int z => Finite (z <? 0) (Z.abs z) 0
  | Dbl w => IEEE.decode IEEE.binary64 w
  end.

Definition number_of_fp (x : fp) : number :=
  match x with
  | Finite s m e =>
      let sgn := if s then -1 else 1 in
      if 0 <=? e then Int (sgn * (m * 2 ^ e))
      else if m mod 2 ^ (- e) =? 0 then Int (sgn * (m / 2 ^ (- e)))
      else Dbl (IEEE.encode IEEE.binary64 x)
  | _ => Dbl (IEEE.encode IEEE.binary64 x)
  end.

(** [Number(b)] for a BigInt [b]: the nearest double. *)
Definition Number_of_BigInt (z : Z) : number :=
  number_of_fp (IEEE.decode IEEE.binary64
                  (IEEE.encode IEEE.binary64 (fp_of_number (Int z)))).

(** The value of an integer expression computed in binary64 whose exact
    result is [z], for [z] below 2^1024. *)
Definition js_number (z : Z) : Z :=
  match Number_of_BigInt z with
  | Int z' => z'
  | Dbl _ => z
  end.

(** [ToInt32] and [ToUint32] on integers. *)
Definition to_uint32 (z : Z) : Z := z mod 2 ^ 32.

Definition to_int32 (z : Z) : Z :=
  let u := to_uint32 z in if u <? 2 ^ 31 then u else u - 2 ^ 32.

(** Big-endian byte strings of unsigned integers. *)
Definition be16 (z : Z) : list Z :=
  [Z.land (Z.shiftr z 8) 255; Z.land z 255].

Definition be32 (z : Z) : list Z :=
  [Z.land (Z.shiftr z 24) 255; Z.land (Z.shiftr z 16) 255;
   Z.land (Z.shiftr z 8) 255; Z.land z 255].

Fixpoint of_be (l : list Z) (acc : Z) : Z :=
  match l with
  | [] => acc
  | b :: rest => of_be rest (acc * 256 + b)
  end.

(** [buf.readUIntBE(offset, n)]-style reads: the [n] bytes at [offset], or the
    runtime's [RangeError] when they are not all inside the buffer. *)
Definition read_be (buffer : list Z) (offset : Z) (n : Z) : result Z :=
  if (0 <=? offset) && (offset + n <=? blen buffer)
  then Ok (of_be (slice buffer offset (offset + n)) 0)
  else Throw RangeError.

Definition signed (bits : Z) (u : Z) : Z :=
  if u <? 2 ^ (bits - 1) then u else u - 2 ^ bits.

(** ** Strings

    A JS string is a sequence of UTF-16 code units.  It is given here by
    its bytes in generalized UTF-8, one [ascii] per byte: the UTF-8 of its
    code points, where an unpaired surrogate (U+D800 to U+DFFF), which UTF-8
    does not encode, stands in the three-byte form ED A0..BF 80..BF.  A
    string without unpaired surrogates is given by its UTF-8.  The byte ED
    is no continuation byte, so in such a sequence the bytes ED A0..BF
    80..BF are always an unpaired surrogate. *)

Definition byte_of_ascii (c : ascii) : Z := Z.of_N (N_of_ascii c).

Definition ascii_of_byte (b : Z) : ascii := ascii_of_N (Z.to_N b).

Fixpoint string_of_list (l : list Z) : string :=
  match l with
  | [] => EmptyString
  | b :: rest => String (ascii_of_byte b) (string_of_list rest)
  end.

(** U+FFFD, the replacement character, in UTF-8. *)
Definition replacement : list Z := [0xEF; 0xBF; 0xBD].

(** The three bytes of an unpaired surrogate. *)
Definition surrogate_bytes (b1 b2 b3 : Z) : bool :=
  (b1 =? 0xED) && (0xA0 <=? b2) && (b2 <=? 0xBF)
  && (0x80 <=? b3) && (b3 <=? 0xBF).

(** [Buffer.from(str, 'utf8')]: the UTF-8 of the string, with U+FFFD in
    place of every unpaired surrogate. *)
Fixpoint bytes_of_string (s : string) : list Z :=
  match s with
  | EmptyString => []
  | String c1 rest =>
      match rest with
      | String c2 (String c3 rest') =>
          if surrogate_bytes (byte_of_ascii c1) (byte_of_ascii c2)
                             (byte_of_ascii c3)
          then replacement ++ bytes_of_string rest'
          else byte_of_ascii c1 :: bytes_of_string rest
      | _ => byte_of_ascii c1 :: bytes_of_string rest
      end
  end.

(** The range of the byte that may follow the lead byte [b1] of a
    multi-byte sequence. *)
Definition lower_boundary (b1 : Z) : Z :=
  if b1 =? 0xE0 then 0xA0 else if b1 =? 0xF0 then 0x90 else 0x80.

Definition upper_boundary (b1 : Z) : Z :=
  if b1 =? 0xED then 0x9F else if b1 =? 0xF4 then 0x8F else 0xBF.

(** The UTF-8 decoder of [buf.toString('utf8')].  Inside a multi-byte
    sequence its state holds the bytes of the sequence read so far, the
    number of bytes the sequence still needs and the range of the next
    byte; [None] is the state between two sequences. *)
Definition utf8_state : Type := option (list Z * nat * Z * Z).

(** A byte read between two sequences: what is given out and the state. *)
Definition utf8_start (b : Z) : list Z * utf8_state :=
  if (0 <=? b) && (b <=? 0x7F) then ([b], None)
  else if (0xC2 <=? b) && (b <=? 0xDF)
  then ([], Some ([b], 1%nat, 0x80, 0xBF))
  else if (0xE0 <=? b) && (b <=? 0xEF)
  then ([], Some ([b], 2%nat, lower_boundary b, upper_boundary b))
  else if (0xF0 <=? b) && (b <=? 0xF4)
  then ([], Some ([b], 3%nat, lower_boundary b, upper_boundary b))
  else (replacement, None).

(** A byte read: inside a sequence, a byte out of range ends the sequence
    with U+FFFD and is read again as the first byte of the next one. *)
Definition utf8_step (st : utf8_state) (b : Z) : list Z * utf8_state :=
  match st with
  | None => utf8_start b
  | Some (seen, needed, lower, upper) =>
      if (lower <=? b) && (b <=? upper)
      then match needed with
           | S (S n) => ([], Some (seen ++ [b], S n, 0x80, 0xBF))
           | _ => (seen ++ [b], None)
           end
      else let (out, st') := utf8_start b in (replacement ++ out, st')
  end.

(** The bytes of the decoded string; a sequence cut short by the end of
    the buffer gives U+FFFD. *)
Fixpoint utf8_decode (st : utf8_state) (l : list Z) : list Z :=
  match l with
  | [] => match st with
          | None => []
          | Some _ => replacement
          end
  | b :: rest =>
      let (out, st') := utf8_step st b in out ++ utf8_decode st' rest
  end.

(** [buf.toString('utf8')]: well-formed UTF-8 is kept, and every maximal
    ill-formed run of bytes becomes U+FFFD. *)
Definition string_of_bytes (l : list Z) : string :=
  string_of_list (utf8_decode None l).

(** ** Protocol values (src/protocol/types.ts) *)

Module TYPE.
Definition NULL : Z := 0.
Definition BOOL : Z := 1.
Definition BYTE : Z := 2.
Definition SHORT : Z := 3.
Definition INT : Z := 4.
Definition LONG : Z := 5.
Definition FLOAT : Z := 6.
Definition DOUBLE : Z := 7.
Definition STRING : Z := 8.
Definition BYTES : Z := 9.
Definition ARRAY : Z := 10.
Definition MAP : Z := 11.
Definition VEC2 : Z := 12.
Definition VEC3 : Z := 13.
End TYPE.

(** The JS values a [ProtocolValue] ranges over.  An object is the list of
    its own properties in [Object.keys] order; a [Vec2] is the object with
    the properties x and y, a [Vec3] the one with x, y and z. *)
Inductive value : Type :=
| VUndefined
| VNull
| VBool (b : bool)
| VNum (n : number)
| VStr (s : string)
| VBuf (b : list Z)
| VArr (l : list value)
| VObj (o : list (string * value)).

Definition object : Type := list (string * value).

(** [obj[key]]; [None] is [undefined]. *)
Fixpoint obj_get (o : object) (key : string) : option value :=
  match o with
  | [] => None
  | (k, v) :: rest => if String.eqb k key then Some v else obj_get rest key
  end.

(** [obj.key !== undefined] *)
Definition obj_defined (o : object) (key : string) : bool :=
  match obj_get o key with
  | None | Some VUndefined => false
  | Some _ => true
  end.

Fixpoint obj_replace (o : object) (key : string) (v : value) : object :=
  match o with
  | [] => []
  | (k, v') :: rest =>
      if String.eqb k key then (k, v) :: rest
      else (k, v') :: obj_replace rest key v
  end.

(** [obj[key] = v] on an ordinary object: an existing property keeps its
    place, a new one comes last; assigning to ["__proto__"] goes to the
    accessor of [Object.prototype] and creates no property. *)
Definition obj_set (o : object) (key : string) (v : value) : object :=
  if String.eqb key "__proto__" then o
  else match obj_get o key with
       | Some _ => obj_replace o key v
       | None => o ++ [(key, v)]
       end.

(** [OPCODE] *)
Inductive OPCODE : Type :=
| HANDSHAKE | AUTH | DISCONNECT | PING | PONG
| SERVER_LIST | SERVER_INFO | REGISTER_SERVER | UNREGISTER_SERVER
| PLAYER_LOGIN | PLAYER_LOGOUT | GET_GAME_SERVERS | MATCHMAKING_REQUEST
| MATCHMAKING_FOUND | AUTH_PLUGIN_REGISTER | AUTH_PLUGIN_VERIFY
| CREATE_ROOM | JOIN_ROOM | LEAVE_ROOM | ROOM_LIST
| PLAYER_UPDATE | SPAWN_ENTITY | DESTROY_ENTITY | RPC_CALL | RPC_RESPONSE
| STATE_UPDATE | FULL_STATE
| CHAT_MESSAGE | CHAT_ROOM_JOIN | CHAT_ROOM_LEAVE | CHAT_ROOM_LIST
| CHAT_DIRECT_MESSAGE | CHAT_USER_LIST | CHAT_TYPING
| VOICE_JOIN_CHANNEL | VOICE_LEAVE_CHANNEL | VOICE_DATA | VOICE_MUTE
| VOICE_UNMUTE | VOICE_USER_LIST | VOICE_PEER_INFO.

Definition OPCODE_value (op : OPCODE) : Z :=
  match op with
  | HANDSHAKE => 0x47 | AUTH => 0x92 | DISCONNECT => 0x1f
  | PING => 0x33 | PONG => 0x34
  | SERVER_LIST => 0x50 | SERVER_INFO => 0x51
  | REGISTER_SERVER => 0x52 | UNREGISTER_SERVER => 0x53
  | PLAYER_LOGIN => 0x60 | PLAYER_LOGOUT => 0x61
  | GET_GAME_SERVERS => 0x62 | MATCHMAKING_REQUEST => 0x63
  | MATCHMAKING_FOUND => 0x64 | AUTH_PLUGIN_REGISTER => 0x65
  | AUTH_PLUGIN_VERIFY => 0x66
  | CREATE_ROOM => 0x5a | JOIN_ROOM => 0x3c | LEAVE_ROOM => 0x8d
  | ROOM_LIST => 0x6e
  | PLAYER_UPDATE => 0xa4 | SPAWN_ENTITY => 0xb7 | DESTROY_ENTITY => 0x2b
  | RPC_CALL => 0xd9 | RPC_RESPONSE => 0x4f
  | STATE_UPDATE => 0x7c | FULL_STATE => 0xe1
  | CHAT_MESSAGE => 0x70 | CHAT_ROOM_JOIN => 0x71 | CHAT_ROOM_LEAVE => 0x72
  | CHAT_ROOM_LIST => 0x73 | CHAT_DIRECT_MESSAGE => 0x74
  | CHAT_USER_LIST => 0x75 | CHAT_TYPING => 0x76
  | VOICE_JOIN_CHANNEL => 0x80 | VOICE_LEAVE_CHANNEL => 0x81
  | VOICE_DATA => 0x82 | VOICE_MUTE => 0x83 | VOICE_UNMUTE => 0x84
  | VOICE_USER_LIST => 0x85 | VOICE_PEER_INFO => 0x86
  end.

(** ** VarInt and VarLong *)

Module VarInt.

(** The [while] loop of [encode]; [value & 0x7f] and [value >>>= 7] act on
    the low 32 bits. *)
Fixpoint encode_loop (fuel : nat) (value : Z) : list Z :=
  match fuel with
  | O => [Z.land value 127]
  | S fuel' =>
      if 127 <? value
      then Z.lor (Z.land value 127) 128
             :: encode_loop fuel' (Z.shiftr (to_uint32 value) 7)
      else [Z.land value 127]
  end.

(** After one round the value is below 2^25, so five rounds end the loop. *)
Definition encode (value : Z) : list Z :=
  let value := if value <? 0 then to_uint32 value else value in
  encode_loop 5 value.

(** The [do ... while] loop of [decode] over the bytes from [offset] on;
    the shift count of [<<] is taken modulo 32 and [|=] yields an int32. *)
Fixpoint decode_loop (rest : list Z) (value shift bytesRead : Z)
  : result (Z * Z) :=
  match rest with
  | [] => Throw BufferUnderflow
  | byte :: rest' =>
      let value :=
        to_int32 (Z.lor value (Z.shiftl (Z.land byte 127) (shift mod 32))) in
      if Z.land byte 128 =? 0 then Ok (value, bytesRead + 1)
      else decode_loop rest' value (shift + 7) (bytesRead + 1)
  end.

(** At a negative offset the byte read is [undefined], which the bit
    operations take for 0: the loop ends after one round. *)
Definition decode (buffer : list Z) (offset : Z) : result (Z * Z) :=
  if offset <? 0 then Ok (0, 1)
  else decode_loop (skipn (Z.to_nat offset) buffer) 0 0 0.

End VarInt.

Module VarLong.

(** The loop of [encode] on a BigInt. *)
Fixpoint encode_loop (fuel : nat) (bigValue : Z) : list Z :=
  match fuel with
  | O => [Z.land bigValue 127]
  | S fuel' =>
      if 127 <? bigValue
      then Z.lor (Z.land bigValue 127) 128
             :: encode_loop fuel' (Z.shiftr bigValue 7)
      else [Z.land bigValue 127]
  end.

(** Every round removes seven bits, so [log2 value] rounds are enough. *)
Definition encode (value : Z) : list Z :=
  encode_loop (Z.to_nat (Z.log2 value)) value.

Fixpoint decode_loop (rest : list Z) (value shift bytesRead : Z)
  : result (Z * Z) :=
  match rest with
  | [] => Throw BufferUnderflow
  | byte :: rest' =>
      let value := Z.lor value (Z.shiftl (Z.land byte 127) shift) in
      if Z.land byte 128 =? 0 then Ok (value, bytesRead + 1)
      else decode_loop rest' value (shift + 7) (bytesRead + 1)
  end.

Definition decode (buffer : list Z) (offset : Z) : result (number * Z) :=
  if offset <? 0 then Ok (Int 0, 1)
  else match decode_loop (skipn (Z.to_nat offset) buffer) 0 0 0 with
       | Ok (value, bytesRead) => Ok (Number_of_BigInt value, bytesRead)
       | Throw e => Throw e
       | OutOfFuel => OutOfFuel
       end.

End VarLong.

(** ** ProtocolWriter (src/protocol/ProtocolWriter.ts)

    A writer accumulates buffers and [toBuffer] concatenates them: each
    method is modelled by the bytes it appends. *)

Module ProtocolWriter.

Section Writer.

(** [+v] of the runtime for a string, buffer, array or object [v]; it
    only matters when such a value sits in the x, y or z of an object. *)
Variable ToNumber_object : value -> number.

Definition ToNumber (v : value) : number :=
  match v with
  | VNum n => n
  | VUndefined => Dbl (IEEE.encode IEEE.binary64 NaN)
  | VNull => Int 0
  | VBool b => Int (if b then 1 else 0)
  | _ => ToNumber_object v
  end.

Definition writeByte (value : Z) : list Z := [Z.land value 255].

Definition writeBool (value : bool) : list Z :=
  writeByte (if value then 1 else 0).

Definition writeVarInt (value : Z) : list Z := VarInt.encode value.

Definition writeVarLong (value : Z) : list Z := VarLong.encode value.

(** [writeInt16BE] and [writeInt32BE] store the two's complement of a
    value in range; [writeValue] tests the range before it calls them. *)
Definition writeShort (value : Z) : list Z := be16 value.

Definition writeInt (value : Z) : list Z := be32 value.

(** [writeFloatBE] coerces its argument to a number and narrows it to
    binary32. *)
Definition writeFloat (v : value) : list Z :=
  be32 (IEEE.encode IEEE.binary32 (fp_of_number (ToNumber v))).

Definition writeString (str : string) : list Z :=
  let buf := bytes_of_string str in
  writeVarInt (blen buf) ++ buf.

Definition writeBytes (bytes : list Z) : list Z :=
  writeVarInt (blen bytes) ++ bytes.

Definition prop (o : object) (key : string) : value :=
  match obj_get o key with
  | Some v => v
  | None => VUndefined
  end.

Fixpoint writeValue (v : value) : list Z :=
  match v with
  | VUndefined | VNull => writeByte TYPE.NULL
  | VBool b => writeByte TYPE.BOOL ++ writeBool b
  | VNum (Int num) =>
      if (2147483647 <? num) || (num <? -2147483648)
      then writeByte TYPE.LONG ++ writeVarLong num
      else if (-128 <=? num) && (num <=? 127)
      then writeByte TYPE.BYTE ++ writeByte num
      else if (-32768 <=? num) && (num <=? 32767)
      then writeByte TYPE.SHORT ++ writeShort num
      else writeByte TYPE.INT ++ writeInt num
  | VNum (Dbl _) => writeByte TYPE.FLOAT ++ writeFloat v
  | VStr s => writeByte TYPE.STRING ++ writeString s
  | VBuf b => writeByte TYPE.BYTES ++ writeBytes b
  | VArr l =>
      writeByte TYPE.ARRAY ++ writeVarInt (Z.of_nat (length l))
        ++ flat_map writeValue l
  | VObj obj =>
      if obj_defined obj "x" && obj_defined obj "y" && obj_defined obj "z"
      then writeByte TYPE.VEC3 ++ writeFloat (prop obj "x")
             ++ writeFloat (prop obj "y") ++ writeFloat (prop obj "z")
      else if obj_defined obj "x" && obj_defined obj "y"
      then writeByte TYPE.VEC2 ++ writeFloat (prop obj "x")
             ++ writeFloat (prop obj "y")
      else writeByte TYPE.MAP ++ writeVarInt (Z.of_nat (length obj))
             ++ flat_map (fun kv => match kv with
                                    | (key, item) =>
                                        writeString key ++ writeValue item
                                    end) obj
  end.

Definition writeMap (map : object) : list Z :=
  writeVarInt (Z.of_nat (length map))
    ++ flat_map (fun kv => match kv with
                           | (key, item) => writeString key ++ writeValue item
                           end) map.

End Writer.

End ProtocolWriter.

(** ** ProtocolReader (src/protocol/ProtocolReader.ts)

    A reader holds a buffer and an offset into it; a method is a function of
    both that yields its result and the new offset, or throws. *)

Module ProtocolReader.

Definition M (A : Type) : Type := list Z -> Z -> result (A * Z).

Definition ret {A} (a : A) : M A := fun _ offset => Ok (a, offset).

Definition throw {A} (e : error) : M A := fun _ _ => Throw e.

Definition bind {A B} (m : M A) (k : A -> M B) : M B :=
  fun buffer offset =>
    match m buffer offset with
    | Ok (a, offset') => k a buffer offset'
    | Throw e => Throw e
    | OutOfFuel => OutOfFuel
    end.

Notation "x <- m ;; k" := (bind m (fun x => k))
  (at level 61, m at next level, right associativity).

Definition hasBytes (count : Z) (buffer : list Z) (offset : Z) : bool :=
  offset + count <=? blen buffer.

Definition read (length : Z) : M (list Z) :=
  fun buffer offset =>
    if negb (hasBytes length buffer offset) then Throw BufferUnderflow
    else Ok (slice buffer offset (offset + length), offset + length).

(** The byte read is [undefined], here [None], at a negative offset. *)
Definition readByte : M (option Z) :=
  fun buffer offset =>
    if negb (hasBytes 1 buffer offset) then Throw BufferUnderflow
    else Ok (buf_get buffer offset, offset + 1).

Definition readBool : M bool :=
  b <- readByte ;;
  ret (match b with Some 0 => false | _ => true end).

Definition readVarInt : M Z :=
  fun buffer offset =>
    match VarInt.decode buffer offset with
    | Ok (value, bytesRead) => Ok (value, offset + bytesRead)
    | Throw e => Throw e
    | OutOfFuel => OutOfFuel
    end.

Definition readVarLong : M number :=
  fun buffer offset =>
    match VarLong.decode buffer offset with
    | Ok (value, bytesRead) => Ok (value, offset + bytesRead)
    | Throw e => Throw e
    | OutOfFuel => OutOfFuel
    end.

(** [readInt16BE], [readInt32BE], [readFloatBE] and [readDoubleBE] do their
    own bounds check and throw a [RangeError]. *)
Definition readBE (n : Z) : M Z :=
  fun buffer offset =>
    match read_be buffer offset n with
    | Ok w => Ok (w, offset + n)
    | Throw e => Throw e
    | OutOfFuel => OutOfFuel
    end.

Definition readShort : M Z := w <- readBE 2 ;; ret (signed 16 w).

Definition readInt : M Z := w <- readBE 4 ;; ret (signed 32 w).

Definition readFloat : M number :=
  w <- readBE 4 ;; ret (number_of_fp (IEEE.decode IEEE.binary32 w)).

Definition readDouble : M number :=
  w <- readBE 8 ;; ret (number_of_fp (IEEE.decode IEEE.binary64 w)).

(** [buffer.toString('utf8', start, end)] clamps both ends to the buffer
    and never throws. *)
Definition toString (buffer : list Z) (start end_ : Z) : string :=
  let s := Z.max start 0 in
  let e := Z.min end_ (blen buffer) in
  string_of_bytes (firstn (Z.to_nat (e - s)) (skipn (Z.to_nat s) buffer)).

Definition readString : M string :=
  length <- readVarInt ;;
  if length =? 0 then ret EmptyString
  else fun buffer offset =>
         Ok (toString buffer offset (offset + length), offset + length).

Definition readBytes : M (list Z) :=
  length <- readVarInt ;;
  if length =? 0 then ret [] else read length.

(** The [for] loops of [readArray] and [readMap], [i] running to [length]. *)
Fixpoint readArray_loop (readValue : M value) (fuel : nat)
         (i length : Z) (arr : list value) : M (list value) :=
  if negb (i <? length) then ret arr
  else match fuel with
       | O => fun _ _ => OutOfFuel
       | S fuel' =>
           item <- readValue ;;
           readArray_loop readValue fuel' (i + 1) length (arr ++ [item])
       end.

Fixpoint readMap_loop (readValue : M value) (fuel : nat)
         (i length : Z) (map : object) : M object :=
  if negb (i <? length) then ret map
  else match fuel with
       | O => fun _ _ => OutOfFuel
       | S fuel' =>
           key <- readString ;;
           item <- readValue ;;
           readMap_loop readValue fuel' (i + 1) length (obj_set map key item)
       end.

(** [new Array(length)] throws a [RangeError] for a negative length. *)
Definition readArray_with (readValue : M value) (fuel : nat)
  : M (list value) :=
  length <- readVarInt ;;
  if length <? 0 then throw RangeError
  else readArray_loop readValue fuel 0 length [].

Definition readMap_with (readValue : M value) (fuel : nat) : M object :=
  length <- readVarInt ;;
  readMap_loop readValue fuel 0 length [].

(** The [switch] of [readValue] on the type byte; [readValue] stands for the
    recursive calls. *)
Definition readValue_switch (readValue : M value) (fuel : nat)
           (type : option Z) : M value :=
  match type with
  | Some 0 => ret VNull
  | Some 1 => b <- readBool ;; ret (VBool b)
  | Some 2 =>
      b <- readByte ;;
      ret (match b with Some z => VNum (Int z) | None => VUndefined end)
  | Some 3 => z <- readShort ;; ret (VNum (Int z))
  | Some 4 => z <- readInt ;; ret (VNum (Int z))
  | Some 5 => n <- readVarLong ;; ret (VNum n)
  | Some 6 => n <- readFloat ;; ret (VNum n)
  | Some 7 => n <- readDouble ;; ret (VNum n)
  | Some 8 => s <- readString ;; ret (VStr s)
  | Some 9 => b <- readBytes ;; ret (VBuf b)
  | Some 10 => l <- readArray_with readValue fuel ;; ret (VArr l)
  | Some 11 => o <- readMap_with readValue fuel ;; ret (VObj o)
  | Some 12 =>
      x <- readFloat ;; y <- readFloat ;;
      ret (VObj [("x"%string, VNum x); ("y"%string, VNum y)])
  | Some 13 =>
      x <- readFloat ;; y <- readFloat ;; z <- readFloat ;;
      ret (VObj [("x"%string, VNum x); ("y"%string, VNum y);
                 ("z"%string, VNum z)])
  | _ => throw UnknownType
  end.

Fixpoint readValue (fuel : nat) : M value :=
  match fuel with
  | O => fun _ _ => OutOfFuel
  | S fuel' =>
      type <- readByte ;;
      readValue_switch (readValue fuel') fuel' type
  end.

Definition readArray (fuel : nat) : M (list value) :=
  readArray_with (readValue fuel) fuel.

Definition readMap (fuel : nat) : M object :=
  readMap_with (readValue fuel) fuel.

End ProtocolReader.

(** ** Packet (src/protocol/Packet.ts) *)

Module Packet.

Import ProtocolReader.

Record ParsedPacket : Type := {
  opcode : option Z;          (* a byte read, cast to OPCODE unchecked *)
  data : object;
  isEncrypted : bool
}.

Definition create (ToNumber_object : value -> number)
           (opcode : OPCODE) (data : object) (encrypt : bool) : list Z :=
  let header :=
    ProtocolWriter.writeByte 0x42 ++ ProtocolWriter.writeByte 0x4e
      ++ ProtocolWriter.writeByte 0x01
      ++ ProtocolWriter.writeByte (if encrypt then 0x01 else 0x00)
      ++ ProtocolWriter.writeByte (OPCODE_value opcode) in
  let payload := ProtocolWriter.writeMap ToNumber_object data in
  let payload :=
    if encrypt then Cipher.encrypt Cipher.default_key payload else payload in
  let packetData :=
    header ++ ProtocolWriter.writeVarInt (blen payload) ++ payload in
  let checksum := Checksum.calculate packetData in
  packetData ++ ProtocolWriter.writeByte checksum.

(** The part of [parse] that reads the frame around the payload. *)
Definition parse_frame (buffer : list Z)
  : M (option Z * list Z * bool) :=
  magic1 <- readByte ;;
  magic2 <- readByte ;;
  match magic1, magic2 with
  | Some 0x42, Some 0x4e =>
      version <- readByte ;;
      match version with
      | Some 0x01 =>
          flags <- readByte ;;
          let isEncrypted :=
            negb (Z.land (match flags with Some f => f | None => 0 end) 1
                  =? 0) in
          opcode <- readByte ;;
          payloadLength <- readVarInt ;;
          payload <- read payloadLength ;;
          let payload :=
            if isEncrypted then Cipher.decrypt Cipher.default_key payload
            else payload in
          checksum <- readByte ;;
          let dataToVerify := slice buffer 0 (blen buffer - 1) in
          if negb (match checksum with
                   | Some c => Checksum.verify dataToVerify c
                   | None => false
                   end)
          then throw ChecksumMismatch
          else ret (opcode, payload, isEncrypted)
      | _ => throw UnsupportedVersion
      end
  | _, _ => throw InvalidMagic
  end.

Definition parse (buffer : list Z) : result ParsedPacket :=
  match parse_frame buffer buffer 0 with
  | Ok ((opcode, payload, isEncrypted), _) =>
      match readMap (S (length payload)) payload 0 with
      | Ok (data, _) =>
          Ok {| opcode := opcode; data := data; isEncrypted := isEncrypted |}
      | Throw e => Throw e
      | OutOfFuel => OutOfFuel
      end
  | Throw e => Throw e
  | OutOfFuel => OutOfFuel
  end.

End Packet.

(** ** The packet bridge (src/websocket-bridge.ts)

    The handler of the backend socket's 'data' event.  Its state is the
    receive buffer [tcpBuffer]; what it passes to [ws.send] is the JSON text
    of the parsed packet's opcode and data, recorded here as the packet. *)

Module WebSocketBridge.

(** The [while (tcpBuffer.length >= 6)] loop; one unit of fuel per round. *)
Fixpoint drain (fuel : nat) (wsOpen : bool) (tcpBuffer : list Z)
         (sent : list Packet.ParsedPacket)
  : option (list Z * list Packet.ParsedPacket) :=
  if negb (6 <=? blen tcpBuffer) then Some (tcpBuffer, sent)
  else match fuel with
       | O => None
       | S fuel' =>
           match Packet.parse tcpBuffer with
           | Ok packet =>
               drain fuel' wsOpen []
                     (if wsOpen then sent ++ [packet] else sent)
           | Throw BufferUnderflow => Some (tcpBuffer, sent)
           | Throw _ => Some ([], sent)
           | OutOfFuel => None
           end
       end.

(** [tcpSocket.on('data', ...)]: the new receive buffer and the packets
    forwarded to the WebSocket client, in order. *)
Definition onData (wsOpen : bool) (tcpBuffer data : list Z)
  : option (list Z * list Packet.ParsedPacket) :=
  let tcpBuffer := tcpBuffer ++ data in
  drain (S (length tcpBuffer)) wsOpen tcpBuffer [].

End WebSocketBridge.

(** ** The WebSocket engine (src/websocket/nyx-ws.ts) *)

Module NyxWS.

Inductive OpCode : Type :=
| CONTINUATION | TEXT | BINARY | CLOSE | PING | PONG.

Definition OpCode_value (o : OpCode) : Z :=
  match o with
  | CONTINUATION => 0x0 | TEXT => 0x1 | BINARY => 0x2
  | CLOSE => 0x8 | PING => 0x9 | PONG => 0xa
  end.

Record Frame : Type := { opcode : Z; payload : list Z }.

Inductive SocketMode : Type := TCP | WEBSOCKET.

(** What [send] and [sendFrame] accept: a string or a buffer. *)
Inductive data : Type :=
| Str (s : string)
| Buf (b : list Z).

(** What a socket does to the outside: the events it emits and the calls
    it makes on the underlying [net.Socket]. *)
Inductive effect : Type :=
| EmitMessage (d : data)
| EmitPing
| EmitPong
| SocketWrite (bytes : list Z)
| SocketEnd
| SocketDestroy.

(** A [SocketContainer]; [isAlive] is the field [NyxWSConnection] adds. *)
Record Socket : Type := {
  mode : SocketMode;
  buffer : list Z;
  fragments : list Frame;
  isAlive : bool
}.

Definition set_buffer (s : Socket) (b : list Z) : Socket :=
  {| mode := mode s; buffer := b; fragments := fragments s;
     isAlive := isAlive s |}.

Definition set_fragments (s : Socket) (f : list Frame) : Socket :=
  {| mode := mode s; buffer := buffer s; fragments := f;
     isAlive := isAlive s |}.

Definition set_isAlive (s : Socket) (a : bool) : Socket :=
  {| mode := mode s; buffer := buffer s; fragments := fragments s;
     isAlive := a |}.

Definition set_mode (s : Socket) (m : SocketMode) : Socket :=
  {| mode := m; buffer := buffer s; fragments := fragments s;
     isAlive := isAlive s |}.

(** The constructor of [NyxWSConnection]. *)
Definition new_connection (m : SocketMode) : Socket :=
  {| mode := m; buffer := []; fragments := []; isAlive := true |}.

(** *** Building frames *)

Definition data_bytes (d : data) : list Z :=
  match d with
  | Str s => bytes_of_string s
  | Buf b => b
  end.

(** [payload[i] ^ maskingKey[i % 4]] stored into a buffer, for [i] from
    index [i] on; a key byte out of range is [undefined] and acts as 0. *)
Fixpoint mask_from (maskingKey : list Z) (i : nat) (payload : list Z)
  : list Z :=
  match payload with
  | [] => []
  | b :: rest =>
      Z.land (Z.lxor b (nth (i mod 4) maskingKey 0)) 255
        :: mask_from maskingKey (S i) rest
  end.

Definition mask_bit (masked : bool) : Z := if masked then 0x80 else 0.

(** The frame [sendFrame] writes; [maskingKey] is the outcome of
    [crypto.randomBytes(4)].  [writeUInt32BE] throws a [RangeError] for a
    length of 2^32 or more. *)
Definition buildFrame (opcode : OpCode) (d : data) (masked : bool)
           (maskingKey : list Z) : result (list Z) :=
  let payload := data_bytes d in
  let payloadLength := blen payload in
  let byte0 := Z.land (Z.lor 0x80 (OpCode_value opcode)) 255 in
  let body :=
    if masked then maskingKey ++ mask_from maskingKey 0 payload
    else payload in
  if payloadLength <? 126 then
    Ok (byte0 :: Z.land (Z.lor (mask_bit masked) payloadLength) 255 :: body)
  else if payloadLength <? 65536 then
    Ok (byte0 :: Z.land (Z.lor (mask_bit masked) 126) 255
          :: be16 payloadLength ++ body)
  else if payloadLength <? 2 ^ 32 then
    Ok (byte0 :: Z.land (Z.lor (mask_bit masked) 127) 255
          :: be32 0 ++ be32 payloadLength ++ body)
  else Throw RangeError.

(** [sendFrame]: the frame is written to the socket unless building it
    threw. *)
Definition sendFrame (opcode : OpCode) (d : data) (masked : bool)
           (maskingKey : list Z) : result (list effect) :=
  match buildFrame opcode d masked maskingKey with
  | Ok frame => Ok [SocketWrite frame]
  | Throw e => Throw e
  | OutOfFuel => OutOfFuel
  end.

(** *** Parsing frames *)

(** The second half of a round of the loop of [handleData], from the
    masking key to the call of [handleFrame], once the length field has
    given [payloadLength] and left [offset] behind it. *)
Definition parseFrame_payload (buffer : list Z) (fin : bool) (opcode : Z)
           (masked : bool) (payloadLength offset : Z)
  : option (bool * Z * list Z * list Z) :=
  let maskingKey := slice buffer offset (offset + 4) in
  let offset := if masked then offset + 4 else offset in
  if blen buffer <? offset + payloadLength then None
  else
    let payload := slice buffer offset (offset + payloadLength) in
    let payload :=
      if masked then mask_from maskingKey 0 payload else payload in
    Some (fin, opcode, payload,
          slice buffer (offset + payloadLength) (blen buffer)).

(** One round of the loop of [handleData] up to the call of [handleFrame]:
    [None] when the buffer does not yet hold a whole frame, else the fin
    flag, opcode and unmasked payload of the first frame and the buffer
    left after it. *)
Definition parseFrame (buffer : list Z)
  : option (bool * Z * list Z * list Z) :=
  match buffer with
  | byte1 :: byte2 :: _ =>
      let fin := Z.land byte1 0x80 =? 0x80 in
      let opcode := Z.land byte1 0x0f in
      let masked := Z.land byte2 0x80 =? 0x80 in
      let payloadLength := Z.land byte2 0x7f in
      if payloadLength =? 126 then
        if blen buffer <? 4 then None
        else
          parseFrame_payload buffer fin opcode masked
                             (of_be (slice buffer 2 4) 0) 4
      else if payloadLength =? 127 then
        if blen buffer <? 10 then None
        else
          let high := of_be (slice buffer 2 6) 0 in
          let low := of_be (slice buffer 6 10) 0 in
          parseFrame_payload buffer fin opcode masked
                             (js_number (high * 0x100000000 + low)) 10
      else parseFrame_payload buffer fin opcode masked payloadLength 2
  | _ => None
  end.

(** *** Handling frames *)

Definition emitMessage (opcode : Z) (payload : list Z) : list effect :=
  if opcode =? OpCode_value TEXT
  then [EmitMessage (Str (string_of_bytes payload))]
  else [EmitMessage (Buf payload)].

Definition concat_payloads (fs : list Frame) : list Z :=
  concat (map payload fs).

(** [close(code, reason)] of [SocketContainer]; [writeUInt16BE] throws a
    [RangeError] when [code] is not a 16-bit unsigned value. *)
Definition close (s : Socket) (code : Z) (reason : string)
  : result (list effect) :=
  match mode s with
  | WEBSOCKET =>
      if (0 <=? code) && (code <? 65536) then
        match sendFrame CLOSE (Buf (be16 code ++ bytes_of_string reason))
                        false [] with
        | Ok effs => Ok (effs ++ [SocketEnd])
        | Throw e => Throw e
        | OutOfFuel => OutOfFuel
        end
      else Throw RangeError
  | TCP => Ok [SocketEnd]
  end.

(** [handleCloseFrame] of [NyxWSConnection]. *)
Definition handleCloseFrame (s : Socket) : result (list effect) :=
  close s 1000 EmptyString.

(** [handlePing] of [SocketContainer]. *)
Definition handlePing (payload : list Z) : result (list effect) :=
  match sendFrame PONG (Buf payload) false [] with
  | Ok effs => Ok (effs ++ [EmitPing])
  | Throw e => Throw e
  | OutOfFuel => OutOfFuel
  end.

(** [handlePong] of [NyxWSConnection]. *)
Definition handlePong (s : Socket) : Socket * list effect :=
  (set_isAlive s true, [EmitPong]).

Definition handleFrame (s : Socket) (fin : bool) (opcode : Z)
           (payload : list Z) : result (Socket * list effect) :=
  let frame := {| opcode := opcode; payload := payload |} in
  if (opcode =? OpCode_value TEXT) || (opcode =? OpCode_value BINARY) then
    if negb fin then Ok (set_fragments s (fragments s ++ [frame]), [])
    else if 0 <? Z.of_nat (length (fragments s)) then
      let fullPayload := concat_payloads (fragments s ++ [frame]) in
      Ok (set_fragments s [], emitMessage opcode fullPayload)
    else Ok (s, emitMessage opcode payload)
  else if opcode =? OpCode_value CONTINUATION then
    let fragments' := fragments s ++ [frame] in
    if fin then
      let fullPayload := concat_payloads fragments' in
      let originalOpcode :=
        match fragments' with
        | f :: _ => NyxWS.opcode f
        | [] => opcode
        end in
      Ok (set_fragments s [], emitMessage originalOpcode fullPayload)
    else Ok (set_fragments s fragments', [])
  else if opcode =? OpCode_value CLOSE then
    match handleCloseFrame s with
    | Ok effs => Ok (s, effs)
    | Throw e => Throw e
    | OutOfFuel => OutOfFuel
    end
  else if opcode =? OpCode_value PING then
    match handlePing payload with
    | Ok effs => Ok (s, effs)
    | Throw e => Throw e
    | OutOfFuel => OutOfFuel
    end
  else if opcode =? OpCode_value PONG then Ok (handlePong s)
  else Ok (s, []).

(** The [while (this.buffer.length >= 2)] loop of [handleData]. *)
Fixpoint handleData_loop (fuel : nat) (s : Socket) (effs : list effect)
  : result (Socket * list effect) :=
  if negb (2 <=? blen (buffer s)) then Ok (s, effs)
  else match parseFrame (buffer s) with
       | None => Ok (s, effs)
       | Some (fin, opcode, payload, rest) =>
           match fuel with
           | O => OutOfFuel
           | S fuel' =>
               match handleFrame (set_buffer s rest) fin opcode payload with
               | Ok (s', effs') => handleData_loop fuel' s' (effs ++ effs')
               | Throw e => Throw e
               | OutOfFuel => OutOfFuel
               end
           end
       end.

Definition handleData (s : Socket) (d : list Z)
  : result (Socket * list effect) :=
  match mode s with
  | TCP => Ok (s, [EmitMessage (Buf d)])
  | WEBSOCKET =>
      let buffer' :=
        if blen (buffer s) =? 0 then d else buffer s ++ d in
      handleData_loop (length buffer') (set_buffer s buffer') []
  end.

(** [send] and [ping] of a server-side connection (frames unmasked). *)
Definition send (s : Socket) (d : data) : result (list effect) :=
  match mode s with
  | TCP => Ok [SocketWrite (data_bytes d)]
  | WEBSOCKET =>
      let opcode := match d with Str _ => TEXT | Buf _ => BINARY end in
      sendFrame opcode d false []
  end.

Definition ping (s : Socket) : result (list effect) :=
  match mode s with
  | WEBSOCKET => sendFrame PING (Buf []) false []
  | TCP => Ok []
  end.

(** *** The liveness sweep of [NyxWSServer]

    The server tracks its connections in a [Set], given here as the list
    of the connections in insertion order, each with an identity. *)

Definition clients : Type := list (nat * Socket).

(** The body of the [setInterval] callback: the connections left in the
    set and what was done to each connection. *)
Fixpoint sweep (cs : clients) : clients * list (nat * effect) :=
  match cs with
  | [] => ([], [])
  | (id, client) :: rest =>
      let (rest', effs) := sweep rest in
      if negb (isAlive client)
      then (rest', (id, SocketDestroy) :: effs)
      else
        let pinged :=
          match ping client with
          | Ok es => map (fun e => (id, e)) es
          | _ => []
          end in
        ((id, set_isAlive client false) :: rest', pinged ++ effs)
  end.

(** *** Sweeps and PONGs as steps

    A PONG frame that arrives on the connection [id] makes [handleFrame]
    run [handlePong] on it. *)






End NyxWS.

(** * Vocabulary of the properties *)

(** The two formats the protocol uses. *)
Definition std_format (f : IEEE.format) : Prop :=
  f = IEEE.binary32 \/ f = IEEE.binary64.

(** The unsigned sum of the bytes of a buffer. *)
Definition byte_sum (l : list Z) : Z := fold_right Z.add 0 l.

(** The FIN bit and the opcode of a frame on the wire, read from its first
    byte as [handleData] reads them. *)
Definition frame_fin (frame : list Z) : bool :=
  match frame with
  | byte1 :: _ => Z.land byte1 0x80 =? 0x80
  | [] => false
  end.

Definition frame_opcode (frame : list Z) : option Z :=
  match frame with
  | byte1 :: _ => Some (Z.land byte1 0x0f)
  | [] => None
  end.

(** ** Well-formed strings *)

(** The bytes that stand for the string. *)
Fixpoint raw_bytes (s : string) : list Z :=
  match s with
  | EmptyString => []
  | String c rest => byte_of_ascii c :: raw_bytes rest
  end.

Definition continuation (b : Z) : bool := (0x80 <=? b) && (b <=? 0xBF).

(** Well-formed UTF-8 (the Unicode Standard, table 3-7): the strings
    without unpaired surrogates. *)
Fixpoint utf8_ok (s : string) : bool :=
  match s with
  | EmptyString => true
  | String c1 r1 =>
      let b1 := byte_of_ascii c1 in
      if b1 <=? 0x7F then utf8_ok r1
      else
        match r1 with
        | EmptyString => false
        | String c2 r2 =>
            let b2 := byte_of_ascii c2 in
            (lower_boundary b1 <=? b2) && (b2 <=? upper_boundary b1)
            && if (0xC2 <=? b1) && (b1 <=? 0xDF) then utf8_ok r2
               else
                 match r2 with
                 | EmptyString => false
                 | String c3 r3 =>
                     continuation (byte_of_ascii c3)
                     && if (0xE0 <=? b1) && (b1 <=? 0xEF) then utf8_ok r3
                        else
                          match r3 with
                          | EmptyString => false
                          | String c4 r4 =>
                              continuation (byte_of_ascii c4)
                              && (0xF0 <=? b1) && (b1 <=? 0xF4)
                              && utf8_ok r4
                          end
                 end
        end
  end.

(** ** Well-formed payloads *)

Definition number_eqb (a b : number) : bool :=
  match a, b with
  | Int x, Int y => x =? y
  | Dbl x, Dbl y => x =? y
  | _, _ => false
  end.

(** A number is a 32-bit float when narrowing it to binary32 and widening
    the result gives it back. *)
Definition f32_exact (n : number) : bool :=
  number_eqb
    (number_of_fp (IEEE.decode IEEE.binary32
                     (IEEE.encode IEEE.binary32 (fp_of_number n))))
    n.

(** The integers that round-trip: not in [-128, -1], not below -2^31, and
    numbers, that is, integers a binary64 float holds exactly (every integer
    up to 2^53 and, beyond, those with at most 53 significant bits). *)
Definition int_ok (z : Z) : bool :=
  negb ((-128 <=? z) && (z <? 0)) && (-2147483648 <=? z)
  && number_eqb (Number_of_BigInt z) (Int z).

Definition key_ok (key : string) : bool :=
  negb (String.eqb key "__proto__") && utf8_ok key
  && (Z.of_nat (String.length key) <? 2 ^ 31).

Fixpoint keys_distinct (o : object) : bool :=
  match o with
  | [] => true
  | (k, _) :: rest =>
      negb (existsb (String.eqb k) (map fst rest)) && keys_distinct rest
  end.

Definition vec_component (v : value) : bool :=
  match v with
  | VNum n => f32_exact n
  | _ => false
  end.

(** A Vec2 or Vec3: the properties x, y (and z), in this order, hold
    32-bit floats. *)
Definition vec_ok (o : object) : bool :=
  match o with
  | [(kx, x); (ky, y)] =>
      String.eqb kx "x" && String.eqb ky "y"
      && vec_component x && vec_component y
  | [(kx, x); (ky, y); (kz, z)] =>
      String.eqb kx "x" && String.eqb ky "y" && String.eqb kz "z"
      && vec_component x && vec_component y && vec_component z
  | _ => false
  end.

Fixpoint wf_value (v : value) : bool :=
  match v with
  | VUndefined => false
  | VNull => true
  | VBool _ => true
  | VNum (Int z) => int_ok z
  | VNum (Dbl w) => f32_exact (Dbl w)
  | VStr s => utf8_ok s && (Z.of_nat (String.length s) <? 2 ^ 31)
  | VBuf b => bytes_okb b && (blen b <? 2 ^ 31)
  | VArr l => (Z.of_nat (length l) <? 2 ^ 31) && forallb wf_value l
  | VObj o =>
      if obj_defined o "x" && obj_defined o "y" then vec_ok o
      else (Z.of_nat (length o) <? 2 ^ 31) && keys_distinct o
           && forallb (fun kv => match kv with
                                 | (key, item) => key_ok key && wf_value item
                                 end) o
  end.

Definition wf_map (o : object) : bool :=
  (Z.of_nat (length o) <? 2 ^ 31) && keys_distinct o
  && forallb (fun kv => match kv with
                        | (key, item) => key_ok key && wf_value item
                        end) o.

(** The values of the Typed Value model of the specification: null,
    booleans, 64-bit integers, 32-bit floats, strings, buffers of bytes,
    arrays of such values and maps from distinct keys to such values (a Vec2
    and a Vec3 are the maps with the keys x, y and x, y, z). *)
Fixpoint typed_value (v : value) : bool :=
  match v with
  | VUndefined => false
  | VNull => true
  | VBool _ => true
  | VNum (Int z) => (- 2 ^ 63 <=? z) && (z <? 2 ^ 63)
  | VNum (Dbl w) => f32_exact (Dbl w)
  | VStr _ => true
  | VBuf b => bytes_okb b
  | VArr l => forallb typed_value l
  | VObj o =>
      keys_distinct o
      && forallb (fun kv => match kv with
                            | (_, item) => typed_value item
                            end) o
  end.

(** [reads m bytes a]: wherever [bytes] sit in a buffer, [m] run at their
    first byte returns [a] and leaves the offset just behind them. *)
Definition reads {A} (m : ProtocolReader.M A) (bytes : list Z) (a : A) : Prop :=
  forall pre post,
    m (pre ++ bytes ++ post) (blen pre) = Ok (a, blen pre + blen bytes).

(** The bytes of one entry of a map. *)
Definition entry_bytes T (kv : string * value) : list Z :=
  match kv with
  | (key, item) =>
      ProtocolWriter.writeString key ++ ProtocolWriter.writeValue T item
  end.

(** *** Induction on values *)

Section ValueInd.
Variable P : value -> Prop.
Hypothesis HUndefined : P VUndefined.
Hypothesis HNull : P VNull.
Hypothesis HBool : forall b, P (VBool b).
Hypothesis HNum : forall n, P (VNum n).
Hypothesis HStr : forall s, P (VStr s).
Hypothesis HBuf : forall b, P (VBuf b).
Hypothesis HArr : forall l, Forall P l -> P (VArr l).
Hypothesis HObj : forall o, Forall (fun kv => P (snd kv)) o -> P (VObj o).

Fixpoint value_ind_nested (v : value) : P v :=
  match v with
  | VUndefined => HUndefined
  | VNull => HNull
  | VBool b => HBool b
  | VNum n => HNum n
  | VStr s => HStr s
  | VBuf b => HBuf b
  | VArr l =>
      HArr l ((fix items (l : list value) : Forall P l :=
                 match l with
                 | [] => Forall_nil P
                 | v :: rest =>
                     Forall_cons v (value_ind_nested v) (items rest)
                 end) l)
  | VObj o =>
      HObj o ((fix entries (o : object)
                 : Forall (fun kv => P (snd kv)) o :=
                 match o with
                 | [] => Forall_nil _
                 | (key, v) :: rest =>
                     Forall_cons (key, v) (value_ind_nested v)
                                 (entries rest)
                 end) o)
  end.
End ValueInd.


(** ** Vocabulary of the further properties *)

(** Every buffer inside the value holds bytes. *)
Fixpoint buffers_ok (v : value) : bool :=
  match v with
  | VBuf b => bytes_okb b
  | VArr l => forallb buffers_ok l
  | VObj o => forallb (fun kv => match kv with
                                 | (_, item) => buffers_ok item
                                 end) o
  | _ => true
  end.

(** The assignments [map[key] = value] of [readMap] for the entries it
    reads, in order. *)
Definition assign_all (entries : list (string * value)) (map : object)
  : object :=
  fold_left (fun m kv => obj_set m (fst kv) (snd kv)) entries map.

(** [underflows m bytes]: when a buffer ends with [bytes], [m] run at their
    first byte throws 'Buffer underflow'. *)
Definition underflows {A} (m : ProtocolReader.M A) (bytes : list Z) : Prop :=
  forall pre, m (pre ++ bytes) (blen pre) = Throw BufferUnderflow.

(** Successive 'data' events of the backend socket of the bridge: the
    receive buffer is threaded through [onData], the packets forwarded are
    collected in order. *)
Fixpoint onData_all (wsOpen : bool) (tcpBuffer : list Z)
         (chunks : list (list Z)) (sent : list Packet.ParsedPacket)
  : option (list Z * list Packet.ParsedPacket) :=
  match chunks with
  | [] => Some (tcpBuffer, sent)
  | data :: chunks' =>
      match WebSocketBridge.onData wsOpen tcpBuffer data with
      | Some (tcpBuffer', sent') =>
          onData_all wsOpen tcpBuffer' chunks' (sent ++ sent')
      | None => None
      end
  end.

(** The bytes of a frame before the masking key and the payload, for a
    payload of [n] bytes, as [sendFrame] lays them out. *)
Definition frame_header (opcode : NyxWS.OpCode) (masked : bool) (n : Z)
  : list Z :=
  Z.land (Z.lor 0x80 (NyxWS.OpCode_value opcode)) 255
    :: (if n <? 126 then [Z.land (Z.lor (NyxWS.mask_bit masked) n) 255]
        else if n <? 65536
             then Z.land (Z.lor (NyxWS.mask_bit masked) 126) 255 :: be16 n
             else Z.land (Z.lor (NyxWS.mask_bit masked) 127) 255
                    :: be32 0 ++ be32 n).

(** The masking key and the payload as they follow the header. *)
Definition frame_body (masked : bool) (key payload : list Z) : list Z :=
  if masked then key ++ NyxWS.mask_from key 0 payload else payload.

(** Successive 'data' events of the socket under a [SocketContainer]. *)
Fixpoint handleData_all (s : NyxWS.Socket) (chunks : list (list Z))
         (effs : list NyxWS.effect)
  : result (NyxWS.Socket * list NyxWS.effect) :=
  match chunks with
  | [] => Ok (s, effs)
  | d :: chunks' =>
      match NyxWS.handleData s d with
      | Ok (s', effs') => handleData_all s' chunks' (effs ++ effs')
      | Throw e => Throw e
      | OutOfFuel => OutOfFuel
      end
  end.

(** The messages that arrive as they were sent: a string without unpaired
    surrogates or a buffer of bytes. *)
Definition message_ok (d : NyxWS.data) : Prop :=
  match d with
  | NyxWS.Str s => utf8_ok s = true
  | NyxWS.Buf b => bytes_ok b
  end.

(** [frame] is the frame [send] builds for the message [d], unmasked as a
    server writes it or masked with a 4-byte key as a client does. *)
Definition is_frame_of (m : NyxWS.data * bool * list Z) (frame : list Z)
  : Prop :=
  let '(d, masked, key) := m in
  NyxWS.buildFrame (match d with
                    | NyxWS.Str _ => NyxWS.TEXT
                    | NyxWS.Buf _ => NyxWS.BINARY
                    end) d masked key
  = Ok frame
  /\ message_ok d
  /\ (masked = true -> length key = 4%nat).

(** [p] is a beginning of the first of [frames] that stops short of its
    last byte; it is empty when there is no frame. *)
Definition partial_frame (p : list Z) (frames : list (list Z)) : Prop :=
  match frames with
  | [] => p = []
  | f :: _ => (length p < length f)%nat
  end.

(** Frames handled one after the other by [handleFrame]. *)
Fixpoint handleFrames (s : NyxWS.Socket) (frames : list (bool * Z * list Z))
         (effs : list NyxWS.effect)
  : result (NyxWS.Socket * list NyxWS.effect) :=
  match frames with
  | [] => Ok (s, effs)
  | (fin, opcode, payload) :: frames' =>
      match NyxWS.handleFrame s fin opcode payload with
      | Ok (s', effs') => handleFrames s' frames' (effs ++ effs')
      | Throw e => Throw e
      | OutOfFuel => OutOfFuel
      end
  end.

(** [Math.fround(n)]: the number a 32-bit float holds once [n] has been
    stored in it, as [writeFloatBE] followed by [readFloatBE] gives it. *)
Definition fround (n : number) : number :=
  number_of_fp
    (IEEE.decode IEEE.binary32 (IEEE.encode IEEE.binary32 (fp_of_number n))).

(** [broadcast] of [NyxWSServer]: [send] on every connection of the set,
    in order; what a [send] throws is caught and dropped. *)
Definition broadcast (cs : NyxWS.clients) (d : NyxWS.data)
  : list (nat * NyxWS.effect) :=
  flat_map (fun ic => match NyxWS.send (snd ic) d with
                      | Ok es => map (fun e => (fst ic, e)) es
                      | Throw _ | OutOfFuel => []
                      end) cs.

(** * Properties *)

(** ** Bytes and bit operations *)

Lemma land_255_bits a i :
  0 <= i -> Z.testbit (Z.land a 255) i = (i <? 8) && Z.testbit a i.
Proof.
  intros Hi. change 255 with (Z.ones 8). rewrite Z.land_ones by lia.
  rewrite Z.testbit_mod_pow2 by lia. reflexivity.
Qed.

Lemma land_255_mod a : Z.land a 255 = a mod 256.
Proof. change 255 with (Z.ones 8). rewrite Z.land_ones by lia. reflexivity. Qed.

Lemma land_255_is_byte a : is_byte (Z.land a 255).
Proof. unfold is_byte. rewrite land_255_mod. lia. Qed.

Lemma land_255_byte b : is_byte b -> Z.land b 255 = b.
Proof. unfold is_byte. intros Hb. rewrite land_255_mod. lia. Qed.

Lemma byte_bits_high b i : is_byte b -> 8 <= i -> Z.testbit b i = false.
Proof.
  unfold is_byte. intros Hb Hi. destruct (Z.eq_dec b 0) as [-> | Hn].
  - apply Z.testbit_0_l.
  - apply Z.bits_above_log2; try lia.
    assert (Z.log2 b < 8) by (apply Z.log2_lt_pow2; lia). lia.
Qed.

Lemma is_byteb_spec b : is_byteb b = true <-> is_byte b.
Proof. unfold is_byteb, is_byte. lia. Qed.

Lemma bytes_okb_spec l : bytes_okb l = true <-> bytes_ok l.
Proof.
  unfold bytes_okb, bytes_ok. rewrite forallb_forall, Forall_forall.
  split; intros H x Hx; apply is_byteb_spec, H, Hx.
Qed.

Lemma bytes_ok_app l1 l2 : bytes_ok l1 -> bytes_ok l2 -> bytes_ok (l1 ++ l2).
Proof. unfold bytes_ok. intros. apply Forall_app. split; assumption. Qed.

Lemma blen_app l1 l2 : blen (l1 ++ l2) = blen l1 + blen l2.
Proof. unfold blen. rewrite length_app. lia. Qed.

Lemma blen_nonneg l : 0 <= blen l.
Proof. unfold blen. lia. Qed.

Lemma slice_mid a b c :
  slice (a ++ b ++ c) (blen a) (blen a + blen b) = b.
Proof.
  unfold slice, adjustOffset. rewrite !blen_app.
  assert (Ha := blen_nonneg a). assert (Hb := blen_nonneg b).
  assert (Hc := blen_nonneg c).
  destruct (Z.ltb_spec (blen a) 0); [lia |].
  destruct (Z.ltb_spec (blen a + blen b) 0); [lia |].
  rewrite !Z.min_l by lia.
  replace (blen a + blen b - blen a) with (blen b) by lia.
  unfold blen. rewrite !Nat2Z.id.
  rewrite skipn_app, skipn_all, Nat.sub_diag. simpl.
  rewrite firstn_app, firstn_all, Nat.sub_diag. simpl. apply app_nil_r.
Qed.

Lemma slice_suffix a b :
  slice (a ++ b) (blen a) (blen (a ++ b)) = b.
Proof.
  rewrite blen_app. rewrite <- (app_nil_r b) at 1. apply slice_mid.
Qed.

Lemma slice_at l a b c s e :
  l = a ++ b ++ c -> s = blen a -> e = blen a + blen b -> slice l s e = b.
Proof. intros -> -> ->. apply slice_mid. Qed.

(** ** Integers in binary32 and binary64 *)

Lemma testbit_top (n r : Z) (s : bool) :
  0 <= n -> 0 <= r < 2 ^ n ->
  Z.testbit ((if s then 2 ^ n else 0) + r) n = s.
Proof.
  intros Hn Hr.
  rewrite Z.testbit_eqb by lia.
  assert (Hp : 0 < 2 ^ n) by (apply Z.pow_pos_nonneg; lia).
  destruct s.
  - replace (2 ^ n + r) with (r + 1 * 2 ^ n) by lia.
    rewrite Z.div_add by lia. rewrite Z.div_small by lia. reflexivity.
  - rewrite Z.add_0_l, Z.div_small by lia. reflexivity.
Qed.

Lemma decode_fields f (s : bool) (E M : Z) :
  std_format f ->
  0 <= E < 2 ^ IEEE.ebits f -> 0 <= M < 2 ^ IEEE.mbits f ->
  let w := IEEE.sign_bit f s + (E * 2 ^ IEEE.mbits f + M) in
  Z.testbit w (IEEE.ebits f + IEEE.mbits f) = s
  /\ Z.land (Z.shiftr w (IEEE.mbits f)) (IEEE.emax_field f) = E
  /\ Z.land w (2 ^ IEEE.mbits f - 1) = M.
Proof.
  intros Hf HE HM w. subst w. unfold IEEE.sign_bit, IEEE.emax_field.
  assert (Hb : 0 < IEEE.ebits f /\ 0 < IEEE.mbits f)
    by (destruct Hf as [-> | ->]; simpl; lia).
  assert (Hpm : 0 < 2 ^ IEEE.mbits f) by (apply Z.pow_pos_nonneg; lia).
  assert (Hpe : 0 < 2 ^ IEEE.ebits f) by (apply Z.pow_pos_nonneg; lia).
  repeat split.
  - apply testbit_top; [lia |]. rewrite Z.pow_add_r by lia. nia.
  - rewrite Z.shiftr_div_pow2 by lia.
    replace (2 ^ IEEE.ebits f - 1) with (Z.ones (IEEE.ebits f))
      by (rewrite Z.ones_equiv; lia).
    rewrite Z.land_ones by lia.
    replace ((if s then 2 ^ (IEEE.ebits f + IEEE.mbits f) else 0)
             + (E * 2 ^ IEEE.mbits f + M))
      with (M + ((if s then 2 ^ IEEE.ebits f else 0) + E) * 2 ^ IEEE.mbits f)
      by (rewrite Z.pow_add_r by lia; destruct s; lia).
    rewrite Z.div_add by lia. rewrite (Z.div_small M) by lia.
    destruct s.
    + replace (0 + (2 ^ IEEE.ebits f + E)) with (E + 1 * 2 ^ IEEE.ebits f) by lia.
      rewrite Z.mod_add by lia. apply Z.mod_small. lia.
    + apply Z.mod_small. lia.
  - replace (2 ^ IEEE.mbits f - 1) with (Z.ones (IEEE.mbits f))
      by (rewrite Z.ones_equiv; lia).
    rewrite Z.land_ones by lia.
    replace ((if s then 2 ^ (IEEE.ebits f + IEEE.mbits f) else 0)
             + (E * 2 ^ IEEE.mbits f + M))
      with (M + ((if s then 2 ^ IEEE.ebits f else 0) + E) * 2 ^ IEEE.mbits f)
      by (rewrite Z.pow_add_r by lia; destruct s; lia).
    rewrite Z.mod_add by lia. apply Z.mod_small. lia.
Qed.

Lemma std_format_facts f :
  std_format f ->
  0 < IEEE.ebits f /\ 0 < IEEE.mbits f
  /\ IEEE.emin f <= - IEEE.mbits f
  /\ IEEE.mbits f - IEEE.emin f + 1 < IEEE.emax_field f
  /\ IEEE.emax_field f = 2 ^ IEEE.ebits f - 1.
Proof. intros [-> | ->]; vm_compute; repeat split; congruence. Qed.

Lemma decode_normal f (s : bool) (E M : Z) :
  std_format f ->
  0 < E < IEEE.emax_field f -> 0 <= M < 2 ^ IEEE.mbits f ->
  IEEE.decode f (IEEE.sign_bit f s + (E * 2 ^ IEEE.mbits f + M))
  = Finite s (2 ^ IEEE.mbits f + M) (E - 1 + IEEE.emin f).
Proof.
  intros Hf HE HM.
  destruct (std_format_facts f Hf) as (He & Hm & _ & _ & Hmax).
  destruct (decode_fields f s E M Hf) as (H1 & H2 & H3); [lia | lia |].
  unfold IEEE.decode. rewrite H1, H2, H3.
  destruct (Z.eqb_spec E (IEEE.emax_field f)); [lia |].
  destruct (Z.eqb_spec E 0); [lia |]. reflexivity.
Qed.

Lemma encode_int f (z : Z) :
  std_format f -> z <> 0 -> Z.abs z < 2 ^ (IEEE.mbits f + 1) ->
  let L := Z.log2 (Z.abs z) in
  IEEE.encode f (Finite (z <? 0) (Z.abs z) 0)
  = IEEE.sign_bit f (z <? 0)
    + ((L - IEEE.mbits f - IEEE.emin f + 1) * 2 ^ IEEE.mbits f
       + (Z.abs z * 2 ^ (IEEE.mbits f - L) - 2 ^ IEEE.mbits f))
  /\ 0 <= L <= IEEE.mbits f
  /\ 2 ^ IEEE.mbits f <= Z.abs z * 2 ^ (IEEE.mbits f - L)
     < 2 ^ (IEEE.mbits f + 1).
Proof.
  intros Hf Hz Hlt L.
  destruct (std_format_facts f Hf) as (He & Hm & Hemin & Hspan & Hmax).
  assert (Hpos : 0 < Z.abs z) by lia.
  assert (HL : 0 <= L <= IEEE.mbits f).
  { subst L. split; [apply Z.log2_nonneg |].
    apply Z.log2_lt_pow2 in Hlt; lia. }
  assert (Hspec := Z.log2_spec (Z.abs z) Hpos). fold L in Hspec.
  assert (Hpm : 0 < 2 ^ IEEE.mbits f) by (apply Z.pow_pos_nonneg; lia).
  assert (HP : 0 < 2 ^ (IEEE.mbits f - L)) by (apply Z.pow_pos_nonneg; lia).
  assert (Hsplit : 2 ^ IEEE.mbits f = 2 ^ L * 2 ^ (IEEE.mbits f - L)).
  { rewrite <- Z.pow_add_r by lia. f_equal. lia. }
  assert (Hsucc : 2 ^ (IEEE.mbits f + 1) = 2 * 2 ^ IEEE.mbits f).
  { rewrite Z.pow_add_r by lia. lia. }
  assert (HLs : 2 ^ Z.succ L = 2 * 2 ^ L).
  { rewrite Z.pow_succ_r by lia. reflexivity. }
  assert (HM : 2 ^ IEEE.mbits f <= Z.abs z * 2 ^ (IEEE.mbits f - L)
               < 2 ^ (IEEE.mbits f + 1)) by nia.
  split; [| split; assumption].
  unfold IEEE.encode.
  destruct (Z.leb_spec (Z.abs z) 0); [lia |].
  fold L. rewrite Z.max_l by lia.
  destruct (Z.leb_spec (L + 0 - IEEE.mbits f) 0); [| lia].
  replace (0 - (L + 0 - IEEE.mbits f)) with (IEEE.mbits f - L) by lia.
  rewrite Z.min_l.
  - f_equal. lia.
  - rewrite Hmax in *. nia.
Qed.

Lemma int_round_trip f (z : Z) :
  std_format f -> Z.abs z < 2 ^ (IEEE.mbits f + 1) ->
  number_of_fp (IEEE.decode f (IEEE.encode f (fp_of_number (Int z)))) = Int z.
Proof.
  intros Hf Hlt. unfold fp_of_number.
  destruct (Z.eq_dec z 0) as [-> | Hz].
  - destruct Hf as [-> | ->]; reflexivity.
  - destruct (std_format_facts f Hf) as (He & Hm & Hemin & Hspan & Hmax).
    destruct (encode_int f z Hf Hz Hlt) as (Henc & HL & HM).
    set (L := Z.log2 (Z.abs z)) in *.
    rewrite Henc. rewrite decode_normal; try assumption; try lia.
    replace (2 ^ IEEE.mbits f + (Z.abs z * 2 ^ (IEEE.mbits f - L) - 2 ^ IEEE.mbits f))
      with (Z.abs z * 2 ^ (IEEE.mbits f - L)) by lia.
    replace (L - IEEE.mbits f - IEEE.emin f + 1 - 1 + IEEE.emin f)
      with (L - IEEE.mbits f) by lia.
    unfold number_of_fp.
    assert (HP : 0 < 2 ^ (IEEE.mbits f - L)) by (apply Z.pow_pos_nonneg; lia).
    destruct (Z.leb_spec 0 (L - IEEE.mbits f)).
    + replace (L - IEEE.mbits f) with 0 by lia.
      replace (IEEE.mbits f - L) with 0 by lia. simpl (2 ^ 0).
      f_equal. destruct (Z.ltb_spec z 0); lia.
    + replace (- (L - IEEE.mbits f)) with (IEEE.mbits f - L) by lia.
      rewrite Z.mod_mul by lia. simpl (0 =? 0).
      rewrite Z.div_mul by lia.
      f_equal. destruct (Z.ltb_spec z 0); lia.
    + rewrite Z.pow_add_r in HM by lia. lia.
Qed.

Lemma Number_of_BigInt_exact z : Z.abs z < 2 ^ 53 -> Number_of_BigInt z = Int z.
Proof.
  intros Hz. unfold Number_of_BigInt.
  apply (int_round_trip IEEE.binary64); [right; reflexivity | exact Hz].
Qed.

Lemma js_number_exact z : Z.abs z < 2 ^ 53 -> js_number z = z.
Proof. intros Hz. unfold js_number. rewrite Number_of_BigInt_exact by assumption. reflexivity. Qed.

(** ** Cipher *)

Lemma xor_store_involutive b k j :
  is_byte b ->
  Z.land (Z.lxor (Z.lxor (Z.land (Z.lxor (Z.lxor b k) j) 255) k) j) 255 = b.
Proof.
  intros Hb. apply Z.bits_inj'. intros i Hi.
  rewrite land_255_bits by lia. rewrite !Z.lxor_spec, land_255_bits by lia.
  rewrite !Z.lxor_spec. destruct (Z.ltb_spec i 8); simpl.
  - destruct (Z.testbit b i), (Z.testbit k i), (Z.testbit j i); reflexivity.
  - symmetry. apply byte_bits_high; [assumption | lia].
Qed.

Lemma xor_store_keystream b key i :
  is_byte b ->
  Z.land (Z.lxor (Z.lxor b key) (Z.land i 255)) 255
  = Z.lxor b (Cipher.keystream key i).
Proof.
  intros Hb. unfold Cipher.keystream. apply Z.bits_inj'. intros n Hn.
  repeat (rewrite Z.lxor_spec || rewrite land_255_bits by lia).
  destruct (Z.ltb_spec n 8); simpl.
  - destruct (Z.testbit b n), (Z.testbit key n), (Z.testbit i n); reflexivity.
  - rewrite byte_bits_high by (assumption || lia). reflexivity.
Qed.

Lemma encrypt_from_bytes_ok key i x : bytes_ok (Cipher.encrypt_from key i x).
Proof.
  revert i. induction x as [| b x IH]; intros i; simpl.
  - constructor.
  - constructor; [apply land_255_is_byte | apply IH].
Qed.

Lemma encrypt_from_length key i x :
  length (Cipher.encrypt_from key i x) = length x.
Proof.
  revert i. induction x as [| b x IH]; intros i; simpl; [| rewrite IH];
    reflexivity.
Qed.

Lemma encrypt_from_involutive key i x :
  bytes_ok x ->
  Cipher.encrypt_from key i (Cipher.encrypt_from key i x) = x.
Proof.
  intros Hx. revert i. induction Hx as [| b x Hb Hx IH]; intros i; simpl.
  - reflexivity.
  - rewrite xor_store_involutive by assumption. rewrite IH. reflexivity.
Qed.

Lemma encrypt_from_nth key x :
  bytes_ok x ->
  forall (i : Z) (n : nat) (b : Z),
    nth_error x n = Some b ->
    nth_error (Cipher.encrypt_from key i x) n
    = Some (Z.lxor b (Cipher.keystream key (i + Z.of_nat n))).
Proof.
  intros Hx. induction Hx as [| c x Hc Hx IH]; intros i n b Hn.
  - destruct n; discriminate.
  - destruct n as [| n]; simpl in *.
    + injection Hn as ->. rewrite xor_store_keystream by assumption.
      rewrite Z.add_0_r. reflexivity.
    + rewrite (IH (i + 1) n b Hn). do 3 f_equal. lia.
Qed.

(** C7.  The cipher is its own inverse: for every key and every buffer [x]
    of bytes, the empty one included, decrypting the encryption of [x] gives
    [x] back; decrypting is the same operation as encrypting; and byte [n]
    of the output is byte [n] of the input XOR the keystream byte
    [key ^ (n & 0xFF)]. *)
Theorem cipher_involution (key : Z) (x : list Z) :
  bytes_ok x ->
  Cipher.decrypt key (Cipher.encrypt key x) = x
  /\ Cipher.decrypt key x = Cipher.encrypt key x
  /\ (forall (n : nat) (b : Z),
         nth_error x n = Some b ->
         nth_error (Cipher.encrypt key x) n
         = Some (Z.lxor b (Cipher.keystream key (Z.of_nat n)))).
Proof.
  intros Hx. repeat split.
  - unfold Cipher.decrypt, Cipher.encrypt. apply encrypt_from_involutive, Hx.
  - intros n b Hn. unfold Cipher.encrypt.
    rewrite (encrypt_from_nth key x Hx 0 n b Hn). reflexivity.
Qed.

Lemma cipher_involution_witness :
  bytes_ok [72; 105; 255; 0]
  /\ Cipher.decrypt Cipher.default_key
       (Cipher.encrypt Cipher.default_key [72; 105; 255; 0])
     = [72; 105; 255; 0]
  /\ Cipher.decrypt 511 (Cipher.encrypt 511 []) = [].
Proof.
  split; [| split].
  - apply bytes_okb_spec. reflexivity.
  - apply (cipher_involution Cipher.default_key [72; 105; 255; 0]).
    apply bytes_okb_spec. reflexivity.
  - apply (cipher_involution 511 []). constructor.
Defined.

(** ** Checksum *)

Lemma calculate_fold l :
  forall acc,
    0 <= acc < 256 ->
    fold_left (fun sum b => Z.land (sum + b) 255) l acc
    = (acc + byte_sum l) mod 256.
Proof.
  induction l as [| b l IH]; intros acc Hacc; simpl.
  - lia.
  - rewrite IH by (rewrite land_255_mod; lia). rewrite land_255_mod. lia.
Qed.

Lemma calculate_spec l :
  Checksum.calculate l = Z.lxor (byte_sum l mod 256) 170.
Proof.
  unfold Checksum.calculate. rewrite calculate_fold by lia. reflexivity.
Qed.

Lemma lxor_170_inj a b : Z.lxor a 170 = Z.lxor b 170 -> a = b.
Proof.
  intros H.
  assert (Hc : forall c, Z.lxor (Z.lxor c 170) 170 = c).
  { intros c. rewrite Z.lxor_assoc, Z.lxor_nilpotent, Z.lxor_0_r. reflexivity. }
  rewrite <- (Hc a), H. apply Hc.
Qed.

Lemma calculate_is_byte l : is_byte (Checksum.calculate l).
Proof.
  rewrite calculate_spec. unfold is_byte.
  assert (Hm : 0 <= byte_sum l mod 256 < 256) by lia.
  split.
  - apply Z.lxor_nonneg. lia.
  - destruct (Z.eq_dec (Z.lxor (byte_sum l mod 256) 170) 0) as [-> | Hn];
      [lia |].
    assert (0 <= Z.lxor (byte_sum l mod 256) 170) by (apply Z.lxor_nonneg; lia).
    apply (Z.log2_lt_cancel _ 256). change (Z.log2 256) with 8.
    assert (Hl := Z.log2_lxor (byte_sum l mod 256) 170).
    assert (Z.log2 (byte_sum l mod 256) < 8).
    { destruct (Z.eq_dec (byte_sum l mod 256) 0) as [-> | Hz];
        [reflexivity | apply Z.log2_lt_pow2; lia]. }
    change (Z.log2 170) with 7 in Hl. lia.
Qed.

Lemma byte_sum_app l1 l2 : byte_sum (l1 ++ l2) = byte_sum l1 + byte_sum l2.
Proof. induction l1 as [| b l1 IH]; simpl; [| rewrite IH]; lia. Qed.

Lemma slice_prefix l r :
  slice (l ++ r) 0 (blen l) = l.
Proof.
  unfold slice, adjustOffset. rewrite blen_app.
  assert (Hl := blen_nonneg l). assert (Hr := blen_nonneg r).
  destruct (Z.ltb_spec 0 0); [lia |].
  destruct (Z.ltb_spec (blen l) 0); [lia |].
  rewrite Z.min_l by lia. rewrite Z.min_l by lia. simpl.
  rewrite Z.sub_0_r. unfold blen. rewrite Nat2Z.id.
  rewrite firstn_app, firstn_all, Nat.sub_diag. simpl. apply app_nil_r.
Qed.

Lemma slice_init l c :
  slice (l ++ [c]) 0 (blen (l ++ [c]) - 1) = l.
Proof.
  rewrite blen_app. change (blen [c]) with 1.
  replace (blen l + 1 - 1) with (blen l) by lia. apply slice_prefix.
Qed.

Lemma buf_set_app_l l r i v :
  (i < length l)%nat -> buf_set (l ++ r) i v = buf_set l i v ++ r.
Proof.
  intros Hi. unfold buf_set.
  rewrite firstn_app, skipn_app.
  replace (i - length l)%nat with 0%nat by lia.
  replace (S i - length l)%nat with 0%nat by lia.
  simpl. rewrite app_nil_r, <- app_assoc. reflexivity.
Qed.

Lemma buf_set_last l c v :
  buf_set (l ++ [c]) (length l) v = l ++ [Z.land v 255].
Proof.
  unfold buf_set.
  rewrite (skipn_all2 (n := S (length l))) by (rewrite length_app; simpl; lia).
  rewrite firstn_app, firstn_all, Nat.sub_diag. simpl.
  rewrite app_nil_r. reflexivity.
Qed.

Lemma byte_sum_buf_set l :
  forall i v b,
    nth_error l i = Some b ->
    byte_sum (buf_set l i v) = byte_sum l - b + Z.land v 255.
Proof.
  induction l as [| c l IH]; intros i v b Hi.
  - destruct i; discriminate.
  - destruct i as [| i]; simpl in Hi.
    + injection Hi as ->. unfold buf_set. simpl. lia.
    + specialize (IH i v b Hi).
      change (buf_set (c :: l) (S i) v) with (c :: buf_set l i v).
      change (byte_sum (c :: buf_set l i v))
        with (c + byte_sum (buf_set l i v)).
      change (byte_sum (c :: l)) with (c + byte_sum l). lia.
Qed.

Lemma verify_false_iff l c : Checksum.verify l c = false <-> Checksum.calculate l <> c.
Proof. unfold Checksum.verify. apply Z.eqb_neq. Qed.

(** A buffer that ends with the checksum of what precedes it no longer does
    after any one of its bytes is changed. *)
Lemma corrupted_checksum_mismatch body i v :
  bytes_ok body ->
  let packet := body ++ [Checksum.calculate body] in
  (i < length packet)%nat ->
  is_byte v ->
  nth_error packet i <> Some v ->
  let corrupted := buf_set packet i v in
  Checksum.verify (slice corrupted 0 (blen corrupted - 1)) (last corrupted 0)
  = false.
Proof.
  intros Hbody packet Hi Hv Hne corrupted. subst packet corrupted.
  rewrite length_app in Hi. simpl in Hi.
  destruct (Nat.eq_dec i (length body)) as [-> | Hlt].
  - rewrite buf_set_last, slice_init, last_last.
    apply verify_false_iff. rewrite land_255_byte by assumption.
    intros Heq. apply Hne.
    rewrite nth_error_app2 by lia. rewrite Nat.sub_diag. simpl.
    f_equal. assumption.
  - assert (Hi' : (i < length body)%nat) by lia.
    rewrite buf_set_app_l by assumption. rewrite slice_init, last_last.
    apply verify_false_iff. rewrite !calculate_spec.
    intros Heq. apply lxor_170_inj in Heq.
    rewrite nth_error_app1 in Hne by assumption.
    destruct (nth_error body i) as [b |] eqn:Hb;
      [| apply nth_error_None in Hb; lia].
    rewrite (byte_sum_buf_set body i v b Hb) in Heq.
    rewrite land_255_byte in Heq by assumption.
    assert (Hbb : is_byte b).
    { unfold bytes_ok in Hbody. rewrite Forall_forall in Hbody.
      apply Hbody. eapply nth_error_In. eassumption. }
    unfold is_byte in *. assert (b <> v) by congruence. lia.
Qed.

Lemma create_layout ToNumber_object op data enc :
  exists body,
    Packet.create ToNumber_object op data enc
    = body ++ [Checksum.calculate body].
Proof.
  unfold Packet.create. eexists.
  unfold ProtocolWriter.writeByte at 6.
  rewrite (land_255_byte (Checksum.calculate _)) by apply calculate_is_byte.
  reflexivity.
Qed.

(** C8.  [Checksum.calculate] is the sum of the bytes modulo 256 XORed with
    0xAA, and in a packet made by [Packet.create] changing any single byte
    to a different value makes [Checksum.verify] of the bytes before the
    trailer against the trailer return false. *)
Theorem checksum_detects_single_byte_corruption :
  (forall bytes : list Z,
      Checksum.calculate bytes = Z.lxor (byte_sum bytes mod 256) 0xAA)
  /\ (forall ToNumber_object op data enc (i : nat) (v : Z),
         let packet := Packet.create ToNumber_object op data enc in
         bytes_ok packet ->
         (i < length packet)%nat ->
         is_byte v ->
         nth_error packet i <> Some v ->
         let corrupted := buf_set packet i v in
         Checksum.verify (slice corrupted 0 (blen corrupted - 1))
                         (last corrupted 0)
         = false).
Proof.
  split.
  - apply calculate_spec.
  - intros T op data enc i v packet Hok Hi Hv Hne corrupted.
    subst corrupted packet.
    destruct (create_layout T op data enc) as [body Hbody].
    rewrite Hbody in *.
    apply corrupted_checksum_mismatch; try assumption.
    unfold bytes_ok in *. apply Forall_app in Hok. tauto.
Qed.

Lemma checksum_detects_single_byte_corruption_witness :
  let packet := Packet.create (fun _ => Int 0) PING [] false in
  let corrupted := buf_set packet 2 7 in
  bytes_ok packet
  /\ (2 < length packet)%nat
  /\ is_byte 7
  /\ nth_error packet 2 <> Some 7
  /\ Checksum.verify (slice corrupted 0 (blen corrupted - 1))
                     (last corrupted 0) = false.
Proof.
  assert (Hok : bytes_ok (Packet.create (fun _ => Int 0) PING [] false))
    by (apply bytes_okb_spec; reflexivity).
  assert (Hlen : (2 < length (Packet.create (fun _ => Int 0) PING [] false))%nat)
    by (vm_compute; lia).
  assert (Hv : is_byte 7) by (unfold is_byte; lia).
  assert (Hne : nth_error (Packet.create (fun _ => Int 0) PING [] false) 2
                <> Some 7) by (vm_compute; discriminate).
  refine (conj Hok (conj Hlen (conj Hv (conj Hne _)))).
  exact (proj2 checksum_detects_single_byte_corruption
               (fun _ => Int 0) PING [] false 2%nat 7 Hok Hlen Hv Hne).
Defined.

(** ** VarInt and VarLong *)

Lemma land_127_mod v : Z.land v 127 = v mod 128.
Proof. change 127 with (Z.ones 7). rewrite Z.land_ones by lia. reflexivity. Qed.

Lemma small_bits_high value shift i :
  0 <= value < 2 ^ shift -> shift <= i -> Z.testbit value i = false.
Proof.
  intros Hv Hi. destruct (Z.eq_dec value 0) as [-> | Hn].
  - apply Z.bits_0.
  - apply Z.bits_above_log2; [lia |].
    assert (0 <= shift).
    { destruct (Z.ltb_spec shift 0); [| assumption].
      rewrite Z.pow_neg_r in Hv by assumption. lia. }
    assert (Z.log2 value < shift) by (apply Z.log2_lt_pow2; lia). lia.
Qed.

Lemma land_shifted_0 value x shift :
  0 <= shift -> 0 <= value < 2 ^ shift ->
  Z.land (x * 2 ^ shift) value = 0.
Proof.
  intros Hs Hv. apply Z.bits_inj'. intros i Hi.
  rewrite Z.land_spec, Z.bits_0. destruct (Z.ltb_spec i shift).
  - rewrite Z.mul_pow2_bits_low by lia. reflexivity.
  - rewrite (small_bits_high value shift i) by lia. apply andb_false_r.
Qed.

Lemma lor_shiftl_add value x shift :
  0 <= shift -> 0 <= value < 2 ^ shift ->
  Z.lor value (Z.shiftl x shift) = value + x * 2 ^ shift.
Proof.
  intros Hs Hv. rewrite Z.shiftl_mul_pow2 by lia.
  rewrite Z.add_comm, Z.lor_comm.
  rewrite <- Z.lxor_lor by (apply land_shifted_0; assumption).
  symmetry. apply Z.add_nocarry_lxor. apply land_shifted_0; assumption.
Qed.

Lemma lor_128 lo : 0 <= lo < 128 -> Z.lor lo 128 = lo + 128.
Proof.
  intros Hlo. change 128 with (Z.shiftl 1 7) at 1.
  rewrite lor_shiftl_add; change (2 ^ 7) with 128; lia.
Qed.

Lemma bit7_set x : 128 <= x < 256 -> Z.land x 128 <> 0.
Proof.
  intros Hx H.
  assert (Hb : Z.testbit (Z.land x 128) 7 = true).
  { rewrite Z.land_spec. change (Z.testbit 128 7) with true.
    rewrite andb_true_r, Z.testbit_eqb by lia.
    change (2 ^ 7) with 128. apply Z.eqb_eq. lia. }
  rewrite H in Hb. discriminate.
Qed.

Lemma continuation_byte v :
  let byte := Z.lor (Z.land v 127) 128 in
  Z.land byte 127 = v mod 128 /\ Z.land byte 128 <> 0 /\ is_byte byte.
Proof.
  intros byte. subst byte. rewrite (land_127_mod v).
  assert (Hlo : 0 <= v mod 128 < 128) by lia.
  rewrite lor_128 by assumption.
  split; [rewrite land_127_mod; lia |].
  split; [apply bit7_set; lia | unfold is_byte; lia].
Qed.

Lemma final_byte v :
  0 <= v <= 127 -> Z.land v 127 = v /\ Z.land v 128 = 0.
Proof.
  intros Hv. rewrite land_127_mod. rewrite Z.mod_small by lia. split; [reflexivity |].
  apply Z.bits_inj'. intros i Hi. rewrite Z.land_spec, Z.bits_0.
  change 128 with (2 ^ 7). rewrite Z.pow2_bits_eqb by lia.
  destruct (Z.eqb_spec 7 i) as [<- |]; [| apply andb_false_r].
  rewrite Z.testbit_eqb by lia. change (2 ^ 7) with 128. 
  rewrite Z.div_small by lia. reflexivity.
Qed.

(** The loops of VarLong on a non-negative value. *)
Lemma VarLong_loops fuel :
  forall v value shift bytesRead post,
    0 <= v < 2 ^ (7 * (Z.of_nat fuel + 1)) ->
    0 <= shift -> 0 <= value < 2 ^ shift ->
    VarLong.decode_loop (VarLong.encode_loop fuel v ++ post)
                        value shift bytesRead
    = Ok (value + v * 2 ^ shift,
          bytesRead + blen (VarLong.encode_loop fuel v)).
Proof.
  induction fuel as [| fuel IH]; intros v value shift bytesRead post Hv Hs Hval.
  - simpl in Hv. change (2 ^ 7) with 128 in Hv. simpl.
    destruct (final_byte v) as [H1 H2]; [lia |].
    rewrite !H1, H2. simpl. rewrite lor_shiftl_add by assumption.
    reflexivity.
  - simpl VarLong.encode_loop. destruct (Z.ltb_spec 127 v) as [Hbig | Hsmall].
    + destruct (continuation_byte v) as (H1 & H2 & _).
      simpl. rewrite H1. destruct (Z.eqb_spec (Z.land (Z.lor (Z.land v 127) 128) 128) 0); [contradiction |].
      rewrite lor_shiftl_add by assumption.
      assert (Hp : 0 < 2 ^ shift) by (apply Z.pow_pos_nonneg; lia).
      rewrite IH.
      * f_equal. f_equal.
        -- rewrite Z.shiftr_div_pow2 by lia. change (2 ^ 7) with 128.
           rewrite Z.pow_add_r by lia. change (2 ^ 7) with 128. nia.
        -- unfold blen. simpl length. lia.
      * rewrite Z.shiftr_div_pow2 by lia. change (2 ^ 7) with 128.
        replace (7 * (Z.of_nat (S fuel) + 1)) with (7 + 7 * (Z.of_nat fuel + 1)) in Hv by lia.
        rewrite Z.pow_add_r in Hv by lia. change (2 ^ 7) with 128 in Hv. lia.
      * lia.
      * rewrite Z.pow_add_r by lia. change (2 ^ 7) with 128. nia.
    + simpl. destruct (final_byte v) as [H1 H2]; [lia |].
      rewrite !H1, H2. simpl. rewrite lor_shiftl_add by assumption.
    reflexivity.
Qed.

Lemma to_int32_small z : - 2 ^ 31 <= z < 2 ^ 31 -> to_int32 z = z.
Proof.
  intros Hz. unfold to_int32, to_uint32.
  change (2 ^ 31) with 2147483648 in *. change (2 ^ 32) with 4294967296.
  destruct (Z.ltb_spec (z mod 4294967296) 2147483648); lia.
Qed.

Lemma to_uint32_small z : 0 <= z < 2 ^ 32 -> to_uint32 z = z.
Proof. intros Hz. unfold to_uint32. apply Z.mod_small. exact Hz. Qed.

Lemma shiftl_mod32 lo shift :
  0 <= lo -> 0 <= shift -> lo * 2 ^ shift < 2 ^ 31 ->
  Z.shiftl lo (shift mod 32) = lo * 2 ^ shift.
Proof.
  intros Hlo Hs Hb. destruct (Z.eq_dec lo 0) as [-> | Hn].
  - rewrite Z.shiftl_0_l. reflexivity.
  - assert (shift < 31).
    { destruct (Z.ltb_spec shift 31) as [| Hge]; [assumption |].
      assert (2 ^ 31 <= 2 ^ shift) by (apply Z.pow_le_mono_r; lia). nia. }
    rewrite Z.mod_small by lia. apply Z.shiftl_mul_pow2. lia.
Qed.

Lemma lor_scaled_add value x shift :
  0 <= shift -> 0 <= value < 2 ^ shift ->
  Z.lor value (x * 2 ^ shift) = value + x * 2 ^ shift.
Proof.
  intros Hs Hv. rewrite <- lor_shiftl_add by assumption.
  rewrite Z.shiftl_mul_pow2 by lia. reflexivity.
Qed.

Lemma VarInt_step value lo shift :
  0 <= lo -> 0 <= shift -> 0 <= value < 2 ^ shift ->
  value + lo * 2 ^ shift < 2 ^ 31 ->
  to_int32 (Z.lor value (Z.shiftl lo (shift mod 32))) = value + lo * 2 ^ shift.
Proof.
  intros Hlo Hs Hv Hb.
  assert (0 < 2 ^ shift) by (apply Z.pow_pos_nonneg; lia).
  rewrite shiftl_mod32 by nia. rewrite lor_scaled_add by assumption.
  apply to_int32_small. nia.
Qed.

(** The loops of VarInt on a value that fits 31 bits. *)
Lemma VarInt_loops fuel :
  forall v value shift bytesRead post,
    0 <= v < 2 ^ (7 * (Z.of_nat fuel + 1)) ->
    0 <= shift -> 0 <= value < 2 ^ shift ->
    value + v * 2 ^ shift < 2 ^ 31 ->
    VarInt.decode_loop (VarInt.encode_loop fuel v ++ post)
                       value shift bytesRead
    = Ok (value + v * 2 ^ shift,
          bytesRead + blen (VarInt.encode_loop fuel v)).
Proof.
  induction fuel as [| fuel IH];
    intros v value shift bytesRead post Hv Hs Hval Hb.
  - simpl in Hv. change (2 ^ 7) with 128 in Hv. simpl.
    destruct (final_byte v) as [H1 H2]; [lia |].
    rewrite !H1, H2. simpl. rewrite VarInt_step by lia. reflexivity.
  - assert (Hp : 0 < 2 ^ shift) by (apply Z.pow_pos_nonneg; lia).
    simpl VarInt.encode_loop. destruct (Z.ltb_spec 127 v) as [Hbig | Hsmall].
    + destruct (continuation_byte v) as (H1 & H2 & _).
      simpl. rewrite H1.
      destruct (Z.eqb_spec (Z.land (Z.lor (Z.land v 127) 128) 128) 0);
        [contradiction |].
      rewrite VarInt_step by nia.
      rewrite to_uint32_small by (change (2 ^ 32) with 4294967296;
                                  change (2 ^ 31) with 2147483648 in Hb; nia).
      assert (Hsh : Z.shiftr v 7 = v / 128)
        by (rewrite Z.shiftr_div_pow2 by lia; reflexivity).
      rewrite Hsh.
      assert (Hp7 : 2 ^ (shift + 7) = 128 * 2 ^ shift)
        by (rewrite Z.pow_add_r by lia; change (2 ^ 7) with 128; lia).
      rewrite IH.
      * f_equal. f_equal; [rewrite Hp7; nia |].
        unfold blen. simpl length. lia.
      * replace (7 * (Z.of_nat (S fuel) + 1))
          with (7 + 7 * (Z.of_nat fuel + 1)) in Hv by lia.
        rewrite Z.pow_add_r in Hv by lia. change (2 ^ 7) with 128 in Hv. lia.
      * lia.
      * rewrite Hp7. nia.
      * rewrite Hp7. nia.
    + simpl. destruct (final_byte v) as [H1 H2]; [lia |].
      rewrite !H1, H2. simpl. rewrite VarInt_step by lia. reflexivity.
Qed.

Lemma VarInt_round_trip n pre post :
  0 <= n < 2 ^ 31 ->
  VarInt.decode (pre ++ VarInt.encode n ++ post) (blen pre)
  = Ok (n, blen (VarInt.encode n)).
Proof.
  intros Hn. unfold VarInt.decode, VarInt.encode.
  assert (Hp := blen_nonneg pre).
  destruct (Z.ltb_spec (blen pre) 0); [lia |].
  destruct (Z.ltb_spec n 0); [lia |].
  unfold blen at 1. rewrite Nat2Z.id, skipn_app, skipn_all, Nat.sub_diag.
  rewrite skipn_O, app_nil_l.
  assert (Hfuel : 0 <= n < 2 ^ (7 * (Z.of_nat 5 + 1))).
  { change (2 ^ (7 * (Z.of_nat 5 + 1))) with (2 ^ 42).
    assert (2 ^ 31 < 2 ^ 42) by reflexivity. lia. }
  rewrite VarInt_loops; [| exact Hfuel | lia | simpl; lia | lia].
  f_equal. f_equal; lia.
Qed.

Lemma VarLong_round_trip_any n pre post :
  0 <= n ->
  VarLong.decode (pre ++ VarLong.encode n ++ post) (blen pre)
  = Ok (Number_of_BigInt n, blen (VarLong.encode n)).
Proof.
  intros Hn. unfold VarLong.decode, VarLong.encode.
  assert (Hp := blen_nonneg pre).
  destruct (Z.ltb_spec (blen pre) 0); [lia |].
  unfold blen at 1. rewrite Nat2Z.id, skipn_app, skipn_all, Nat.sub_diag.
  rewrite skipn_O, app_nil_l.
  assert (Hfuel : 0 <= n < 2 ^ (7 * (Z.of_nat (Z.to_nat (Z.log2 n)) + 1))).
  { split; [lia |].
    destruct (Z.eq_dec n 0) as [-> | Hnz]; [reflexivity |].
    rewrite Z2Nat.id by apply Z.log2_nonneg.
    assert (Hs := Z.log2_spec n ltac:(lia)).
    assert (0 <= Z.log2 n) by apply Z.log2_nonneg.
    assert (2 ^ Z.succ (Z.log2 n) <= 2 ^ (7 * (Z.log2 n + 1)))
      by (apply Z.pow_le_mono_r; lia).
    lia. }
  rewrite VarLong_loops; [| exact Hfuel | lia | simpl; lia].
  rewrite Z.mul_1_r, Z.add_0_l, Z.add_0_l. reflexivity.
Qed.

Lemma VarLong_round_trip n pre post :
  0 <= n < 2 ^ 53 ->
  VarLong.decode (pre ++ VarLong.encode n ++ post) (blen pre)
  = Ok (Int n, blen (VarLong.encode n)).
Proof.
  intros Hn. unfold VarLong.decode, VarLong.encode.
  assert (Hp := blen_nonneg pre).
  destruct (Z.ltb_spec (blen pre) 0); [lia |].
  unfold blen at 1. rewrite Nat2Z.id, skipn_app, skipn_all, Nat.sub_diag.
  rewrite skipn_O, app_nil_l.
  assert (Hfuel : 0 <= n < 2 ^ (7 * (Z.of_nat (Z.to_nat (Z.log2 n)) + 1))).
  { split; [lia |].
    destruct (Z.eq_dec n 0) as [-> | Hnz]; [reflexivity |].
    rewrite Z2Nat.id by apply Z.log2_nonneg.
    assert (Hs := Z.log2_spec n ltac:(lia)).
    assert (0 <= Z.log2 n) by apply Z.log2_nonneg.
    assert (2 ^ Z.succ (Z.log2 n) <= 2 ^ (7 * (Z.log2 n + 1)))
      by (apply Z.pow_le_mono_r; lia).
    lia. }
  rewrite VarLong_loops; [| exact Hfuel | lia | simpl; lia].
  rewrite Z.mul_1_r, Z.add_0_l, Z.add_0_l.
  rewrite Number_of_BigInt_exact by lia. reflexivity.
Qed.

(** ** Reading what the writer wrote *)

Import ProtocolReader.

Lemma reads_ret {A} (a : A) : reads (ret a) [] a.
Proof. intros pre post. unfold ret. f_equal. f_equal. change (blen []) with 0. lia. Qed.

Lemma reads_bind {A B} (m : M A) (k : A -> M B) b1 b2 a c :
  reads m b1 a -> reads (k a) b2 c -> reads (bind m k) (b1 ++ b2) c.
Proof.
  intros H1 H2 pre post. unfold bind.
  rewrite <- app_assoc. rewrite H1.
  specialize (H2 (pre ++ b1) post). rewrite blen_app in H2.
  rewrite <- app_assoc in H2. rewrite H2.
  f_equal. f_equal. rewrite blen_app. lia.
Qed.

Lemma reads_eq {A} (m : M A) b b' a : reads m b a -> b = b' -> reads m b' a.
Proof. intros H <-. exact H. Qed.

Lemma buf_get_mid pre b post : buf_get (pre ++ b :: post) (blen pre) = Some b.
Proof.
  unfold buf_get. assert (Hp := blen_nonneg pre).
  destruct (Z.ltb_spec (blen pre) 0); [lia |].
  unfold blen. rewrite Nat2Z.id. rewrite nth_error_app2 by lia.
  rewrite Nat.sub_diag. reflexivity.
Qed.

Lemma reads_readByte b : reads readByte [b] (Some b).
Proof.
  intros pre post. unfold readByte, hasBytes. simpl app.
  rewrite blen_app. assert (Hp := blen_nonneg post).
  change (blen (b :: post)) with (Z.of_nat (S (length post))).
  destruct (Z.leb_spec (blen pre + 1) (blen pre + Z.of_nat (S (length post))));
    [| lia].
  simpl negb. cbv iota. rewrite buf_get_mid. reflexivity.
Qed.

Lemma reads_readVarInt n : 0 <= n < 2 ^ 31 -> reads readVarInt (VarInt.encode n) n.
Proof.
  intros Hn pre post. unfold readVarInt.
  rewrite VarInt_round_trip by assumption. reflexivity.
Qed.

Lemma reads_readVarLong_any n :
  0 <= n ->
  reads readVarLong (VarLong.encode n) (Number_of_BigInt n).
Proof.
  intros Hn pre post. unfold readVarLong.
  rewrite VarLong_round_trip_any by assumption. reflexivity.
Qed.

Lemma reads_readVarLong n :
  0 <= n < 2 ^ 53 -> reads readVarLong (VarLong.encode n) (Int n).
Proof.
  intros Hn pre post. unfold readVarLong.
  rewrite VarLong_round_trip by assumption. reflexivity.
Qed.

Lemma reads_read bytes : reads (read (blen bytes)) bytes bytes.
Proof.
  intros pre post. unfold read, hasBytes. rewrite !blen_app.
  assert (Hp := blen_nonneg post).
  destruct (Z.leb_spec (blen pre + blen bytes)
                       (blen pre + (blen bytes + blen post))); [| lia].
  simpl negb. cbv iota.
  rewrite (slice_at _ pre bytes post) by reflexivity. reflexivity.
Qed.

Lemma reads_readBE bytes :
  reads (readBE (blen bytes)) bytes (of_be bytes 0).
Proof.
  intros pre post. unfold readBE, read_be. rewrite !blen_app.
  assert (Hp := blen_nonneg post). assert (Hq := blen_nonneg pre).
  destruct (Z.leb_spec 0 (blen pre)); [| lia].
  destruct (Z.leb_spec (blen pre + blen bytes)
                       (blen pre + (blen bytes + blen post))); [| lia].
  simpl andb. cbv iota.
  rewrite (slice_at _ pre bytes post) by reflexivity. reflexivity.
Qed.

Lemma of_be_be16_mod z : of_be (be16 z) 0 = z mod 2 ^ 16.
Proof.
  unfold be16, of_be. rewrite !land_255_mod, Z.shiftr_div_pow2 by lia.
  change (2 ^ 8) with 256. change (2 ^ 16) with 65536. lia.
Qed.

Lemma of_be_be32_mod z : of_be (be32 z) 0 = z mod 2 ^ 32.
Proof.
  unfold be32, of_be. rewrite !land_255_mod, !Z.shiftr_div_pow2 by lia.
  change (2 ^ 8) with 256. change (2 ^ 16) with 65536.
  change (2 ^ 24) with 16777216. change (2 ^ 32) with 4294967296. lia.
Qed.

Lemma reads_map {A B} (m : M A) (f : A -> B) b a c :
  reads m b a -> f a = c -> reads (bind m (fun x => ret (f x))) b c.
Proof.
  intros H <-. eapply reads_eq.
  - eapply reads_bind; [exact H | apply reads_ret].
  - apply app_nil_r.
Qed.

Lemma signed_16 z : -32768 <= z <= 32767 -> signed 16 (z mod 2 ^ 16) = z.
Proof.
  intros Hz. unfold signed. change (2 ^ (16 - 1)) with 32768.
  change (2 ^ 16) with 65536.
  destruct (Z.ltb_spec (z mod 65536) 32768); lia.
Qed.

Lemma signed_32 z :
  -2147483648 <= z <= 2147483647 -> signed 32 (z mod 2 ^ 32) = z.
Proof.
  intros Hz. unfold signed. change (2 ^ (32 - 1)) with 2147483648.
  change (2 ^ 32) with 4294967296.
  destruct (Z.ltb_spec (z mod 4294967296) 2147483648); lia.
Qed.

Lemma reads_readShort z :
  -32768 <= z <= 32767 -> reads readShort (ProtocolWriter.writeShort z) z.
Proof.
  intros Hz. unfold readShort, ProtocolWriter.writeShort.
  apply (reads_map (readBE 2) (signed 16) (be16 z) (of_be (be16 z) 0)).
  - apply (reads_readBE (be16 z)).
  - rewrite of_be_be16_mod. apply signed_16. exact Hz.
Qed.

Lemma reads_readInt z :
  -2147483648 <= z <= 2147483647 ->
  reads readInt (ProtocolWriter.writeInt z) z.
Proof.
  intros Hz. unfold readInt, ProtocolWriter.writeInt.
  apply (reads_map (readBE 4) (signed 32) (be32 z) (of_be (be32 z) 0)).
  - apply (reads_readBE (be32 z)).
  - rewrite of_be_be32_mod. apply signed_32. exact Hz.
Qed.

(** *** Strings *)

Lemma string_strong_ind (P : string -> Prop) :
  (forall s, (forall t, (String.length t < String.length s)%nat -> P t) ->
             P s) ->
  forall s, P s.
Proof.
  intros H s.
  assert (Hn : forall n t, (String.length t < n)%nat -> P t).
  { induction n as [| n IH]; intros t Ht; [lia |].
    apply H. intros u Hu. apply IH. lia. }
  apply (Hn (S (String.length s))). lia.
Qed.

Lemma byte_of_ascii_range c : 0 <= byte_of_ascii c < 256.
Proof.
  unfold byte_of_ascii. pose proof (N_ascii_bounded c). lia.
Qed.

Lemma ascii_of_byte_of_ascii c : ascii_of_byte (byte_of_ascii c) = c.
Proof.
  unfold ascii_of_byte, byte_of_ascii. rewrite N2Z.id.
  apply ascii_N_embedding.
Qed.

Lemma string_of_list_raw s : string_of_list (raw_bytes s) = s.
Proof.
  induction s as [| c s IH]; simpl; [reflexivity |].
  rewrite ascii_of_byte_of_ascii, IH. reflexivity.
Qed.

Lemma raw_bytes_ok s : bytes_ok (raw_bytes s).
Proof.
  induction s as [| c s IH]; simpl; constructor;
    [apply byte_of_ascii_range | exact IH].
Qed.

Lemma length_raw_bytes s : length (raw_bytes s) = String.length s.
Proof. induction s as [| c s IH]; simpl; [| rewrite IH]; reflexivity. Qed.

Lemma bytes_of_string_three c1 c2 c3 r :
  bytes_of_string (String c1 (String c2 (String c3 r)))
  = if surrogate_bytes (byte_of_ascii c1) (byte_of_ascii c2)
                       (byte_of_ascii c3)
    then replacement ++ bytes_of_string r
    else byte_of_ascii c1 :: bytes_of_string (String c2 (String c3 r)).
Proof. reflexivity. Qed.

Lemma bytes_of_string_two c1 c2 :
  bytes_of_string (String c1 (String c2 EmptyString))
  = [byte_of_ascii c1; byte_of_ascii c2].
Proof. reflexivity. Qed.

(** Only the byte ED starts the three bytes of a surrogate. *)
Lemma bytes_of_string_copy c rest :
  byte_of_ascii c <> 0xED ->
  bytes_of_string (String c rest) = byte_of_ascii c :: bytes_of_string rest.
Proof.
  intros Hc. destruct rest as [| c2 [| c3 rest']]; try reflexivity.
  rewrite bytes_of_string_three. unfold surrogate_bytes.
  destruct (Z.eqb_spec (byte_of_ascii c) 0xED); [contradiction |].
  reflexivity.
Qed.

Lemma bytes_of_string_copy_low c c2 rest :
  byte_of_ascii c2 <= 0x9F ->
  bytes_of_string (String c (String c2 rest))
  = byte_of_ascii c :: bytes_of_string (String c2 rest).
Proof.
  intros Hc. destruct rest as [| c3 rest']; try reflexivity.
  rewrite bytes_of_string_three. unfold surrogate_bytes.
  destruct (Z.leb_spec 0xA0 (byte_of_ascii c2)); [lia |].
  rewrite andb_false_r. reflexivity.
Qed.

Lemma blen_bytes_of_string s :
  blen (bytes_of_string s) = Z.of_nat (String.length s).
Proof.
  unfold blen. f_equal. induction s as [s IH] using string_strong_ind.
  destruct s as [| c1 [| c2 [| c3 r]]]; try reflexivity.
  rewrite bytes_of_string_three.
  destruct (surrogate_bytes _ _ _).
  - unfold replacement. cbn [app length String.length].
    rewrite (IH r) by (simpl; lia). reflexivity.
  - cbn [length]. rewrite (IH (String c2 (String c3 r))) by (simpl; lia).
    reflexivity.
Qed.

Lemma bytes_of_string_ok s : bytes_ok (bytes_of_string s).
Proof.
  induction s as [s IH] using string_strong_ind.
  destruct s as [| c1 [| c2 [| c3 r]]].
  - constructor.
  - constructor; [apply byte_of_ascii_range | constructor].
  - rewrite bytes_of_string_two.
    constructor; [apply byte_of_ascii_range |].
    constructor; [apply byte_of_ascii_range | constructor].
  - rewrite bytes_of_string_three.
    destruct (surrogate_bytes _ _ _).
    + unfold replacement. cbn [app].
      repeat (constructor; [unfold is_byte; lia |]).
      apply IH. simpl. lia.
    + constructor; [apply byte_of_ascii_range |].
      apply (IH (String c2 (String c3 r))). simpl. lia.
Qed.

Lemma boundaries_default b :
  b <> 0xE0 -> b <> 0xF0 -> b <> 0xED -> b <> 0xF4 ->
  lower_boundary b = 0x80 /\ upper_boundary b = 0xBF.
Proof.
  intros H1 H2 H3 H4. unfold lower_boundary, upper_boundary.
  destruct (Z.eqb_spec b 0xE0); [contradiction |].
  destruct (Z.eqb_spec b 0xF0); [contradiction |].
  destruct (Z.eqb_spec b 0xED); [contradiction |].
  destruct (Z.eqb_spec b 0xF4); [contradiction |].
  split; reflexivity.
Qed.

Lemma boundaries_range b :
  0x80 <= lower_boundary b /\ upper_boundary b <= 0xBF.
Proof.
  unfold lower_boundary, upper_boundary.
  destruct (b =? 0xE0), (b =? 0xF0), (b =? 0xED), (b =? 0xF4); lia.
Qed.

Lemma utf8_decode_ascii b rest :
  0 <= b <= 0x7F ->
  utf8_decode None (b :: rest) = b :: utf8_decode None rest.
Proof.
  intros Hb. cbn [utf8_decode utf8_step]. unfold utf8_start.
  destruct (Z.leb_spec 0 b); [| lia].
  destruct (Z.leb_spec b 0x7F); [| lia]. reflexivity.
Qed.

Lemma utf8_decode_lead b rest :
  0xC2 <= b <= 0xF4 ->
  utf8_decode None (b :: rest)
  = utf8_decode
      (Some ([b],
             if b <=? 0xDF then 1%nat else if b <=? 0xEF then 2%nat
                                           else 3%nat,
             if b <=? 0xDF then 0x80 else lower_boundary b,
             if b <=? 0xDF then 0xBF else upper_boundary b))
      rest.
Proof.
  intros Hb. cbn [utf8_decode utf8_step]. unfold utf8_start.
  destruct (Z.leb_spec b 0x7F); [lia |]. rewrite andb_false_r.
  destruct (Z.leb_spec 0xC2 b); [| lia].
  destruct (Z.leb_spec b 0xDF); cbn [andb]; [reflexivity |].
  destruct (Z.leb_spec 0xE0 b); [| lia].
  destruct (Z.leb_spec b 0xEF); cbn [andb]; [reflexivity |].
  destruct (Z.leb_spec 0xF0 b); [| lia].
  destruct (Z.leb_spec b 0xF4); [| lia]. reflexivity.
Qed.

Lemma utf8_decode_last seen lower upper b rest :
  lower <= b <= upper ->
  utf8_decode (Some (seen, 1%nat, lower, upper)) (b :: rest)
  = (seen ++ [b]) ++ utf8_decode None rest.
Proof.
  intros Hb. cbn [utf8_decode utf8_step].
  destruct (Z.leb_spec lower b); [| lia].
  destruct (Z.leb_spec b upper); [| lia]. reflexivity.
Qed.

Lemma utf8_decode_more seen n lower upper b rest :
  lower <= b <= upper ->
  utf8_decode (Some (seen, S (S n), lower, upper)) (b :: rest)
  = utf8_decode (Some (seen ++ [b], S n, 0x80, 0xBF)) rest.
Proof.
  intros Hb. cbn [utf8_decode utf8_step].
  destruct (Z.leb_spec lower b); [| lia].
  destruct (Z.leb_spec b upper); [| lia]. reflexivity.
Qed.

(** On well-formed UTF-8 [Buffer.from] writes the bytes of the string and
    the decoder gives them back. *)
Lemma utf8_ok_bytes s :
  utf8_ok s = true ->
  bytes_of_string s = raw_bytes s
  /\ forall tail,
       utf8_decode None (raw_bytes s ++ tail)
       = raw_bytes s ++ utf8_decode None tail.
Proof.
  induction s as [s IH] using string_strong_ind. intros Hok.
  destruct s as [| c1 r1]; [split; reflexivity |].
  cbn [utf8_ok] in Hok. cbv zeta in Hok.
  pose proof (byte_of_ascii_range c1) as Hb1.
  set (b1 := byte_of_ascii c1) in *.
  destruct (Z.leb_spec b1 0x7F) as [Hascii | Hhigh].
  { destruct (IH r1 ltac:(simpl; lia) Hok) as [IHb IHd].
    split.
    - rewrite bytes_of_string_copy by (fold b1; lia).
      rewrite IHb. reflexivity.
    - intros tail. cbn [raw_bytes app]. fold b1.
      rewrite utf8_decode_ascii by lia. rewrite IHd. reflexivity. }
  destruct r1 as [| c2 r2]; [discriminate |].
  pose proof (byte_of_ascii_range c2) as Hb2.
  set (b2 := byte_of_ascii c2) in *.
  apply andb_true_iff in Hok. destruct Hok as [Hrange Hok].
  apply andb_true_iff in Hrange. destruct Hrange as [Hlo Hhi].
  apply Z.leb_le in Hlo, Hhi.
  pose proof (boundaries_range b1) as [Hlb Hub].
  assert (Hcopy1 : bytes_of_string (String c1 (String c2 r2))
                   = b1 :: bytes_of_string (String c2 r2)).
  { destruct (Z.eq_dec b1 0xED) as [HED | HED].
    - apply bytes_of_string_copy_low. fold b2.
      unfold upper_boundary in Hhi. rewrite HED in Hhi. simpl in Hhi. lia.
    - apply bytes_of_string_copy. exact HED. }
  assert (Hcopy2 : forall r, bytes_of_string (String c2 r)
                             = b2 :: bytes_of_string r).
  { intros r. apply bytes_of_string_copy. fold b2. lia. }
  assert (Hlead : 0xC2 <= b1 <= 0xF4).
  { destruct (Z.leb_spec 0xC2 b1) as [HC2 | HC2]; cbn [andb] in Hok.
    - destruct (Z.leb_spec b1 0xDF); [lia |]. cbn [andb] in Hok.
      destruct r2 as [| c3 r3]; [discriminate |].
      apply andb_true_iff in Hok. destruct Hok as [_ Hok].
      destruct ((0xE0 <=? b1) && (b1 <=? 0xEF)) eqn:HE.
      + apply andb_true_iff in HE. destruct HE as [_ HE].
        apply Z.leb_le in HE. lia.
      + destruct r3 as [| c4 r4]; [discriminate |].
        apply andb_true_iff in Hok. destruct Hok as [Hok _].
        apply andb_true_iff in Hok. destruct Hok as [_ Hok].
        apply Z.leb_le in Hok. lia.
    - destruct r2 as [| c3 r3]; [discriminate |].
      apply andb_true_iff in Hok. destruct Hok as [_ Hok].
      destruct (Z.leb_spec 0xE0 b1); [lia |]. cbn [andb] in Hok.
      destruct r3 as [| c4 r4]; [discriminate |].
      apply andb_true_iff in Hok. destruct Hok as [Hok _].
      apply andb_true_iff in Hok. destruct Hok as [Hok _].
      apply andb_true_iff in Hok. destruct Hok as [_ Hok].
      apply Z.leb_le in Hok. lia. }
  destruct (Z.leb_spec 0xC2 b1) as [_ |]; [| lia]. cbn [andb] in Hok.
  destruct (Z.leb_spec b1 0xDF) as [HDF | HDF].
  { destruct (IH r2 ltac:(simpl; lia) Hok) as [IHb IHd].
    destruct (boundaries_default b1) as [Hl Hu]; try lia.
    rewrite Hl in Hlo. rewrite Hu in Hhi.
    split.
    - rewrite Hcopy1, Hcopy2, IHb. reflexivity.
    - intros tail. cbn [raw_bytes app]. fold b1. fold b2.
      rewrite utf8_decode_lead by lia.
      destruct (Z.leb_spec b1 0xDF); [| lia].
      rewrite utf8_decode_last by lia. rewrite IHd. reflexivity. }
  destruct r2 as [| c3 r3]; [discriminate |].
  pose proof (byte_of_ascii_range c3) as Hb3.
  set (b3 := byte_of_ascii c3) in *.
  apply andb_true_iff in Hok. destruct Hok as [Hc3 Hok].
  unfold continuation in Hc3. apply andb_true_iff in Hc3.
  destruct Hc3 as [Hc3l Hc3h]. apply Z.leb_le in Hc3l, Hc3h.
  assert (Hcopy3 : forall r, bytes_of_string (String c3 r)
                             = b3 :: bytes_of_string r).
  { intros r. apply bytes_of_string_copy. fold b3. lia. }
  destruct (Z.leb_spec 0xE0 b1) as [HE0 |]; [| lia].
  destruct (Z.leb_spec b1 0xEF) as [HEF | HEF]; cbn [andb] in Hok.
  { destruct (IH r3 ltac:(simpl; lia) Hok) as [IHb IHd].
    split.
    - rewrite Hcopy1, Hcopy2, Hcopy3, IHb. reflexivity.
    - intros tail. cbn [raw_bytes app]. fold b1. fold b2. fold b3.
      rewrite utf8_decode_lead by lia.
      destruct (Z.leb_spec b1 0xDF); [lia |].
      destruct (Z.leb_spec b1 0xEF); [| lia].
      rewrite utf8_decode_more by lia.
      rewrite utf8_decode_last by lia. rewrite IHd. reflexivity. }
  destruct r3 as [| c4 r4]; [discriminate |].
  pose proof (byte_of_ascii_range c4) as Hb4.
  set (b4 := byte_of_ascii c4) in *.
  apply andb_true_iff in Hok. destruct Hok as [Hok Hrest].
  apply andb_true_iff in Hok. destruct Hok as [Hok HF4].
  apply andb_true_iff in Hok. destruct Hok as [Hc4 HF0].
  unfold continuation in Hc4. apply andb_true_iff in Hc4.
  destruct Hc4 as [Hc4l Hc4h]. apply Z.leb_le in Hc4l, Hc4h.
  assert (Hcopy4 : forall r, bytes_of_string (String c4 r)
                             = b4 :: bytes_of_string r).
  { intros r. apply bytes_of_string_copy. fold b4. lia. }
  destruct (IH r4 ltac:(simpl; lia) Hrest) as [IHb IHd].
  split.
  - rewrite Hcopy1, Hcopy2, Hcopy3, Hcopy4, IHb. reflexivity.
  - intros tail. cbn [raw_bytes app]. fold b1. fold b2. fold b3. fold b4.
    rewrite utf8_decode_lead by lia.
    destruct (Z.leb_spec b1 0xDF); [lia |].
    destruct (Z.leb_spec b1 0xEF); [lia |].
    rewrite utf8_decode_more by lia.
    rewrite utf8_decode_more by lia.
    rewrite utf8_decode_last by lia. rewrite IHd. reflexivity.
Qed.

Lemma string_of_bytes_of_string s :
  utf8_ok s = true -> string_of_bytes (bytes_of_string s) = s.
Proof.
  intros Hok. destruct (utf8_ok_bytes s Hok) as [Hb Hd].
  unfold string_of_bytes. rewrite Hb.
  rewrite <- (app_nil_r (raw_bytes s)), Hd. cbn [utf8_decode].
  rewrite app_nil_r. apply string_of_list_raw.
Qed.

Lemma key_ok_spec key :
  key_ok key = true ->
  String.eqb key "__proto__" = false
  /\ utf8_ok key = true
  /\ Z.of_nat (String.length key) < 2 ^ 31.
Proof.
  unfold key_ok. intros H. apply andb_true_iff in H. destruct H as [H Hl].
  apply andb_true_iff in H. destruct H as [Hp Hu].
  apply negb_true_iff in Hp. apply Z.ltb_lt in Hl. auto.
Qed.

Lemma toString_mid pre bytes post :
  toString (pre ++ bytes ++ post) (blen pre) (blen pre + blen bytes)
  = string_of_bytes bytes.
Proof.
  unfold toString. assert (Hp := blen_nonneg pre).
  assert (Hb := blen_nonneg bytes). assert (Hq := blen_nonneg post).
  rewrite !blen_app. rewrite Z.max_l by lia. rewrite Z.min_l by lia.
  replace (blen pre + blen bytes - blen pre) with (blen bytes) by lia.
  unfold blen. rewrite !Nat2Z.id.
  rewrite skipn_app, skipn_all, Nat.sub_diag, skipn_O, app_nil_l.
  rewrite firstn_app, firstn_all, Nat.sub_diag, firstn_O, app_nil_r.
  reflexivity.
Qed.

Lemma reads_readString s :
  utf8_ok s = true ->
  Z.of_nat (String.length s) < 2 ^ 31 ->
  reads readString (ProtocolWriter.writeString s) s.
Proof.
  intros Hok Hs. unfold readString, ProtocolWriter.writeString,
    ProtocolWriter.writeVarInt.
  assert (Hl := blen_bytes_of_string s).
  eapply reads_bind.
  - apply reads_readVarInt. lia.
  - destruct (Z.eqb_spec (blen (bytes_of_string s)) 0) as [H0 | Hn].
    + assert (s = EmptyString) as ->.
      { rewrite H0 in Hl. destruct s; [reflexivity |].
        simpl String.length in Hl. lia. }
      apply reads_ret.
    + intros pre post.
      rewrite toString_mid, string_of_bytes_of_string by exact Hok.
      reflexivity.
Qed.

Lemma reads_readBytes b :
  blen b < 2 ^ 31 -> reads readBytes (ProtocolWriter.writeBytes b) b.
Proof.
  intros Hb. unfold readBytes, ProtocolWriter.writeBytes,
    ProtocolWriter.writeVarInt.
  assert (Hl := blen_nonneg b).
  eapply reads_bind.
  - apply reads_readVarInt. lia.
  - destruct (Z.eqb_spec (blen b) 0) as [H0 | Hn].
    + assert (b = []) as -> by (destruct b; [reflexivity | unfold blen in H0; simpl in H0; lia]).
      apply reads_ret.
    + apply reads_read.
Qed.

Lemma number_eqb_eq a b : number_eqb a b = true -> a = b.
Proof.
  destruct a, b; simpl; intros H; try discriminate;
    apply Z.eqb_eq in H; congruence.
Qed.

Lemma encode_range f x :
  std_format f ->
  0 <= IEEE.encode f x < 2 ^ (IEEE.ebits f + IEEE.mbits f + 1).
Proof.
  intros Hf.
  destruct (std_format_facts f Hf) as (He & Hm & Hemin & Hspan & Hmax).
  assert (Hcap : 0 <= IEEE.emax_field f * 2 ^ IEEE.mbits f
                 < 2 ^ (IEEE.ebits f + IEEE.mbits f)).
  { destruct Hf as [-> | ->]; vm_compute; split; congruence. }
  assert (Htop : 2 ^ (IEEE.ebits f + IEEE.mbits f + 1)
                 = 2 * 2 ^ (IEEE.ebits f + IEEE.mbits f)).
  { rewrite Z.pow_add_r by lia. lia. }
  assert (Hsign : forall s, IEEE.sign_bit f s = 0
                            \/ IEEE.sign_bit f s = 2 ^ (IEEE.ebits f + IEEE.mbits f)).
  { intros []; simpl; auto. }
  destruct x as [s m e | s |].
  - unfold IEEE.encode. destruct (Z.leb_spec m 0).
    + destruct (Hsign s) as [-> | ->]; lia.
    + set (q := Z.max (Z.log2 m + e - IEEE.mbits f) (IEEE.emin f)).
      set (M := if q <=? e then _ else _).
      assert (HM : 0 <= M).
      { subst M. destruct (Z.leb_spec q e).
        - apply Z.mul_nonneg_nonneg; [lia | apply Z.pow_nonneg; lia].
        - assert (0 <= m / 2 ^ (q - e))
            by (apply Z.div_pos; [lia | apply Z.pow_pos_nonneg; lia]).
          destruct ((2 ^ (q - e - 1) <? m mod 2 ^ (q - e))
                    || (m mod 2 ^ (q - e) =? 2 ^ (q - e - 1))
                       && Z.odd (m / 2 ^ (q - e))); lia. }
      assert (0 <= (q - IEEE.emin f) * 2 ^ IEEE.mbits f).
      { apply Z.mul_nonneg_nonneg; [lia | apply Z.pow_nonneg; lia]. }
      destruct (Hsign s) as [-> | ->]; lia.
  - simpl. destruct (Hsign s) as [-> | ->]; lia.
  - destruct Hf as [-> | ->]; vm_compute; split; congruence.
Qed.

Lemma reads_readFloat T n :
  f32_exact n = true ->
  reads readFloat (ProtocolWriter.writeFloat T (VNum n)) n.
Proof.
  intros Hn. unfold readFloat, ProtocolWriter.writeFloat.
  change (ProtocolWriter.ToNumber T (VNum n)) with n.
  set (w := IEEE.encode IEEE.binary32 (fp_of_number n)).
  apply (reads_map (readBE 4)
                   (fun w => number_of_fp (IEEE.decode IEEE.binary32 w))
                   (be32 w) (of_be (be32 w) 0)).
  - apply (reads_readBE (be32 w)).
  - rewrite of_be_be32_mod.
    assert (Hw : 0 <= w < 2 ^ 32)
      by (apply (encode_range IEEE.binary32); left; reflexivity).
    rewrite Z.mod_small by exact Hw.
    apply number_eqb_eq. exact Hn.
Qed.

Ltac writer_cbn :=
  cbn [ProtocolWriter.writeValue ProtocolWriter.writeByte
       ProtocolWriter.writeBool app length].

Lemma writeValue_nonempty T v :
  (1 <= length (ProtocolWriter.writeValue T v))%nat.
Proof.
  destruct v as [| | b | [z | w] | s | b | l | o]; writer_cbn; try lia.
  - destruct ((2147483647 <? z) || (z <? -2147483648)); [writer_cbn; lia |].
    destruct ((-128 <=? z) && (z <=? 127)); [writer_cbn; lia |].
    destruct ((-32768 <=? z) && (z <=? 32767)); writer_cbn; lia.
  - destruct (obj_defined o "x" && obj_defined o "y" && obj_defined o "z");
      [writer_cbn; lia |].
    destruct (obj_defined o "x" && obj_defined o "y"); writer_cbn; lia.
Qed.

Lemma readArray_loop_done rv fuel i length arr :
  length <= i -> readArray_loop rv fuel i length arr = ret arr.
Proof.
  intros H. destruct fuel; simpl; destruct (Z.ltb_spec i length); try lia;
    reflexivity.
Qed.

Lemma readArray_loop_step rv fuel i length arr :
  i < length ->
  readArray_loop rv (S fuel) i length arr
  = bind rv (fun item =>
               readArray_loop rv fuel (i + 1) length (arr ++ [item])).
Proof.
  intros H. simpl. destruct (Z.ltb_spec i length); [reflexivity | lia].
Qed.

Lemma readMap_loop_done rv fuel i length map :
  length <= i -> readMap_loop rv fuel i length map = ret map.
Proof.
  intros H. destruct fuel; simpl; destruct (Z.ltb_spec i length); try lia;
    reflexivity.
Qed.

Lemma readMap_loop_step rv fuel i length map :
  i < length ->
  readMap_loop rv (S fuel) i length map
  = bind readString (fun key =>
      bind rv (fun item =>
        readMap_loop rv fuel (i + 1) length (obj_set map key item))).
Proof.
  intros H. simpl. destruct (Z.ltb_spec i length); [reflexivity | lia].
Qed.

Lemma reads_readArray_loop T (rv : M value) l :
  Forall (fun v => reads rv (ProtocolWriter.writeValue T v) v) l ->
  forall fuel i arr,
    (length l <= fuel)%nat ->
    reads (readArray_loop rv fuel i (i + Z.of_nat (length l)) arr)
          (flat_map (ProtocolWriter.writeValue T) l) (arr ++ l).
Proof.
  induction 1 as [| v l Hv Hl IH]; intros fuel i arr Hfuel.
  - rewrite readArray_loop_done by (simpl length; lia).
    rewrite app_nil_r. apply reads_ret.
  - destruct fuel as [| fuel]; [simpl in Hfuel; lia |].
    rewrite readArray_loop_step by (simpl length; lia).
    change (flat_map (ProtocolWriter.writeValue T) (v :: l))
      with (ProtocolWriter.writeValue T v
              ++ flat_map (ProtocolWriter.writeValue T) l).
    eapply reads_bind; [exact Hv |].
    replace (i + Z.of_nat (length (v :: l)))
      with (i + 1 + Z.of_nat (length l)) by (simpl length; lia).
    replace (arr ++ v :: l) with ((arr ++ [v]) ++ l)
      by (rewrite <- app_assoc; reflexivity).
    apply IH. simpl in Hfuel. lia.
Qed.

Lemma existsb_eqb_in k (keys : list string) :
  existsb (String.eqb k) keys = false -> ~ In k keys.
Proof.
  intros H Hin. assert (existsb (String.eqb k) keys = true).
  { apply existsb_exists. exists k. split; [assumption | apply String.eqb_refl]. }
  congruence.
Qed.

Lemma keys_distinct_fresh acc k v rest :
  keys_distinct (acc ++ (k, v) :: rest) = true -> obj_get acc k = None.
Proof.
  induction acc as [| [a x] acc IH]; intros H; simpl in *; [reflexivity |].
  apply andb_true_iff in H. destruct H as [Ha Hd].
  apply negb_true_iff in Ha. apply existsb_eqb_in in Ha.
  destruct (String.eqb_spec a k) as [-> | Hne].
  - exfalso. apply Ha. rewrite map_app. apply in_or_app. right. left.
    reflexivity.
  - apply IH. exact Hd.
Qed.

Lemma obj_set_fresh acc k v :
  String.eqb k "__proto__" = false -> obj_get acc k = None ->
  obj_set acc k v = acc ++ [(k, v)].
Proof. intros Hp Hg. unfold obj_set. rewrite Hp, Hg. reflexivity. Qed.

Lemma reads_readMap_loop T (rv : M value) l :
  Forall (fun kv => key_ok (fst kv) = true
                    /\ reads rv (ProtocolWriter.writeValue T (snd kv)) (snd kv))
         l ->
  forall fuel i acc,
    (length l <= fuel)%nat ->
    keys_distinct (acc ++ l) = true ->
    reads (readMap_loop rv fuel i (i + Z.of_nat (length l)) acc)
          (flat_map (entry_bytes T) l) (acc ++ l).
Proof.
  induction 1 as [| [k v] l [Hk Hv] Hl IH]; intros fuel i acc Hfuel Hd.
  - rewrite readMap_loop_done by (simpl length; lia).
    rewrite app_nil_r. apply reads_ret.
  - destruct fuel as [| fuel]; [simpl in Hfuel; lia |].
    rewrite readMap_loop_step by (simpl length; lia).
    simpl fst in Hk. simpl snd in Hv.
    apply key_ok_spec in Hk. destruct Hk as (Hp & Hu & Hlen).
    change (flat_map (entry_bytes T) ((k, v) :: l))
      with ((ProtocolWriter.writeString k ++ ProtocolWriter.writeValue T v)
              ++ flat_map (entry_bytes T) l).
    rewrite <- app_assoc.
    eapply reads_bind; [apply reads_readString; [exact Hu | exact Hlen] |].
    eapply reads_bind; [exact Hv |].
    rewrite obj_set_fresh;
      [| exact Hp | eapply keys_distinct_fresh; exact Hd].
    replace (i + Z.of_nat (length ((k, v) :: l)))
      with (i + 1 + Z.of_nat (length l)) by (simpl length; lia).
    replace (acc ++ (k, v) :: l) with ((acc ++ [(k, v)]) ++ l)
      by (rewrite <- app_assoc; reflexivity).
    apply IH; [simpl in Hfuel; lia |].
    rewrite <- app_assoc. exact Hd.
Qed.

Lemma length_flat_map_ge {A} (f : A -> list Z) l :
  (forall a, (1 <= length (f a))%nat) ->
  (length l <= length (flat_map f l))%nat.
Proof.
  intros Hf. induction l as [| a l IH]; simpl; [lia |].
  rewrite length_app. specialize (Hf a). lia.
Qed.

Lemma length_flat_map_in {A} (f : A -> list Z) l a :
  In a l -> (length (f a) <= length (flat_map f l))%nat.
Proof.
  induction l as [| b l IH]; intros Hin; [destruct Hin |].
  simpl. rewrite length_app. destruct Hin as [-> | Hin]; [lia |].
  specialize (IH Hin). lia.
Qed.

Lemma entry_bytes_nonempty T kv : (1 <= length (entry_bytes T kv))%nat.
Proof.
  destruct kv as [k v]. unfold entry_bytes. rewrite length_app.
  pose proof (writeValue_nonempty T v). lia.
Qed.

(** Reading a value starts with its type byte. *)
Lemma reads_tagged fuel tag bytes v :
  reads (readValue_switch (readValue fuel) fuel (Some tag)) bytes v ->
  reads (readValue (S fuel)) ([tag] ++ bytes) v.
Proof.
  intros H. change (readValue (S fuel))
    with (bind readByte (readValue_switch (readValue fuel) fuel)).
  eapply reads_bind; [apply reads_readByte | exact H].
Qed.

Lemma reads_then_ret {A B} (m : M A) (f : A -> B) b a :
  reads m b a -> reads (bind m (fun x => ret (f x))) b (f a).
Proof. intros H. eapply reads_map; [exact H | reflexivity]. Qed.

Lemma int_ok_spec z :
  int_ok z = true ->
  ~ (-128 <= z < 0) /\ -2147483648 <= z /\ Number_of_BigInt z = Int z.
Proof.
  unfold int_ok. intros H. apply andb_true_iff in H. destruct H as [H H3].
  apply andb_true_iff in H. destruct H as [H1 H2].
  apply negb_true_iff in H1. apply andb_false_iff in H1.
  apply number_eqb_eq in H3. split; [lia |]. split; [lia | exact H3].
Qed.

Lemma writeValue_Int T z :
  ProtocolWriter.writeValue T (VNum (Int z))
  = if (2147483647 <? z) || (z <? -2147483648)
    then [TYPE.LONG] ++ ProtocolWriter.writeVarLong z
    else if (-128 <=? z) && (z <=? 127)
    then [TYPE.BYTE] ++ ProtocolWriter.writeByte z
    else if (-32768 <=? z) && (z <=? 32767)
    then [TYPE.SHORT] ++ ProtocolWriter.writeShort z
    else [TYPE.INT] ++ ProtocolWriter.writeInt z.
Proof. reflexivity. Qed.

Lemma reads_Int T z fuel :
  int_ok z = true ->
  reads (readValue (S fuel)) (ProtocolWriter.writeValue T (VNum (Int z)))
        (VNum (Int z)).
Proof.
  intros Hz. apply int_ok_spec in Hz. destruct Hz as (Hnb & Hr & Hnum).
  rewrite writeValue_Int.
  destruct (Z.ltb_spec 2147483647 z) as [Hlong | Hnl]; simpl orb; cbv iota.
  - apply reads_tagged. unfold readValue_switch, TYPE.LONG.
    apply (reads_map readVarLong VNum _ (Number_of_BigInt z));
      [apply reads_readVarLong_any; lia | rewrite Hnum; reflexivity].
  - destruct (Z.ltb_spec z (-2147483648)); [lia |]. cbv iota.
    destruct (Z.leb_spec (-128) z); simpl andb; cbv iota.
    + destruct (Z.leb_spec z 127); cbv iota.
      * apply reads_tagged. unfold readValue_switch, TYPE.BYTE.
        unfold ProtocolWriter.writeByte.
        rewrite land_255_byte by (unfold is_byte; lia).
        apply (reads_map readByte
                 (fun b => match b with
                           | Some z => VNum (Int z)
                           | None => VUndefined
                           end) [z] (Some z));
          [apply reads_readByte | reflexivity].
      * destruct (Z.leb_spec (-32768) z); [| lia]. simpl andb.
        destruct (Z.leb_spec z 32767); cbv iota.
        -- apply reads_tagged. unfold readValue_switch, TYPE.SHORT.
           apply (reads_map readShort (fun z => VNum (Int z)) _ z);
             [apply reads_readShort; lia | reflexivity].
        -- apply reads_tagged. unfold readValue_switch, TYPE.INT.
           apply (reads_map readInt (fun z => VNum (Int z)) _ z);
             [apply reads_readInt; lia | reflexivity].
    + destruct (Z.leb_spec (-32768) z); simpl andb; cbv iota.
      * destruct (Z.leb_spec z 32767); cbv iota; [| lia].
        apply reads_tagged. unfold readValue_switch, TYPE.SHORT.
        apply (reads_map readShort (fun z => VNum (Int z)) _ z);
          [apply reads_readShort; lia | reflexivity].
      * apply reads_tagged. unfold readValue_switch, TYPE.INT.
        apply (reads_map readInt (fun z => VNum (Int z)) _ z);
          [apply reads_readInt; lia | reflexivity].
Qed.

Lemma writeValue_vec2 T a b :
  ProtocolWriter.writeValue T (VObj [("x"%string, VNum a); ("y"%string, VNum b)])
  = [TYPE.VEC2] ++ ProtocolWriter.writeFloat T (VNum a)
      ++ ProtocolWriter.writeFloat T (VNum b).
Proof. reflexivity. Qed.

Lemma writeValue_vec3 T a b c :
  ProtocolWriter.writeValue
    T (VObj [("x"%string, VNum a); ("y"%string, VNum b); ("z"%string, VNum c)])
  = [TYPE.VEC3] ++ ProtocolWriter.writeFloat T (VNum a)
      ++ ProtocolWriter.writeFloat T (VNum b)
      ++ ProtocolWriter.writeFloat T (VNum c).
Proof. reflexivity. Qed.

Lemma vec_ok_shape o :
  vec_ok o = true ->
  (exists a b, o = [("x"%string, VNum a); ("y"%string, VNum b)]
               /\ f32_exact a = true /\ f32_exact b = true)
  \/ (exists a b c,
         o = [("x"%string, VNum a); ("y"%string, VNum b);
              ("z"%string, VNum c)]
         /\ f32_exact a = true /\ f32_exact b = true /\ f32_exact c = true).
Proof.
  unfold vec_ok. intros H.
  destruct o as [| [kx x] [| [ky y] [| [kz z] [| ? ?]]]]; try discriminate.
  - left. repeat (apply andb_true_iff in H; destruct H as [H ?]).
    apply String.eqb_eq in H. apply String.eqb_eq in H2. subst kx ky.
    destruct x as [| | | a | | | |]; try discriminate.
    destruct y as [| | | b | | | |]; try discriminate.
    exists a, b. auto.
  - right. repeat (apply andb_true_iff in H; destruct H as [H ?]).
    apply String.eqb_eq in H. apply String.eqb_eq in H4.
    apply String.eqb_eq in H3. subst kx ky kz.
    destruct x as [| | | a | | | |]; try discriminate.
    destruct y as [| | | b | | | |]; try discriminate.
    destruct z as [| | | c | | | |]; try discriminate.
    exists a, b, c. auto.
Qed.

Lemma reads_vec fuel T o :
  vec_ok o = true ->
  reads (readValue (S fuel)) (ProtocolWriter.writeValue T (VObj o)) (VObj o).
Proof.
  intros H. apply vec_ok_shape in H.
  destruct H as [(a & b & -> & Ha & Hb) | (a & b & c & -> & Ha & Hb & Hc)].
  - rewrite writeValue_vec2. apply reads_tagged.
    unfold readValue_switch, TYPE.VEC2.
    eapply reads_bind; [apply reads_readFloat; exact Ha |].
    eapply reads_eq; [| apply app_nil_r].
    eapply reads_bind; [apply reads_readFloat; exact Hb |].
    apply reads_ret.
  - rewrite writeValue_vec3. apply reads_tagged.
    unfold readValue_switch, TYPE.VEC3.
    eapply reads_bind; [apply reads_readFloat; exact Ha |].
    eapply reads_bind; [apply reads_readFloat; exact Hb |].
    eapply reads_eq; [| apply app_nil_r].
    eapply reads_bind; [apply reads_readFloat; exact Hc |].
    apply reads_ret.
Qed.

Lemma writeValue_map T o :
  obj_defined o "x" && obj_defined o "y" = false ->
  ProtocolWriter.writeValue T (VObj o)
  = [TYPE.MAP] ++ ProtocolWriter.writeVarInt (Z.of_nat (length o))
      ++ flat_map (entry_bytes T) o.
Proof.
  intros H. cbn [ProtocolWriter.writeValue]. rewrite H. simpl andb. cbv iota.
  reflexivity.
Qed.

Lemma reads_entries T fuel o :
  Forall (fun kv => key_ok (fst kv) = true
                    /\ reads (readValue fuel)
                             (ProtocolWriter.writeValue T (snd kv)) (snd kv))
         o ->
  Z.of_nat (length o) < 2 ^ 31 ->
  (length o <= fuel)%nat ->
  keys_distinct o = true ->
  reads (readMap_with (readValue fuel) fuel)
        (ProtocolWriter.writeVarInt (Z.of_nat (length o))
           ++ flat_map (entry_bytes T) o)
        o.
Proof.
  intros Hall Hlen Hfuel Hd. unfold readMap_with.
  eapply reads_bind; [apply reads_readVarInt; lia |].
  apply (reads_readMap_loop T (readValue fuel) o Hall fuel 0 []);
    assumption.
Qed.

Lemma forallb_entries_spec o :
  forallb (fun kv : string * value =>
             match kv with
             | (key, item) => key_ok key && wf_value item
             end) o = true ->
  Forall (fun kv => key_ok (fst kv) = true /\ wf_value (snd kv) = true) o.
Proof.
  intros H. apply Forall_forall. intros [k v] Hin.
  rewrite forallb_forall in H. specialize (H (k, v) Hin).
  apply andb_true_iff in H. exact H.
Qed.

(** Every well-formed value is read back from its encoding, given fuel for
    the length of the encoding. *)
Lemma readValue_writeValue T v :
  wf_value v = true ->
  forall fuel,
    (length (ProtocolWriter.writeValue T v) <= fuel)%nat ->
    reads (readValue fuel) (ProtocolWriter.writeValue T v) v.
Proof.
  induction v as [| | b | n | s | b | l IH | o IH] using value_ind_nested;
    intros Hwf fuel Hfuel;
    (destruct fuel as [| fuel];
     [pose proof (writeValue_nonempty T) as Hne;
      match type of Hfuel with (length (_ _ ?v) <= _)%nat =>
        specialize (Hne v) end; lia |]).
  - discriminate.
  - change (ProtocolWriter.writeValue T VNull) with ([TYPE.NULL] ++ []).
    apply reads_tagged. apply reads_ret.
  - destruct b.
    + change (ProtocolWriter.writeValue T (VBool true))
        with ([TYPE.BOOL] ++ [1]).
      apply reads_tagged. unfold readValue_switch, TYPE.BOOL, readBool.
      apply (reads_map _ VBool [1] true); [| reflexivity].
      apply (reads_map readByte _ [1] (Some 1));
        [apply reads_readByte | reflexivity].
    + change (ProtocolWriter.writeValue T (VBool false))
        with ([TYPE.BOOL] ++ [0]).
      apply reads_tagged. unfold readValue_switch, TYPE.BOOL, readBool.
      apply (reads_map _ VBool [0] false); [| reflexivity].
      apply (reads_map readByte _ [0] (Some 0));
        [apply reads_readByte | reflexivity].
  - destruct n as [z | w].
    + apply reads_Int. exact Hwf.
    + change (ProtocolWriter.writeValue T (VNum (Dbl w)))
        with ([TYPE.FLOAT] ++ ProtocolWriter.writeFloat T (VNum (Dbl w))).
      apply reads_tagged. unfold readValue_switch, TYPE.FLOAT.
      apply (reads_map readFloat VNum _ (Dbl w));
        [apply reads_readFloat; exact Hwf | reflexivity].
  - change (ProtocolWriter.writeValue T (VStr s))
      with ([TYPE.STRING] ++ ProtocolWriter.writeString s).
    apply reads_tagged. unfold readValue_switch, TYPE.STRING.
    apply (reads_map readString VStr _ s); [| reflexivity].
    apply andb_true_iff in Hwf. destruct Hwf as [Hu Hl].
    apply reads_readString; [exact Hu | apply Z.ltb_lt; exact Hl].
  - change (ProtocolWriter.writeValue T (VBuf b))
      with ([TYPE.BYTES] ++ ProtocolWriter.writeBytes b).
    apply reads_tagged. unfold readValue_switch, TYPE.BYTES.
    apply (reads_map readBytes VBuf _ b); [| reflexivity].
    apply reads_readBytes. simpl in Hwf. apply andb_true_iff in Hwf.
    apply Z.ltb_lt. tauto.
  - change (ProtocolWriter.writeValue T (VArr l))
      with ([TYPE.ARRAY] ++ ProtocolWriter.writeVarInt (Z.of_nat (length l))
              ++ flat_map (ProtocolWriter.writeValue T) l) in *.
    apply reads_tagged. unfold readValue_switch, TYPE.ARRAY.
    apply (reads_map _ VArr _ l); [| reflexivity].
    cbn [wf_value] in Hwf. apply andb_true_iff in Hwf.
    destruct Hwf as [Hlen Hall]. apply Z.ltb_lt in Hlen.
    rewrite forallb_forall in Hall.
    rewrite length_app, length_app in Hfuel. simpl length in Hfuel.
    unfold readArray_with.
    eapply reads_bind; [apply reads_readVarInt; lia |].
    destruct (Z.ltb_spec (Z.of_nat (length l)) 0); [lia |].
    apply (reads_readArray_loop T (readValue fuel) l) with (i := 0) (arr := []).
    + apply Forall_forall. intros v Hin.
      rewrite Forall_forall in IH. apply IH; [exact Hin | apply Hall, Hin |].
      pose proof (length_flat_map_in (ProtocolWriter.writeValue T) l v Hin).
      lia.
    + pose proof (length_flat_map_ge (ProtocolWriter.writeValue T) l
                                     (writeValue_nonempty T)). lia.
  - cbn [wf_value] in Hwf.
    destruct (obj_defined o "x" && obj_defined o "y") eqn:Hvec.
    + apply reads_vec. exact Hwf.
    + rewrite writeValue_map in * by exact Hvec.
      apply reads_tagged. unfold readValue_switch, TYPE.MAP.
      apply (reads_map _ VObj _ o); [| reflexivity].
      apply andb_true_iff in Hwf. destruct Hwf as [Hwf Hall].
      apply andb_true_iff in Hwf. destruct Hwf as [Hlen Hd].
      apply Z.ltb_lt in Hlen. apply forallb_entries_spec in Hall.
      rewrite length_app, length_app in Hfuel. simpl length in Hfuel.
      apply reads_entries; try assumption.
      * apply Forall_forall. intros kv Hin.
        rewrite Forall_forall in IH, Hall. destruct (Hall kv Hin) as [Hk Hv].
        split; [exact Hk |]. apply IH; [exact Hin | exact Hv |].
        pose proof (length_flat_map_in (entry_bytes T) o kv Hin) as Hle.
        destruct kv as [k v]. unfold entry_bytes in Hle at 1.
        rewrite length_app in Hle. simpl snd. lia.
      * pose proof (length_flat_map_ge (entry_bytes T) o
                                       (entry_bytes_nonempty T)). lia.
Qed.

(** *** The writer produces bytes *)

Lemma land_127_is_byte v : is_byte (Z.land v 127).
Proof. unfold is_byte. rewrite land_127_mod. lia. Qed.

Lemma VarInt_encode_loop_ok fuel : forall v, bytes_ok (VarInt.encode_loop fuel v).
Proof.
  induction fuel as [| fuel IH]; intros v; simpl.
  - constructor; [apply land_127_is_byte | constructor].
  - destruct (127 <? v).
    + constructor; [apply continuation_byte | apply IH].
    + constructor; [apply land_127_is_byte | constructor].
Qed.

Lemma VarLong_encode_loop_ok fuel : forall v, bytes_ok (VarLong.encode_loop fuel v).
Proof.
  induction fuel as [| fuel IH]; intros v; simpl.
  - constructor; [apply land_127_is_byte | constructor].
  - destruct (127 <? v).
    + constructor; [apply continuation_byte | apply IH].
    + constructor; [apply land_127_is_byte | constructor].
Qed.

Lemma writeVarInt_ok v : bytes_ok (ProtocolWriter.writeVarInt v).
Proof. apply VarInt_encode_loop_ok. Qed.

Lemma writeByte_ok v : bytes_ok (ProtocolWriter.writeByte v).
Proof. constructor; [apply land_255_is_byte | constructor]. Qed.

Lemma be16_ok z : bytes_ok (be16 z).
Proof. repeat (constructor; [apply land_255_is_byte |]). constructor. Qed.

Lemma be32_ok z : bytes_ok (be32 z).
Proof. repeat (constructor; [apply land_255_is_byte |]). constructor. Qed.

Lemma writeString_ok s : bytes_ok (ProtocolWriter.writeString s).
Proof.
  apply bytes_ok_app; [apply writeVarInt_ok | apply bytes_of_string_ok].
Qed.

Lemma bytes_ok_flat_map {A} (f : A -> list Z) l :
  Forall (fun a => bytes_ok (f a)) l -> bytes_ok (flat_map f l).
Proof.
  induction 1 as [| a l Ha Hl IH]; simpl; [constructor |].
  apply bytes_ok_app; assumption.
Qed.

Lemma writeValue_ok T v :
  wf_value v = true -> bytes_ok (ProtocolWriter.writeValue T v).
Proof.
  induction v as [| | b | n | s | b | l IH | o IH] using value_ind_nested;
    intros Hwf.
  - apply writeByte_ok.
  - apply writeByte_ok.
  - apply bytes_ok_app; apply writeByte_ok.
  - destruct n as [z | w].
    + rewrite writeValue_Int.
      destruct ((2147483647 <? z) || (z <? -2147483648)).
      { apply bytes_ok_app;
          [exact (writeByte_ok TYPE.LONG) | apply VarLong_encode_loop_ok]. }
      destruct ((-128 <=? z) && (z <=? 127)).
      { apply bytes_ok_app; [exact (writeByte_ok TYPE.BYTE) |].
        apply writeByte_ok. }
      destruct ((-32768 <=? z) && (z <=? 32767)).
      { apply bytes_ok_app; [exact (writeByte_ok TYPE.SHORT) | apply be16_ok]. }
      apply bytes_ok_app; [exact (writeByte_ok TYPE.INT) | apply be32_ok].
    + apply bytes_ok_app; [apply writeByte_ok | apply be32_ok].
  - apply bytes_ok_app; [apply writeByte_ok | apply writeString_ok].
  - apply bytes_ok_app; [apply writeByte_ok |].
    apply bytes_ok_app; [apply writeVarInt_ok |].
    simpl in Hwf. apply andb_true_iff in Hwf. apply bytes_okb_spec. tauto.
  - cbn [wf_value] in Hwf. apply andb_true_iff in Hwf.
    destruct Hwf as [_ Hall]. rewrite forallb_forall in Hall.
    apply bytes_ok_app; [apply writeByte_ok |].
    apply bytes_ok_app; [apply writeVarInt_ok |].
    apply bytes_ok_flat_map. apply Forall_forall. intros v Hin.
    rewrite Forall_forall in IH. apply IH; [exact Hin | apply Hall, Hin].
  - cbn [ProtocolWriter.writeValue].
    destruct (obj_defined o "x" && obj_defined o "y" && obj_defined o "z").
    { repeat (apply bytes_ok_app; [first [apply writeByte_ok | apply be32_ok] |]).
      apply be32_ok. }
    destruct (obj_defined o "x" && obj_defined o "y") eqn:Hvec.
    { repeat (apply bytes_ok_app; [first [apply writeByte_ok | apply be32_ok] |]).
      apply be32_ok. }
    cbn [wf_value] in Hwf. rewrite Hvec in Hwf.
    apply andb_true_iff in Hwf. destruct Hwf as [_ Hall].
    apply forallb_entries_spec in Hall.
    apply bytes_ok_app; [apply writeByte_ok |].
    apply bytes_ok_app; [apply writeVarInt_ok |].
    apply bytes_ok_flat_map. apply Forall_forall. intros [k v] Hin.
    rewrite Forall_forall in IH, Hall. destruct (Hall _ Hin) as [_ Hv].
    apply bytes_ok_app; [apply writeString_ok |].
    apply (IH _ Hin). exact Hv.
Qed.

Lemma writeMap_entries T data :
  ProtocolWriter.writeMap T data
  = ProtocolWriter.writeVarInt (Z.of_nat (length data))
      ++ flat_map (entry_bytes T) data.
Proof. reflexivity. Qed.

Lemma wf_map_entries data :
  wf_map data = true ->
  Z.of_nat (length data) < 2 ^ 31
  /\ keys_distinct data = true
  /\ Forall (fun kv => key_ok (fst kv) = true /\ wf_value (snd kv) = true)
            data.
Proof.
  unfold wf_map. intros H. apply andb_true_iff in H. destruct H as [H Hall].
  apply andb_true_iff in H. destruct H as [Hlen Hd].
  apply Z.ltb_lt in Hlen. apply forallb_entries_spec in Hall. auto.
Qed.

Lemma writeMap_ok T data :
  wf_map data = true -> bytes_ok (ProtocolWriter.writeMap T data).
Proof.
  intros H. apply wf_map_entries in H. destruct H as (_ & _ & Hall).
  rewrite writeMap_entries.
  apply bytes_ok_app; [apply writeVarInt_ok |].
  apply bytes_ok_flat_map. apply Forall_forall. intros [k v] Hin.
  rewrite Forall_forall in Hall. destruct (Hall _ Hin) as [_ Hv].
  apply bytes_ok_app; [apply writeString_ok | apply writeValue_ok; exact Hv].
Qed.

(** The payload map is read back from its encoding. *)
Lemma readMap_writeMap T data :
  wf_map data = true ->
  readMap (S (length (ProtocolWriter.writeMap T data)))
          (ProtocolWriter.writeMap T data) 0
  = Ok (data, blen (ProtocolWriter.writeMap T data)).
Proof.
  intros H. apply wf_map_entries in H. destruct H as (Hlen & Hd & Hall).
  set (fuel := S (length (ProtocolWriter.writeMap T data))).
  assert (Hr : reads (readMap fuel) (ProtocolWriter.writeMap T data) data).
  { rewrite writeMap_entries. unfold readMap.
    assert (Hsz : (length (flat_map (entry_bytes T) data) < fuel)%nat).
    { subst fuel. rewrite writeMap_entries, length_app. lia. }
    apply reads_entries; try assumption.
    - apply Forall_forall. intros kv Hin.
      rewrite Forall_forall in Hall. destruct (Hall kv Hin) as [Hk Hv].
      split; [exact Hk |]. apply readValue_writeValue; [exact Hv |].
      pose proof (length_flat_map_in (entry_bytes T) data kv Hin) as Hle.
      destruct kv as [k v]. unfold entry_bytes in Hle at 1.
      rewrite length_app in Hle. simpl snd. lia.
    - pose proof (length_flat_map_ge (entry_bytes T) data
                                     (entry_bytes_nonempty T)). lia. }
  specialize (Hr [] []). rewrite app_nil_r in Hr. simpl app in Hr.
  change (blen []) with 0 in Hr. rewrite Hr. reflexivity.
Qed.

(** ** Packets *)

Lemma OPCODE_value_byte op : Z.land (OPCODE_value op) 255 = OPCODE_value op.
Proof. destruct op; reflexivity. Qed.

Lemma parse_frame_reads B op (enc : bool) payload cs :
  0 <= blen payload < 2 ^ 31 ->
  Checksum.verify (slice B 0 (blen B - 1)) cs = true ->
  reads (Packet.parse_frame B)
        ([0x42] ++ [0x4e] ++ [0x01] ++ [if enc then 0x01 else 0x00]
           ++ [OPCODE_value op]
           ++ VarInt.encode (blen payload) ++ payload ++ [cs])
        (Some (OPCODE_value op),
         if enc then Cipher.decrypt Cipher.default_key payload else payload,
         enc).
Proof.
  intros Hlen Hcs. unfold Packet.parse_frame.
  eapply reads_bind; [apply reads_readByte |].
  eapply reads_bind; [apply reads_readByte |]. cbv beta iota.
  eapply reads_bind; [apply reads_readByte |]. cbv beta iota.
  eapply reads_bind; [apply reads_readByte |].
  eapply reads_bind; [apply reads_readByte |].
  eapply reads_bind; [apply reads_readVarInt; exact Hlen |].
  eapply reads_bind; [apply reads_read |].
  eapply reads_eq; [| apply app_nil_r].
  eapply reads_bind; [apply reads_readByte |].
  cbv beta iota. rewrite Hcs. simpl negb. cbv iota.
  destruct enc; apply reads_ret.
Qed.

Lemma create_bytes T op data (enc : bool) :
  let payload0 := ProtocolWriter.writeMap T data in
  let payload :=
    if enc then Cipher.encrypt Cipher.default_key payload0 else payload0 in
  let body :=
    [0x42] ++ [0x4e] ++ [0x01] ++ [if enc then 0x01 else 0x00]
      ++ [OPCODE_value op] ++ VarInt.encode (blen payload) ++ payload in
  Packet.create T op data enc = body ++ [Checksum.calculate body].
Proof.
  intros payload0 payload body. unfold Packet.create.
  fold payload0. fold payload.
  unfold ProtocolWriter.writeByte, ProtocolWriter.writeVarInt.
  rewrite OPCODE_value_byte.
  rewrite (land_255_byte (Checksum.calculate _)) by apply calculate_is_byte.
  subst body. destruct enc; reflexivity.
Qed.

(** C1, as amended.  [Packet.parse (Packet.create op data enc)] returns
    exactly [op], [data] and [enc] for every opcode, every flag [enc] and
    every payload map [data] that is well formed ([wf_map]) and whose
    encoding is shorter than 2^31 bytes.  Well formed means: no value is
    undefined; every integer is not below -2^31 and not in [-128, -1] (any
    other integer that is a JS number, 2^53 and beyond included); every
    other number is a 32-bit float; buffers hold bytes; no string and no
    key holds an unpaired surrogate; strings (counted in UTF-8 bytes),
    buffers, arrays and maps are shorter than 2^31; the keys of a map are
    distinct and none is "__proto__"; and a map below the top level that
    has both an x and a y is exactly a Vec2 (x, y) or a Vec3 (x, y, z) of
    32-bit floats. *)
Theorem packet_round_trip T op data (enc : bool) :
  wf_map data = true ->
  blen (ProtocolWriter.writeMap T data) < 2 ^ 31 ->
  Packet.parse (Packet.create T op data enc)
  = Ok {| Packet.opcode := Some (OPCODE_value op);
          Packet.data := data;
          Packet.isEncrypted := enc |}.
Proof.
  intros Hwf Hlen.
  pose proof (create_bytes T op data enc) as Hc. cbv zeta in Hc.
  set (payload0 := ProtocolWriter.writeMap T data) in *.
  set (payload := if enc then Cipher.encrypt Cipher.default_key payload0
                  else payload0) in *.
  set (body := [0x42] ++ [0x4e] ++ [0x01] ++ [if enc then 0x01 else 0x00]
                 ++ [OPCODE_value op] ++ VarInt.encode (blen payload)
                 ++ payload) in *.
  assert (Hpl : blen payload = blen payload0).
  { subst payload. destruct enc; [| reflexivity].
    unfold blen, Cipher.encrypt. rewrite encrypt_from_length. reflexivity. }
  assert (Hdec : (if enc then Cipher.decrypt Cipher.default_key payload
                  else payload) = payload0).
  { subst payload. destruct enc; [| reflexivity].
    unfold Cipher.decrypt, Cipher.encrypt.
    apply encrypt_from_involutive. apply writeMap_ok. exact Hwf. }
  assert (Hverify : Checksum.verify
                      (slice (body ++ [Checksum.calculate body]) 0
                             (blen (body ++ [Checksum.calculate body]) - 1))
                      (Checksum.calculate body) = true).
  { rewrite slice_init. unfold Checksum.verify. apply Z.eqb_refl. }
  pose proof (parse_frame_reads (body ++ [Checksum.calculate body]) op enc
                payload (Checksum.calculate body)
                ltac:(pose proof (blen_nonneg payload); lia) Hverify [] [])
    as Hp.
  rewrite app_nil_r in Hp. rewrite app_nil_l in Hp.
  unfold Packet.parse. rewrite Hc.
  replace (body ++ [Checksum.calculate body])
    with ([0x42] ++ [0x4e] ++ [0x01] ++ [if enc then 0x01 else 0x00]
            ++ [OPCODE_value op] ++ VarInt.encode (blen payload) ++ payload
            ++ [Checksum.calculate body]) at 2
    by (subst body; rewrite <- !app_assoc; reflexivity).
  change (blen []) with 0 in Hp. rewrite Hp. rewrite Hdec.
  subst payload0. rewrite readMap_writeMap by exact Hwf. reflexivity.
Qed.

Lemma packet_round_trip_witness :
  let T : value -> number := fun _ => Dbl (IEEE.encode IEEE.binary64 NaN) in
  let data : object :=
    [("name"%string, VStr "nyx"); ("hp"%string, VNum (Int 300));
     ("pos"%string,
      VObj [("x"%string, VNum (Dbl 0x3FF8000000000000));
            ("y"%string, VNum (Int 2))]);
     ("vel"%string,
      VObj [("x"%string, VNum (Int 0));
            ("y"%string, VNum (Dbl 0xBFE0000000000000));
            ("z"%string, VNum (Int 16777216))]);
     ("tags"%string,
      VArr [VNull; VBool true; VBuf [1; 2; 255]; VNum (Int 70000);
            VNum (Int 5000000000); VNum (Int (-200)); VNum (Int 127);
            VNum (Int 9007199254740992); VNum (Int 1152921504606846976);
            VNum (Dbl 0x3FB99999A0000000);
            VStr (string_of_list [0xC3; 0xA9; 0xE2; 0x82; 0xAC;
                                  0xF0; 0x9F; 0x98; 0x80]);
            VObj [("k"%string, VStr ""); (""%string, VArr [])]]);
     ("x"%string, VNum (Int 1)); ("y"%string, VNum (Int 2))] in
  wf_map data = true
  /\ blen (ProtocolWriter.writeMap T data) < 2 ^ 31
  /\ Packet.parse (Packet.create T AUTH data true)
     = Ok {| Packet.opcode := Some (OPCODE_value AUTH);
             Packet.data := data;
             Packet.isEncrypted := true |}.
Proof.
  intros T data.
  assert (Hwf : wf_map data = true) by (vm_compute; reflexivity).
  assert (Hlen : blen (ProtocolWriter.writeMap T data) < 2 ^ 31)
    by (vm_compute; reflexivity).
  refine (conj Hwf (conj Hlen _)).
  exact (packet_round_trip T AUTH data true Hwf Hlen).
Defined.

(** C1, as stated, fails.  The payload {p: {x: 1, y: 2, w: 3}} lies in the
    Typed Value model, but the writer takes every object that has an x and
    a y for a Vec2: the packet carries the two floats only, and parsing it
    gives {p: {x: 1, y: 2}}. *)
Lemma packet_round_trip_counterexample :
  let T : value -> number := fun _ => Dbl (IEEE.encode IEEE.binary64 NaN) in
  let data : object :=
    [("p"%string,
      VObj [("x"%string, VNum (Int 1)); ("y"%string, VNum (Int 2));
            ("w"%string, VNum (Int 3))])] in
  typed_value (VObj data) = true
  /\ Packet.parse (Packet.create T PING data false)
     = Ok {| Packet.opcode := Some (OPCODE_value PING);
             Packet.data :=
               [("p"%string,
                 VObj [("x"%string, VNum (Int 1));
                       ("y"%string, VNum (Int 2))])];
             Packet.isEncrypted := false |}
  /\ Packet.parse (Packet.create T PING data false)
     <> Ok {| Packet.opcode := Some (OPCODE_value PING);
              Packet.data := data;
              Packet.isEncrypted := false |}.
Proof.
  intros T data. split; [vm_compute; reflexivity |].
  assert (H : Packet.parse (Packet.create T PING data false)
              = Ok {| Packet.opcode := Some (OPCODE_value PING);
                      Packet.data :=
                        [("p"%string,
                          VObj [("x"%string, VNum (Int 1));
                                ("y"%string, VNum (Int 2))])];
                      Packet.isEncrypted := false |})
    by (vm_compute; reflexivity).
  split; [exact H |]. rewrite H. subst data. intros Heq. discriminate Heq.
Qed.

(** Outside the well-formed payloads: a number in [-128, -1] is written as
    one byte and read back unsigned, and a number below -2^31 is written by
    [VarLong.encode] as the single byte of its low seven bits. *)
Lemma negative_numbers_not_read_back :
  let T : value -> number := fun _ => Dbl (IEEE.encode IEEE.binary64 NaN) in
  Packet.parse (Packet.create T PING [("a"%string, VNum (Int (-1)))] false)
  = Ok {| Packet.opcode := Some (OPCODE_value PING);
          Packet.data := [("a"%string, VNum (Int 255))];
          Packet.isEncrypted := false |}
  /\ Packet.parse
       (Packet.create T PING [("a"%string, VNum (Int (-5000000000)))] false)
     = Ok {| Packet.opcode := Some (OPCODE_value PING);
             Packet.data := [("a"%string, VNum (Int 0))];
             Packet.isEncrypted := false |}.
Proof. split; vm_compute; reflexivity. Qed.

(** Outside the well-formed payloads too: a string that holds an unpaired
    surrogate.  [Buffer.from] writes U+FFFD (EF BF BD) in its place, so the
    string of the one code unit U+D800 is read back as the string of the
    one code unit U+FFFD. *)
Lemma unpaired_surrogate_not_read_back :
  let T : value -> number := fun _ => Dbl (IEEE.encode IEEE.binary64 NaN) in
  let s := string_of_list [0xED; 0xA0; 0x80] in
  utf8_ok s = false
  /\ bytes_of_string s = [0xEF; 0xBF; 0xBD]
  /\ Packet.parse (Packet.create T PING [("s"%string, VStr s)] false)
     = Ok {| Packet.opcode := Some (OPCODE_value PING);
             Packet.data :=
               [("s"%string, VStr (string_of_list [0xEF; 0xBF; 0xBD]))];
             Packet.isEncrypted := false |}
  /\ Packet.parse (Packet.create T PING [("s"%string, VStr s)] false)
     <> Ok {| Packet.opcode := Some (OPCODE_value PING);
              Packet.data := [("s"%string, VStr s)];
              Packet.isEncrypted := false |}.
Proof.
  intros T s. split; [reflexivity |]. split; [reflexivity |].
  assert (H : Packet.parse (Packet.create T PING [("s"%string, VStr s)] false)
              = Ok {| Packet.opcode := Some (OPCODE_value PING);
                      Packet.data :=
                        [("s"%string,
                          VStr (string_of_list [0xEF; 0xBF; 0xBD]))];
                      Packet.isEncrypted := false |})
    by (vm_compute; reflexivity).
  split; [exact H |]. rewrite H. subst s. intros Heq. discriminate Heq.
Qed.

(** The integers that are JS numbers: 2^53 and 2^53 + 2 are, 2^53 + 1 is
    not (no binary64 float holds it). *)
Lemma int_ok_beyond_2_53 :
  int_ok 9007199254740992 = true
  /\ int_ok 9007199254740994 = true
  /\ int_ok 9007199254740993 = false.
Proof. repeat split; vm_compute; reflexivity. Qed.

(** [Packet.parse] takes for the checksum the byte at the offset its length
    field leads to, and compares it with the checksum of all the bytes of
    the buffer but the last.  When the length byte of the packet of
    {a: "#h"} is changed from 7 to 6, the byte taken is the "h" of the
    payload, which happens to be the checksum expected, and the packet is
    accepted with the string cut short. *)
Lemma parse_accepts_a_changed_length_byte :
  let T : value -> number := fun _ => Dbl (IEEE.encode IEEE.binary64 NaN) in
  let packet := Packet.create T PING [("a"%string, VStr "#h")] false in
  nth_error packet 5 = Some 7
  /\ Packet.parse (buf_set packet 5 6)
     = Ok {| Packet.opcode := Some (OPCODE_value PING);
             Packet.data := [("a"%string, VStr "#")];
             Packet.isEncrypted := false |}.
Proof. split; vm_compute; reflexivity. Qed.

(** ** The decoder on truncated input *)

(** C3 (the code departs from it).  A STRING value whose declared length
    is 5 with one byte left in the buffer decodes without any error, to the
    one-character string, and leaves the offset beyond the end of the
    buffer; a SHORT with one byte left fails with the runtime's RangeError,
    not with the 'Buffer underflow' error; and so does an ARRAY whose count
    decodes to a negative number.  Only a tag byte outside the known set
    fails as the contract says. *)
Theorem decode_error_contract_broken :
  ProtocolReader.readValue 8 [TYPE.STRING; 5; 97] 0 = Ok (VStr "a", 7)
  /\ ProtocolReader.readValue 8 [TYPE.SHORT; 1] 0 = Throw RangeError
  /\ ProtocolReader.readValue 8 [TYPE.INT; 1; 2; 3] 0 = Throw RangeError
  /\ ProtocolReader.readValue 8 [TYPE.FLOAT] 0 = Throw RangeError
  /\ ProtocolReader.readValue 8 [TYPE.ARRAY; 255; 255; 255; 255; 15] 0
     = Throw RangeError
  /\ ProtocolReader.readValue 8 [TYPE.BYTES; 5; 97] 0 = Throw BufferUnderflow
  /\ ProtocolReader.readValue 8 [14] 0 = Throw UnknownType.
Proof. repeat split; reflexivity. Qed.

(** ** The bridge on coalesced packets *)

Lemma drain_at_most_one fuel wsOpen :
  forall tcpBuffer sent rest sent',
    WebSocketBridge.drain fuel wsOpen tcpBuffer sent = Some (rest, sent') ->
    (length sent' <= length sent + 1)%nat
    /\ (length sent' = length sent + 1 -> rest = [])%nat.
Proof.
  destruct fuel as [| fuel]; intros tcpBuffer sent rest sent' H; simpl in H.
  - destruct (6 <=? blen tcpBuffer); simpl in H; [discriminate |].
    injection H as <- <-. lia.
  - destruct (6 <=? blen tcpBuffer); simpl in H;
      [| injection H as <- <-; lia].
    destruct (Packet.parse tcpBuffer) as [packet | e |]; [| | discriminate].
    + destruct fuel; simpl in H; injection H as <- <-;
        destruct wsOpen; try rewrite length_app; simpl; split; auto; lia.
    + destruct e; injection H as <- <-; lia.
Qed.

(** C2 (the code departs from it).  Two valid packets delivered to the
    bridge in one read: each of them alone is parsed and forwarded, but the
    two together are not; [Packet.parse] checks the checksum over the whole
    receive buffer, so nothing is forwarded and the buffer is emptied.  In
    general one 'data' event forwards at most one packet, and when it
    forwards one it empties the receive buffer, whatever follows the
    packet in it. *)
Theorem bridge_drops_coalesced_packets :
  let p1 := Packet.create (fun _ => Int 0) PING [] false in
  let p2 := Packet.create (fun _ => Int 0) PONG
                          [("n"%string, VNum (Int 7))] false in
  WebSocketBridge.onData true [] p1
  = Some ([], [{| Packet.opcode := Some (OPCODE_value PING);
                  Packet.data := []; Packet.isEncrypted := false |}])
  /\ WebSocketBridge.onData true [] p2
     = Some ([], [{| Packet.opcode := Some (OPCODE_value PONG);
                     Packet.data := [("n"%string, VNum (Int 7))];
                     Packet.isEncrypted := false |}])
  /\ Packet.parse (p1 ++ p2) = Throw ChecksumMismatch
  /\ WebSocketBridge.onData true [] (p1 ++ p2) = Some ([], [])
  /\ (forall wsOpen tcpBuffer data rest sent,
         WebSocketBridge.onData wsOpen tcpBuffer data = Some (rest, sent) ->
         (length sent <= 1)%nat /\ (length sent = 1%nat -> rest = [])).
Proof.
  split; [vm_compute; reflexivity |].
  split; [vm_compute; reflexivity |].
  split; [vm_compute; reflexivity |].
  split; [vm_compute; reflexivity |].
  intros wsOpen tcpBuffer data rest sent H. unfold WebSocketBridge.onData in H.
  apply drain_at_most_one in H. simpl in H. exact H.
Qed.

(** ** Further properties of VarInt and VarLong *)

Lemma shiftl_mod32_wide lo shift :
  0 <= lo -> 0 <= shift -> lo * 2 ^ shift < 2 ^ 32 ->
  Z.shiftl lo (shift mod 32) = lo * 2 ^ shift.
Proof.
  intros Hlo Hs Hb. destruct (Z.eq_dec lo 0) as [-> | Hn].
  - rewrite Z.shiftl_0_l. reflexivity.
  - assert (shift < 32).
    { destruct (Z.ltb_spec shift 32) as [| Hge]; [assumption |].
      assert (2 ^ 32 <= 2 ^ shift) by (apply Z.pow_le_mono_r; lia). nia. }
    rewrite Z.mod_small by lia. apply Z.shiftl_mul_pow2. lia.
Qed.

Lemma VarInt_step_wide value lo shift :
  0 <= lo -> 0 <= shift -> 0 <= value < 2 ^ shift ->
  value + lo * 2 ^ shift < 2 ^ 32 ->
  to_int32 (Z.lor value (Z.shiftl lo (shift mod 32)))
  = to_int32 (value + lo * 2 ^ shift).
Proof.
  intros Hlo Hs Hv Hb.
  assert (0 < 2 ^ shift) by (apply Z.pow_pos_nonneg; lia).
  rewrite shiftl_mod32_wide by nia. rewrite lor_scaled_add by assumption.
  reflexivity.
Qed.

Lemma VarInt_loops_wide fuel :
  forall v value shift bytesRead post,
    0 <= v < 2 ^ (7 * (Z.of_nat fuel + 1)) ->
    0 <= shift -> 0 <= value < 2 ^ shift ->
    value + v * 2 ^ shift < 2 ^ 32 ->
    VarInt.decode_loop (VarInt.encode_loop fuel v ++ post)
                       value shift bytesRead
    = Ok (to_int32 (value + v * 2 ^ shift),
          bytesRead + blen (VarInt.encode_loop fuel v)).
Proof.
  induction fuel as [| fuel IH];
    intros v value shift bytesRead post Hv Hs Hval Hb.
  - simpl in Hv. change (2 ^ 7) with 128 in Hv. simpl.
    destruct (final_byte v) as [H1 H2]; [lia |].
    rewrite !H1, H2. simpl. rewrite VarInt_step_wide by lia. reflexivity.
  - assert (Hp : 0 < 2 ^ shift) by (apply Z.pow_pos_nonneg; lia).
    simpl VarInt.encode_loop. destruct (Z.ltb_spec 127 v) as [Hbig | Hsmall].
    + destruct (continuation_byte v) as (H1 & H2 & _).
      simpl. rewrite H1.
      destruct (Z.eqb_spec (Z.land (Z.lor (Z.land v 127) 128) 128) 0);
        [contradiction |].
      assert (Hp7 : 2 ^ (shift + 7) = 128 * 2 ^ shift)
        by (rewrite Z.pow_add_r by lia; change (2 ^ 7) with 128; lia).
      assert (Hsh : shift + 7 < 32).
      { destruct (Z.ltb_spec (shift + 7) 32) as [| Hge]; [assumption |].
        assert (2 ^ 32 <= 2 ^ (shift + 7)) by (apply Z.pow_le_mono_r; lia).
        nia. }
      assert (Hle : 2 ^ (shift + 7) <= 2 ^ 31)
        by (apply Z.pow_le_mono_r; lia).
      rewrite VarInt_step by nia.
      rewrite to_uint32_small by nia.
      assert (Hs7 : Z.shiftr v 7 = v / 128)
        by (rewrite Z.shiftr_div_pow2 by lia; reflexivity).
      rewrite Hs7. rewrite IH.
      * f_equal. f_equal; [f_equal; rewrite Hp7; nia |].
        unfold blen. simpl length. lia.
      * replace (7 * (Z.of_nat (S fuel) + 1))
          with (7 + 7 * (Z.of_nat fuel + 1)) in Hv by lia.
        rewrite Z.pow_add_r in Hv by lia. change (2 ^ 7) with 128 in Hv. lia.
      * lia.
      * rewrite Hp7. nia.
      * rewrite Hp7. nia.
    + simpl. destruct (final_byte v) as [H1 H2]; [lia |].
      rewrite !H1, H2. simpl. rewrite VarInt_step_wide by lia. reflexivity.
Qed.

Lemma VarInt_encode_loop_length fuel :
  forall v k,
    0 <= v < 2 ^ (7 * (Z.of_nat k + 1)) ->
    (1 <= length (VarInt.encode_loop fuel v) <= k + 1)%nat.
Proof.
  induction fuel as [| fuel IH]; intros v k Hv; simpl.
  - lia.
  - destruct (Z.ltb_spec 127 v) as [Hbig | Hsmall]; [| simpl; lia].
    destruct k as [| k].
    + simpl in Hv. change (2 ^ 7) with 128 in Hv. lia.
    + assert (Hu : 0 <= Z.shiftr (to_uint32 v) 7 < 2 ^ (7 * (Z.of_nat k + 1))).
      { rewrite Z.shiftr_div_pow2 by lia. change (2 ^ 7) with 128.
        unfold to_uint32.
        replace (7 * (Z.of_nat (S k) + 1))
          with (7 + 7 * (Z.of_nat k + 1)) in Hv by lia.
        rewrite Z.pow_add_r in Hv by lia. change (2 ^ 7) with 128 in Hv.
        assert (0 < 2 ^ (7 * (Z.of_nat k + 1))) by (apply Z.pow_pos_nonneg; lia).
        assert (v mod 2 ^ 32 <= v) by (apply Z.mod_le; lia || reflexivity).
        assert (0 <= v mod 2 ^ 32) by (apply Z.mod_pos_bound; reflexivity).
        split; [apply Z.div_pos; lia |].
        apply Z.div_lt_upper_bound; lia. }
      specialize (IH _ k Hu). simpl. lia.
Qed.

Lemma VarInt_decode_encode n pre post :
  - 2 ^ 31 <= n < 2 ^ 32 ->
  VarInt.decode (pre ++ VarInt.encode n ++ post) (blen pre)
  = Ok (to_int32 n, blen (VarInt.encode n)).
Proof.
  intros Hn. unfold VarInt.decode, VarInt.encode.
  assert (Hp := blen_nonneg pre).
  destruct (Z.ltb_spec (blen pre) 0); [lia |].
  unfold blen at 1. rewrite Nat2Z.id, skipn_app, skipn_all, Nat.sub_diag.
  rewrite skipn_O, app_nil_l.
  set (v := if n <? 0 then to_uint32 n else n).
  assert (Hv : 0 <= v < 2 ^ 32 /\ to_int32 v = to_int32 n).
  { subst v. unfold to_int32, to_uint32.
    change (2 ^ 31) with 2147483648 in *. change (2 ^ 32) with 4294967296 in *.
    destruct (Z.ltb_spec n 0).
    - split; [lia |]. rewrite Z.mod_mod by lia. reflexivity.
    - split; [lia | reflexivity]. }
  destruct Hv as [Hv Hi].
  assert (Hfuel : 0 <= v < 2 ^ (7 * (Z.of_nat 5 + 1))).
  { change (2 ^ (7 * (Z.of_nat 5 + 1))) with (2 ^ 42).
    assert (2 ^ 32 < 2 ^ 42) by reflexivity. lia. }
  rewrite VarInt_loops_wide; [| exact Hfuel | lia | simpl; lia | lia].
  rewrite Z.add_0_l, Z.add_0_l, Z.mul_1_r, Hi. reflexivity.
Qed.

Lemma VarInt_encode_length n :
  - 2 ^ 31 <= n < 2 ^ 32 -> (1 <= length (VarInt.encode n) <= 5)%nat.
Proof.
  intros Hn. unfold VarInt.encode.
  apply (VarInt_encode_loop_length 5 _ 4).
  change (2 ^ (7 * (Z.of_nat 4 + 1))) with (2 ^ 35).
  assert (2 ^ 32 < 2 ^ 35) by reflexivity.
  unfold to_uint32. change (2 ^ 31) with 2147483648 in *.
  change (2 ^ 32) with 4294967296 in *.
  destruct (Z.ltb_spec n 0); lia.
Qed.

(** X1.  VarInt round trip on the signed 32-bit integers: wherever the
    encoding of [n] sits in a buffer, decoding at its first byte returns [n]
    and the number of bytes of the encoding, which is between 1 and 5. *)
Theorem VarInt_int32_round_trip n pre post :
  - 2 ^ 31 <= n < 2 ^ 31 ->
  VarInt.decode (pre ++ VarInt.encode n ++ post) (blen pre)
  = Ok (n, blen (VarInt.encode n))
  /\ (1 <= length (VarInt.encode n) <= 5)%nat.
Proof.
  intros Hn. split.
  - rewrite VarInt_decode_encode
      by (assert (2 ^ 31 < 2 ^ 32) by reflexivity; lia).
    rewrite to_int32_small by exact Hn. reflexivity.
  - apply VarInt_encode_length.
    assert (2 ^ 31 < 2 ^ 32) by reflexivity. lia.
Qed.

Lemma VarInt_int32_round_trip_witness :
  - 2 ^ 31 <= -1 < 2 ^ 31
  /\ VarInt.encode (-1) = [255; 255; 255; 255; 15]
  /\ VarInt.decode ([7] ++ VarInt.encode (-1) ++ [9]) (blen [7])
     = Ok (-1, blen (VarInt.encode (-1))).
Proof.
  assert (H : - 2 ^ 31 <= -1 < 2 ^ 31) by (vm_compute; split; congruence).
  refine (conj H (conj eq_refl _)).
  exact (proj1 (VarInt_int32_round_trip (-1) [7] [9] H)).
Defined.

(** X2.  A length of 2^31 or more, up to 2^32 - 1, is encoded in five bytes
    and decoded as the negative number [n - 2^32]: the decoder works on
    signed 32-bit integers. *)
Theorem VarInt_large_value_decodes_negative n pre post :
  2 ^ 31 <= n < 2 ^ 32 ->
  VarInt.decode (pre ++ VarInt.encode n ++ post) (blen pre)
  = Ok (n - 2 ^ 32, 5).
Proof.
  intros Hn.
  rewrite VarInt_decode_encode
    by (assert (0 < 2 ^ 31) by reflexivity; lia).
  assert (Hi : to_int32 n = n - 2 ^ 32).
  { unfold to_int32, to_uint32. change (2 ^ 31) with 2147483648 in *.
    change (2 ^ 32) with 4294967296 in *.
    destruct (Z.ltb_spec (n mod 4294967296) 2147483648); lia. }
  rewrite Hi. f_equal. f_equal.
  assert (Hl : (length (VarInt.encode n) = 5)%nat).
  { unfold VarInt.encode.
    change (2 ^ 31) with 2147483648 in *. change (2 ^ 32) with 4294967296 in *.
    destruct (Z.ltb_spec n 0); [lia |].
    assert (Hs : forall v, Z.shiftr v 7 = v / 128)
      by (intros v; rewrite Z.shiftr_div_pow2 by lia; reflexivity).
    assert (Hu : forall v, 0 <= v < 4294967296 -> to_uint32 v = v)
      by (intros v Hv; apply to_uint32_small; exact Hv).
    cbn [VarInt.encode_loop].
    destruct (Z.ltb_spec 127 n); [| lia].
    rewrite Hu, Hs by lia.
    destruct (Z.ltb_spec 127 (n / 128)); [| lia].
    rewrite Hu, Hs by lia.
    destruct (Z.ltb_spec 127 (n / 128 / 128)); [| lia].
    rewrite Hu, Hs by lia.
    destruct (Z.ltb_spec 127 (n / 128 / 128 / 128)); [| lia].
    rewrite Hu, Hs by lia.
    destruct (Z.ltb_spec 127 (n / 128 / 128 / 128 / 128)); [lia |].
    reflexivity. }
  unfold blen. rewrite Hl. reflexivity.
Qed.

Lemma VarInt_large_value_decodes_negative_witness :
  2 ^ 31 <= 3000000000 < 2 ^ 32
  /\ VarInt.decode ([] ++ VarInt.encode 3000000000 ++ []) (blen [])
     = Ok (-1294967296, 5).
Proof.
  assert (H : 2 ^ 31 <= 3000000000 < 2 ^ 32) by (vm_compute; split; congruence).
  refine (conj H _).
  exact (VarInt_large_value_decodes_negative 3000000000 [] [] H).
Defined.

(** The loop of [decode] runs out of bytes on a proper prefix of an
    encoding. *)
Lemma decode_loop_truncated fuel :
  forall v (k : nat) value shift bytesRead,
    (k < length (VarInt.encode_loop fuel v))%nat ->
    VarInt.decode_loop (firstn k (VarInt.encode_loop fuel v))
                       value shift bytesRead
    = Throw BufferUnderflow.
Proof.
  induction fuel as [| fuel IH]; intros v k value shift bytesRead Hk.
  - simpl in Hk. assert (k = 0%nat) as -> by lia. reflexivity.
  - simpl VarInt.encode_loop in *.
    destruct (127 <? v).
    + destruct k as [| k]; [reflexivity |].
      simpl firstn. simpl VarInt.decode_loop.
      destruct (continuation_byte v) as (_ & H2 & _).
      destruct (Z.eqb_spec (Z.land (Z.lor (Z.land v 127) 128) 128) 0);
        [contradiction |].
      apply IH. simpl in Hk. lia.
    + simpl in Hk. assert (k = 0%nat) as -> by lia. reflexivity.
Qed.

(** X3.  Decoding stops with 'Buffer underflow' when the buffer ends inside
    a VarInt: at every offset at or beyond the end of the buffer, and on
    every proper prefix of an encoding. *)
Theorem VarInt_truncated_underflow :
  (forall buffer offset,
      blen buffer <= offset ->
      VarInt.decode buffer offset = Throw BufferUnderflow)
  /\ (forall n pre (k : nat),
         (k < length (VarInt.encode n))%nat ->
         VarInt.decode (pre ++ firstn k (VarInt.encode n)) (blen pre)
         = Throw BufferUnderflow).
Proof.
  split.
  - intros buffer offset Hoff. unfold VarInt.decode.
    assert (Hb := blen_nonneg buffer).
    destruct (Z.ltb_spec offset 0); [lia |].
    rewrite skipn_all2 by (unfold blen in Hoff; lia). reflexivity.
  - intros n pre k Hk. unfold VarInt.decode, VarInt.encode in *.
    assert (Hp := blen_nonneg pre).
    destruct (Z.ltb_spec (blen pre) 0); [lia |].
    unfold blen. rewrite Nat2Z.id, skipn_app, skipn_all, Nat.sub_diag.
    rewrite skipn_O, app_nil_l. apply decode_loop_truncated. exact Hk.
Qed.

Lemma VarInt_truncated_underflow_witness :
  blen [1; 2] <= 2
  /\ VarInt.decode [1; 2] 2 = Throw BufferUnderflow
  /\ (2 < length (VarInt.encode 16384))%nat
  /\ VarInt.decode ([0] ++ firstn 2 (VarInt.encode 16384)) (blen [0])
     = Throw BufferUnderflow.
Proof.
  assert (H1 : blen [1; 2] <= 2) by (vm_compute; congruence).
  assert (H2 : (2 < length (VarInt.encode 16384))%nat) by (vm_compute; lia).
  refine (conj H1 (conj _ (conj H2 _))).
  - exact (proj1 VarInt_truncated_underflow [1; 2] 2 H1).
  - exact (proj2 VarInt_truncated_underflow 16384 [0] 2%nat H2).
Defined.

(** X4.  VarLong round trip: a non-negative integer below 2^53 is decoded
    from its encoding, wherever it sits in a buffer, as the same number,
    with the length of the encoding as the count of bytes read. *)
Theorem VarLong_nonnegative_round_trip n pre post :
  0 <= n < 2 ^ 53 ->
  VarLong.decode (pre ++ VarLong.encode n ++ post) (blen pre)
  = Ok (Int n, blen (VarLong.encode n)).
Proof. intros Hn. apply VarLong_round_trip. exact Hn. Qed.

Lemma VarLong_nonnegative_round_trip_witness :
  0 <= 5000000000 < 2 ^ 53
  /\ VarLong.decode ([5] ++ VarLong.encode 5000000000 ++ [0])
                    (blen [5])
     = Ok (Int 5000000000, blen (VarLong.encode 5000000000)).
Proof.
  assert (H : 0 <= 5000000000 < 2 ^ 53) by (vm_compute; split; congruence).
  refine (conj H _).
  exact (VarLong_nonnegative_round_trip 5000000000 [5] [0] H).
Defined.

(** X5.  A negative integer is not round-tripped by VarLong: the loop of
    [encode] does not run, the encoding is the single byte of the low seven
    bits, and decoding it gives [n mod 128], a number between 0 and 127. *)
Theorem VarLong_negative_single_byte n pre post :
  n < 0 ->
  VarLong.encode n = [Z.land n 127]
  /\ VarLong.decode (pre ++ VarLong.encode n ++ post) (blen pre)
     = Ok (Int (n mod 128), 1)
  /\ n mod 128 <> n.
Proof.
  intros Hn.
  assert (He : VarLong.encode n = [Z.land n 127]).
  { unfold VarLong.encode.
    rewrite Z.log2_nonpos by lia. reflexivity. }
  split; [exact He |]. split; [| lia].
  rewrite He. unfold VarLong.decode.
  assert (Hp := blen_nonneg pre).
  destruct (Z.ltb_spec (blen pre) 0); [lia |].
  unfold blen. rewrite Nat2Z.id, skipn_app, skipn_all, Nat.sub_diag.
  rewrite skipn_O, app_nil_l. simpl app.
  cbn [VarLong.decode_loop].
  rewrite land_127_mod.
  destruct (final_byte (n mod 128)) as [H1 H2]; [lia |].
  rewrite H1, H2. simpl (0 =? 0). cbv iota.
  rewrite Z.shiftl_0_r, Z.lor_0_l.
  rewrite Number_of_BigInt_exact
    by (assert (128 < 2 ^ 53) by reflexivity; lia).
  reflexivity.
Qed.

Lemma VarLong_negative_single_byte_witness :
  -5000000001 < 0
  /\ VarLong.encode (-5000000001) = [127]
  /\ VarLong.decode ([] ++ VarLong.encode (-5000000001) ++ []) (blen [])
     = Ok (Int 127, 1).
Proof.
  assert (H : -5000000001 < 0) by reflexivity.
  refine (conj H (conj _ _)).
  - exact (proj1 (VarLong_negative_single_byte (-5000000001) [] [] H)).
  - exact (proj1 (proj2 (VarLong_negative_single_byte (-5000000001) [] [] H))).
Defined.

(** ** Further properties of the writer and the reader *)

(** X6.  Typed-value round trip: wherever the encoding of a well-formed
    value ([wf_value]: among other things its strings and keys hold no
    unpaired surrogate, and its integers are JS numbers not below -2^31 and
    not in [-128, -1]) sits in a buffer, [readValue] at its first byte
    returns the value and leaves the offset just behind the encoding. *)
Theorem typed_value_round_trip T v pre post (fuel : nat) :
  wf_value v = true ->
  (length (ProtocolWriter.writeValue T v) <= fuel)%nat ->
  readValue fuel (pre ++ ProtocolWriter.writeValue T v ++ post) (blen pre)
  = Ok (v, blen pre + blen (ProtocolWriter.writeValue T v)).
Proof.
  intros Hwf Hfuel. apply (readValue_writeValue T v Hwf fuel Hfuel).
Qed.

Lemma typed_value_round_trip_witness :
  let T : value -> number := fun _ => Int 0 in
  let v := VArr [VStr "hi"; VStr (string_of_list [0xC3; 0xA9; 0xE2; 0x82; 0xAC]);
                 VNum (Int (-300)); VNum (Dbl 0x3FF8000000000000);
                 VObj [("x"%string, VNum (Int 1)); ("y"%string, VNum (Int 2))];
                 VObj [("k"%string, VBuf [0; 255])]] in
  wf_value v = true
  /\ readValue 64 ([1; 2] ++ ProtocolWriter.writeValue T v ++ [3]) (blen [1; 2])
     = Ok (v, blen [1; 2] + blen (ProtocolWriter.writeValue T v)).
Proof.
  intros T v.
  assert (Hwf : wf_value v = true) by (vm_compute; reflexivity).
  assert (Hfuel : (length (ProtocolWriter.writeValue T v) <= 64)%nat)
    by (vm_compute; lia).
  refine (conj Hwf _).
  exact (typed_value_round_trip T v [1; 2] [3] 64 Hwf Hfuel).
Defined.

(** X7.  The writer starts every value with one of the type bytes NULL,
    BOOL, BYTE, SHORT, INT, LONG, FLOAT, STRING, BYTES, ARRAY, MAP, VEC2,
    VEC3, and never with DOUBLE: doubles are only decoded. *)
Theorem writer_never_emits_double T v :
  exists tag rest,
    ProtocolWriter.writeValue T v = tag :: rest
    /\ In tag [TYPE.NULL; TYPE.BOOL; TYPE.BYTE; TYPE.SHORT; TYPE.INT;
               TYPE.LONG; TYPE.FLOAT; TYPE.STRING; TYPE.BYTES; TYPE.ARRAY;
               TYPE.MAP; TYPE.VEC2; TYPE.VEC3]
    /\ tag <> TYPE.DOUBLE.
Proof.
  assert (Hin : forall tag rest,
             In tag [TYPE.NULL; TYPE.BOOL; TYPE.BYTE; TYPE.SHORT; TYPE.INT;
                     TYPE.LONG; TYPE.FLOAT; TYPE.STRING; TYPE.BYTES;
                     TYPE.ARRAY; TYPE.MAP; TYPE.VEC2; TYPE.VEC3] ->
             tag <> TYPE.DOUBLE ->
             exists tag' rest',
               tag :: rest = tag' :: rest'
               /\ In tag' [TYPE.NULL; TYPE.BOOL; TYPE.BYTE; TYPE.SHORT;
                           TYPE.INT; TYPE.LONG; TYPE.FLOAT; TYPE.STRING;
                           TYPE.BYTES; TYPE.ARRAY; TYPE.MAP; TYPE.VEC2;
                           TYPE.VEC3]
               /\ tag' <> TYPE.DOUBLE).
  { intros tag rest H1 H2. exists tag, rest. auto. }
  destruct v as [| | b | [z | w] | s | b | l | o].
  - apply (Hin 0 []); [simpl; tauto | discriminate].
  - apply (Hin 0 []); [simpl; tauto | discriminate].
  - apply (Hin 1); [simpl; tauto | discriminate].
  - rewrite writeValue_Int.
    destruct ((2147483647 <? z) || (z <? -2147483648));
      [apply (Hin 5); [simpl; tauto | discriminate] |].
    destruct ((-128 <=? z) && (z <=? 127));
      [apply (Hin 2); [simpl; tauto | discriminate] |].
    destruct ((-32768 <=? z) && (z <=? 32767));
      [apply (Hin 3); [simpl; tauto | discriminate] |].
    apply (Hin 4); [simpl; tauto | discriminate].
  - apply (Hin 6); [simpl; tauto | discriminate].
  - apply (Hin 8); [simpl; tauto | discriminate].
  - apply (Hin 9); [simpl; tauto | discriminate].
  - apply (Hin 10); [simpl; tauto | discriminate].
  - cbn [ProtocolWriter.writeValue].
    destruct (obj_defined o "x" && obj_defined o "y" && obj_defined o "z");
      [apply (Hin 13); [simpl; tauto | discriminate] |].
    destruct (obj_defined o "x" && obj_defined o "y");
      [apply (Hin 12); [simpl; tauto | discriminate] |].
    apply (Hin 11); [simpl; tauto | discriminate].
Qed.

(** The writer's output is a buffer of bytes as soon as the buffers inside
    the value are. *)
Lemma writeValue_bytes T v :
  buffers_ok v = true -> bytes_ok (ProtocolWriter.writeValue T v).
Proof.
  induction v as [| | b | n | s | b | l IH | o IH] using value_ind_nested;
    intros Hok.
  - apply writeByte_ok.
  - apply writeByte_ok.
  - apply bytes_ok_app; apply writeByte_ok.
  - destruct n as [z | w].
    + rewrite writeValue_Int.
      destruct ((2147483647 <? z) || (z <? -2147483648)).
      { apply bytes_ok_app;
          [exact (writeByte_ok TYPE.LONG) | apply VarLong_encode_loop_ok]. }
      destruct ((-128 <=? z) && (z <=? 127)).
      { apply bytes_ok_app; [exact (writeByte_ok TYPE.BYTE) |].
        apply writeByte_ok. }
      destruct ((-32768 <=? z) && (z <=? 32767)).
      { apply bytes_ok_app; [exact (writeByte_ok TYPE.SHORT) | apply be16_ok]. }
      apply bytes_ok_app; [exact (writeByte_ok TYPE.INT) | apply be32_ok].
    + apply bytes_ok_app; [apply writeByte_ok | apply be32_ok].
  - apply bytes_ok_app; [apply writeByte_ok | apply writeString_ok].
  - apply bytes_ok_app; [apply writeByte_ok |].
    apply bytes_ok_app; [apply writeVarInt_ok |].
    apply bytes_okb_spec. exact Hok.
  - cbn [buffers_ok] in Hok. rewrite forallb_forall in Hok.
    apply bytes_ok_app; [apply writeByte_ok |].
    apply bytes_ok_app; [apply writeVarInt_ok |].
    apply bytes_ok_flat_map. apply Forall_forall. intros v Hin.
    rewrite Forall_forall in IH. apply IH; [exact Hin | apply Hok, Hin].
  - cbn [ProtocolWriter.writeValue].
    destruct (obj_defined o "x" && obj_defined o "y" && obj_defined o "z").
    { repeat (apply bytes_ok_app; [first [apply writeByte_ok | apply be32_ok] |]).
      apply be32_ok. }
    destruct (obj_defined o "x" && obj_defined o "y").
    { repeat (apply bytes_ok_app; [first [apply writeByte_ok | apply be32_ok] |]).
      apply be32_ok. }
    cbn [buffers_ok] in Hok. rewrite forallb_forall in Hok.
    apply bytes_ok_app; [apply writeByte_ok |].
    apply bytes_ok_app; [apply writeVarInt_ok |].
    apply bytes_ok_flat_map. apply Forall_forall. intros [k v] Hin.
    rewrite Forall_forall in IH.
    apply bytes_ok_app; [apply writeString_ok |].
    apply (IH _ Hin). exact (Hok _ Hin).
Qed.

(** X8.  Whatever the payload, a packet made by [Packet.create] is a buffer
    of bytes as soon as the buffers inside the payload hold bytes, and it
    starts with the magic 0x42 0x4e, the version 1, the flags byte (1 when
    encrypted, else 0) and the opcode. *)
Theorem create_header_and_bytes T op data (enc : bool) :
  buffers_ok (VObj data) = true ->
  bytes_ok (Packet.create T op data enc)
  /\ firstn 5 (Packet.create T op data enc)
     = [0x42; 0x4e; 0x01; if enc then 1 else 0; OPCODE_value op].
Proof.
  intros Hok.
  pose proof (create_bytes T op data enc) as Hc. cbv zeta in Hc.
  split.
  - rewrite Hc.
    assert (Hpay : bytes_ok (ProtocolWriter.writeMap T data)).
    { rewrite writeMap_entries.
      apply bytes_ok_app; [apply writeVarInt_ok |].
      apply bytes_ok_flat_map. apply Forall_forall. intros [k v] Hin.
      cbn [buffers_ok] in Hok. rewrite forallb_forall in Hok.
      apply bytes_ok_app; [apply writeString_ok |].
      apply writeValue_bytes. exact (Hok _ Hin). }
    apply bytes_ok_app; [| constructor; [apply calculate_is_byte | constructor]].
    repeat (apply bytes_ok_app;
            [constructor; [| constructor]; unfold is_byte;
             first [lia | destruct enc; lia | destruct op; simpl; lia] |]).
    apply bytes_ok_app; [apply writeVarInt_ok |].
    destruct enc; [apply encrypt_from_bytes_ok | exact Hpay].
  - rewrite Hc. reflexivity.
Qed.

Lemma create_header_and_bytes_witness :
  let T : value -> number := fun _ => Int 0 in
  let data := [("blob"%string, VBuf [0; 255]);
               ("n"%string, VNum (Int (-5000000000)))] in
  buffers_ok (VObj data) = true
  /\ bytes_ok (Packet.create T CHAT_MESSAGE data true)
  /\ firstn 5 (Packet.create T CHAT_MESSAGE data true)
     = [0x42; 0x4e; 0x01; 1; OPCODE_value CHAT_MESSAGE].
Proof.
  intros T data.
  assert (H : buffers_ok (VObj data) = true) by reflexivity.
  refine (conj H _).
  exact (create_header_and_bytes T CHAT_MESSAGE data true H).
Defined.

Lemma obj_get_replace m k v k' :
  obj_get (obj_replace m k v) k'
  = if String.eqb k' k
    then match obj_get m k with Some _ => Some v | None => None end
    else obj_get m k'.
Proof.
  induction m as [| [a x] m IH]; simpl.
  - destruct (String.eqb k' k); reflexivity.
  - destruct (String.eqb_spec a k) as [-> | Hak]; simpl.
    + destruct (String.eqb_spec k k') as [-> | Hkk'].
      * rewrite String.eqb_refl. reflexivity.
      * destruct (String.eqb_spec k' k); [congruence | reflexivity].
    + destruct (String.eqb_spec a k') as [-> | Hak'].
      * destruct (String.eqb_spec k' k); [congruence | reflexivity].
      * exact IH.
Qed.

Lemma obj_get_app m m' k :
  obj_get (m ++ m') k
  = match obj_get m k with Some v => Some v | None => obj_get m' k end.
Proof.
  induction m as [| [a x] m IH]; simpl; [reflexivity |].
  destruct (String.eqb a k); [reflexivity | exact IH].
Qed.

Lemma obj_get_set m k v k' :
  String.eqb k "__proto__" = false ->
  obj_get (obj_set m k v) k' = if String.eqb k' k then Some v else obj_get m k'.
Proof.
  intros Hp. unfold obj_set. rewrite Hp.
  destruct (obj_get m k) as [x |] eqn:Hg.
  - rewrite obj_get_replace, Hg. reflexivity.
  - rewrite obj_get_app. simpl.
    destruct (String.eqb_spec k' k) as [-> | Hne].
    + rewrite Hg, String.eqb_refl. reflexivity.
    + destruct (String.eqb_spec k k'); [congruence |].
      destruct (obj_get m k'); reflexivity.
Qed.

Lemma map_fst_replace m k v : map fst (obj_replace m k v) = map fst m.
Proof.
  induction m as [| [a x] m IH]; simpl; [reflexivity |].
  destruct (String.eqb a k); simpl; [reflexivity | rewrite IH; reflexivity].
Qed.

Lemma keys_distinct_keys m m' :
  map fst m = map fst m' -> keys_distinct m = keys_distinct m'.
Proof.
  revert m'. induction m as [| [a x] m IH]; intros [| [b y] m'] H;
    try discriminate; [reflexivity |].
  simpl in H. injection H as -> H. simpl. rewrite H. f_equal. apply IH, H.
Qed.

Lemma obj_get_None_keys m k :
  obj_get m k = None -> existsb (String.eqb k) (map fst m) = false.
Proof.
  induction m as [| [a x] m IH]; simpl; [reflexivity |].
  destruct (String.eqb_spec a k) as [-> | Hne]; [discriminate |].
  intros H. rewrite (IH H).
  destruct (String.eqb_spec k a); [congruence | reflexivity].
Qed.

Lemma keys_distinct_snoc m k v :
  keys_distinct m = true -> obj_get m k = None ->
  keys_distinct (m ++ [(k, v)]) = true.
Proof.
  induction m as [| [a x] m IH]; simpl; intros Hd Hg; [reflexivity |].
  apply andb_true_iff in Hd. destruct Hd as [Ha Hd].
  destruct (String.eqb_spec a k) as [-> | Hne]; [discriminate |].
  rewrite IH by assumption. rewrite andb_true_r.
  rewrite map_app, existsb_app. apply negb_true_iff in Ha. rewrite Ha. simpl.
  destruct (String.eqb_spec a k); [congruence | reflexivity].
Qed.

Lemma keys_distinct_set m k v :
  keys_distinct m = true -> keys_distinct (obj_set m k v) = true.
Proof.
  intros Hd. unfold obj_set. destruct (String.eqb k "__proto__"); [exact Hd |].
  destruct (obj_get m k) eqn:Hg.
  - rewrite (keys_distinct_keys _ m (map_fst_replace m k v)). exact Hd.
  - apply keys_distinct_snoc; assumption.
Qed.

Lemma assign_all_distinct entries :
  forall m, keys_distinct m = true ->
            keys_distinct (assign_all entries m) = true.
Proof.
  induction entries as [| [k v] entries IH]; intros m Hd; [exact Hd |].
  apply IH. apply keys_distinct_set. exact Hd.
Qed.

Lemma assign_all_get entries :
  forall m k,
    Forall (fun kv => String.eqb (fst kv) "__proto__" = false) entries ->
    obj_get (assign_all entries m) k
    = match obj_get (rev entries) k with
      | Some v => Some v
      | None => obj_get m k
      end.
Proof.
  induction entries as [| [a x] entries IH]; intros m k Hp; [reflexivity |].
  inversion Hp as [| ? ? Ha Hrest]; subst. simpl in Ha.
  change (assign_all ((a, x) :: entries) m)
    with (assign_all entries (obj_set m a x)).
  rewrite IH by assumption. simpl rev. rewrite obj_get_app.
  destruct (obj_get (rev entries) k); [reflexivity |].
  rewrite obj_get_set by assumption. simpl.
  destruct (String.eqb_spec a k) as [-> | Hne].
  - rewrite String.eqb_refl. reflexivity.
  - destruct (String.eqb_spec k a); [congruence | reflexivity].
Qed.

Lemma reads_readMap_loop_any T (rv : M value) l :
  Forall (fun kv => key_ok (fst kv) = true
                    /\ reads rv (ProtocolWriter.writeValue T (snd kv)) (snd kv))
         l ->
  forall fuel i acc,
    (length l <= fuel)%nat ->
    reads (readMap_loop rv fuel i (i + Z.of_nat (length l)) acc)
          (flat_map (entry_bytes T) l) (assign_all l acc).
Proof.
  induction 1 as [| [k v] l [Hk Hv] Hl IH]; intros fuel i acc Hfuel.
  - rewrite readMap_loop_done by (simpl length; lia). apply reads_ret.
  - destruct fuel as [| fuel]; [simpl in Hfuel; lia |].
    rewrite readMap_loop_step by (simpl length; lia).
    simpl fst in Hk. simpl snd in Hv.
    change (flat_map (entry_bytes T) ((k, v) :: l))
      with ((ProtocolWriter.writeString k ++ ProtocolWriter.writeValue T v)
              ++ flat_map (entry_bytes T) l).
    rewrite <- app_assoc.
    apply key_ok_spec in Hk. destruct Hk as (_ & Hu & Hlen).
    eapply reads_bind; [apply reads_readString; [exact Hu | exact Hlen] |].
    eapply reads_bind; [exact Hv |].
    replace (i + Z.of_nat (length ((k, v) :: l)))
      with (i + 1 + Z.of_nat (length l)) by (simpl length; lia).
    change (assign_all ((k, v) :: l) acc)
      with (assign_all l (obj_set acc k v)).
    apply IH. simpl in Hfuel. lia.
Qed.

(** X9.  Duplicate keys are overwritten silently.  When the entries of an
    encoded map repeat a key, [readMap] does not fail: the map it returns
    has each key once and holds for each key the value of its last
    occurrence in the encoding. *)
Theorem readMap_overwrites_duplicate_keys T entries pre post :
  Forall (fun kv => key_ok (fst kv) = true /\ wf_value (snd kv) = true)
         entries ->
  Z.of_nat (length entries) < 2 ^ 31 ->
  let bytes := ProtocolWriter.writeVarInt (Z.of_nat (length entries))
                 ++ flat_map (entry_bytes T) entries in
  exists map,
    readMap (S (length bytes)) (pre ++ bytes ++ post) (blen pre)
    = Ok (map, blen pre + blen bytes)
    /\ keys_distinct map = true
    /\ (forall k, obj_get map k = obj_get (rev entries) k).
Proof.
  intros Hall Hlen bytes. exists (assign_all entries []).
  split; [| split].
  - assert (Hr : reads (readMap (S (length bytes))) bytes
                       (assign_all entries [])).
    { subst bytes. unfold readMap, readMap_with.
      eapply reads_bind; [apply reads_readVarInt; lia |].
      apply (reads_readMap_loop_any T _ entries) with (i := 0).
      - apply Forall_forall. intros kv Hin.
        rewrite Forall_forall in Hall. destruct (Hall kv Hin) as [Hk Hv].
        split; [exact Hk |]. apply readValue_writeValue; [exact Hv |].
        pose proof (length_flat_map_in (entry_bytes T) entries kv Hin) as Hle.
        destruct kv as [k v]. unfold entry_bytes in Hle at 1.
        rewrite length_app in Hle. rewrite length_app. simpl snd. lia.
      - pose proof (length_flat_map_ge (entry_bytes T) entries
                                       (entry_bytes_nonempty T)).
        rewrite length_app. lia. }
    apply Hr.
  - apply assign_all_distinct. reflexivity.
  - intros k. rewrite assign_all_get.
    + destruct (obj_get (rev entries) k); reflexivity.
    + apply Forall_forall. intros kv Hin.
      rewrite Forall_forall in Hall. destruct (Hall kv Hin) as [Hk _].
      apply key_ok_spec in Hk. destruct Hk as [Hk _]. exact Hk.
Qed.

Lemma readMap_overwrites_duplicate_keys_witness :
  let T : value -> number := fun _ => Int 0 in
  let entries := [("a"%string, VNum (Int 1)); ("b"%string, VNull);
                  ("a"%string, VStr "last")] in
  let bytes := ProtocolWriter.writeVarInt 3 ++ flat_map (entry_bytes T) entries in
  exists map,
    readMap (S (length bytes)) ([] ++ bytes ++ []) (blen [])
    = Ok (map, blen [] + blen bytes)
    /\ keys_distinct map = true
    /\ obj_get map "a" = Some (VStr "last")
    /\ obj_get map "b" = Some VNull.
Proof.
  intros T entries bytes.
  assert (Hall : Forall (fun kv => key_ok (fst kv) = true
                                   /\ wf_value (snd kv) = true) entries)
    by (repeat constructor).
  assert (Hlen : Z.of_nat (length entries) < 2 ^ 31) by reflexivity.
  destruct (readMap_overwrites_duplicate_keys T entries [] [] Hall Hlen)
    as (map & Hr & Hd & Hg).
  exists map. split; [exact Hr |]. split; [exact Hd |].
  split; [exact (Hg "a"%string) | exact (Hg "b"%string)].
Defined.

Lemma reads_readFloat_any T v :
  reads readFloat (ProtocolWriter.writeFloat T v)
        (fround (ProtocolWriter.ToNumber T v)).
Proof.
  unfold readFloat, ProtocolWriter.writeFloat, fround.
  set (w := IEEE.encode IEEE.binary32
              (fp_of_number (ProtocolWriter.ToNumber T v))).
  apply (reads_map (readBE 4)
                   (fun w => number_of_fp (IEEE.decode IEEE.binary32 w))
                   (be32 w) (of_be (be32 w) 0)).
  - apply (reads_readBE (be32 w)).
  - rewrite of_be_be32_mod.
    assert (Hw : 0 <= w < 2 ^ 32)
      by (apply (encode_range IEEE.binary32); left; reflexivity).
    rewrite Z.mod_small by exact Hw. reflexivity.
Qed.

(** X24.  An object that has both an x and a y is written as a vector,
    whatever else it holds.  Its encoding is the VEC2 tag and two 32-bit
    floats, or the VEC3 tag and three when it has a z as well, and it reads
    back as the object of these two or three coordinates only, each
    converted to a number and rounded to a 32-bit float: every other key
    is lost. *)
Theorem vector_like_object_keeps_only_coordinates
        T (o : object) (fuel : nat) (pre post : list Z) :
  obj_defined o "x" = true ->
  obj_defined o "y" = true ->
  let coordinate key :=
    (key, VNum (fround (ProtocolWriter.ToNumber
                          T (ProtocolWriter.prop o key)))) in
  readValue (S fuel) (pre ++ ProtocolWriter.writeValue T (VObj o) ++ post)
            (blen pre)
  = Ok (VObj (coordinate "x"%string :: coordinate "y"%string
                :: (if obj_defined o "z" then [coordinate "z"%string]
                    else [])),
        blen pre + (if obj_defined o "z" then 13 else 9)).
Proof.
  intros Hx Hy coordinate. subst coordinate.
  cbn [ProtocolWriter.writeValue]. rewrite Hx, Hy. cbn [andb].
  destruct (obj_defined o "z").
  - change (ProtocolWriter.writeByte TYPE.VEC3) with [TYPE.VEC3].
    assert (Hr : reads (readValue (S fuel))
                   ([TYPE.VEC3]
                      ++ ProtocolWriter.writeFloat T (ProtocolWriter.prop o "x")
                      ++ ProtocolWriter.writeFloat T (ProtocolWriter.prop o "y")
                      ++ ProtocolWriter.writeFloat T (ProtocolWriter.prop o "z"))
                   (VObj [("x"%string,
                           VNum (fround (ProtocolWriter.ToNumber
                                           T (ProtocolWriter.prop o "x"))));
                          ("y"%string,
                           VNum (fround (ProtocolWriter.ToNumber
                                           T (ProtocolWriter.prop o "y"))));
                          ("z"%string,
                           VNum (fround (ProtocolWriter.ToNumber
                                           T (ProtocolWriter.prop o "z"))))])).
    { apply reads_tagged. unfold readValue_switch, TYPE.VEC3.
      eapply reads_bind; [apply reads_readFloat_any |].
      eapply reads_bind; [apply reads_readFloat_any |].
      eapply reads_eq; [| apply app_nil_r].
      eapply reads_bind; [apply reads_readFloat_any |].
      apply reads_ret. }
    rewrite (Hr pre post). reflexivity.
  - change (ProtocolWriter.writeByte TYPE.VEC2) with [TYPE.VEC2].
    assert (Hr : reads (readValue (S fuel))
                   ([TYPE.VEC2]
                      ++ ProtocolWriter.writeFloat T (ProtocolWriter.prop o "x")
                      ++ ProtocolWriter.writeFloat T (ProtocolWriter.prop o "y"))
                   (VObj [("x"%string,
                           VNum (fround (ProtocolWriter.ToNumber
                                           T (ProtocolWriter.prop o "x"))));
                          ("y"%string,
                           VNum (fround (ProtocolWriter.ToNumber
                                           T (ProtocolWriter.prop o "y"))))])).
    { apply reads_tagged. unfold readValue_switch, TYPE.VEC2.
      eapply reads_bind; [apply reads_readFloat_any |].
      eapply reads_eq; [| apply app_nil_r].
      eapply reads_bind; [apply reads_readFloat_any |].
      apply reads_ret. }
    rewrite (Hr pre post). reflexivity.
Qed.

Lemma vector_like_object_keeps_only_coordinates_witness :
  let T : value -> number := fun _ => Dbl (IEEE.encode IEEE.binary64 NaN) in
  let o := [("name"%string, VStr "door"); ("x"%string, VNum (Int 1));
            ("open"%string, VBool true); ("y"%string, VBool true)] in
  obj_defined o "x" = true
  /\ obj_defined o "y" = true
  /\ readValue 1 ([] ++ ProtocolWriter.writeValue T (VObj o) ++ []) (blen [])
     = Ok (VObj [("x"%string, VNum (Int 1)); ("y"%string, VNum (Int 1))], 9).
Proof.
  intros T o.
  assert (Hx : obj_defined o "x" = true) by reflexivity.
  assert (Hy : obj_defined o "y" = true) by reflexivity.
  refine (conj Hx (conj Hy _)).
  refine (eq_trans
            (vector_like_object_keeps_only_coordinates T o 0 [] [] Hx Hy) _).
  vm_compute. reflexivity.
Defined.

(** ** Further properties of packets and of the bridge *)

Lemma underflows_bind_l {A B} (m : M A) (k : A -> M B) bytes :
  underflows m bytes -> underflows (bind m k) bytes.
Proof. intros H pre. unfold bind. rewrite H. reflexivity. Qed.

Lemma underflows_bind_r {A B} (m : M A) (k : A -> M B) b1 b2 a :
  reads m b1 a -> underflows (k a) b2 -> underflows (bind m k) (b1 ++ b2).
Proof.
  intros H1 H2 pre. unfold bind. rewrite H1.
  specialize (H2 (pre ++ b1)). rewrite blen_app, <- app_assoc in H2.
  exact H2.
Qed.

Lemma underflows_readByte {A} (k : option Z -> M A) :
  underflows (bind readByte k) [].
Proof.
  apply underflows_bind_l. intros pre. unfold readByte, hasBytes.
  rewrite app_nil_r.
  destruct (Z.leb_spec (blen pre + 1) (blen pre)); [lia | reflexivity].
Qed.

Lemma underflows_read length bytes :
  blen bytes < length -> underflows (read length) bytes.
Proof.
  intros Hl pre. unfold read, hasBytes. rewrite blen_app.
  destruct (Z.leb_spec (blen pre + length) (blen pre + blen bytes));
    [lia | reflexivity].
Qed.

Lemma underflows_readVarInt n (k : nat) :
  (k < length (VarInt.encode n))%nat ->
  underflows readVarInt (firstn k (VarInt.encode n)).
Proof.
  intros Hk pre. unfold readVarInt, VarInt.decode.
  assert (Hp := blen_nonneg pre).
  destruct (Z.ltb_spec (blen pre) 0); [lia |].
  unfold blen. rewrite Nat2Z.id, skipn_app, skipn_all, Nat.sub_diag.
  rewrite skipn_O, app_nil_l. unfold VarInt.encode in *.
  rewrite decode_loop_truncated by exact Hk. reflexivity.
Qed.

(** The frame of a packet is not read from a buffer that stops short of
    its last byte. *)
Lemma parse_frame_prefix_underflows B op (enc : bool) payload cs (k : nat) :
  0 <= blen payload < 2 ^ 31 ->
  let packet :=
    [0x42] ++ [0x4e] ++ [0x01] ++ [if enc then 0x01 else 0x00]
      ++ [OPCODE_value op] ++ VarInt.encode (blen payload) ++ payload ++ [cs] in
  (k < length packet)%nat ->
  Packet.parse_frame B (firstn k packet) 0 = Throw BufferUnderflow.
Proof.
  intros Hlen packet Hk.
  assert (Hgen : underflows (Packet.parse_frame B) (firstn k packet)).
  { subst packet. unfold Packet.parse_frame.
    destruct k as [| k]; [apply underflows_readByte |].
    change (firstn (S k) ([0x42] ++ ?r)) with ([0x42] ++ firstn k r).
    eapply underflows_bind_r; [apply reads_readByte |].
    destruct k as [| k]; [apply underflows_readByte |].
    change (firstn (S k) ([0x4e] ++ ?r)) with ([0x4e] ++ firstn k r).
    eapply underflows_bind_r; [apply reads_readByte |]. cbv beta iota.
    destruct k as [| k]; [apply underflows_readByte |].
    change (firstn (S k) ([0x01] ++ ?r)) with ([0x01] ++ firstn k r).
    eapply underflows_bind_r; [apply reads_readByte |]. cbv beta iota.
    destruct k as [| k]; [apply underflows_readByte |].
    change (firstn (S k) ([if enc then 0x01 else 0x00] ++ ?r))
      with ([if enc then 0x01 else 0x00] ++ firstn k r).
    eapply underflows_bind_r; [apply reads_readByte |].
    destruct k as [| k]; [apply underflows_readByte |].
    change (firstn (S k) ([OPCODE_value op] ++ ?r))
      with ([OPCODE_value op] ++ firstn k r).
    eapply underflows_bind_r; [apply reads_readByte |].
    simpl length in Hk. rewrite !length_app in Hk. simpl length in Hk.
    rewrite firstn_app.
    destruct (Nat.ltb_spec k (length (VarInt.encode (blen payload))))
      as [Hshort | Hge].
    - replace (k - length (VarInt.encode (blen payload)))%nat with 0%nat by lia.
      rewrite firstn_O, app_nil_r.
      apply underflows_bind_l. apply underflows_readVarInt. exact Hshort.
    - rewrite firstn_all2 by exact Hge.
      eapply underflows_bind_r; [apply reads_readVarInt; exact Hlen |].
      set (j := (k - length (VarInt.encode (blen payload)))%nat).
      assert (Hj : (j <= length payload)%nat) by lia.
      rewrite firstn_app.
      destruct (Nat.ltb_spec j (length payload)) as [Hcut | Hfull].
      + replace (j - length payload)%nat with 0%nat by lia.
        rewrite firstn_O, app_nil_r.
        apply underflows_bind_l. apply underflows_read.
        unfold blen. rewrite length_firstn. lia.
      + assert (j = length payload) by lia.
        rewrite firstn_all2 by lia.
        replace (j - length payload)%nat with 0%nat by lia. rewrite firstn_O.
        eapply underflows_bind_r; [apply reads_read |].
        apply underflows_readByte. }
  specialize (Hgen []). exact Hgen.
Qed.

Lemma VarInt_encode_nonempty n : (1 <= length (VarInt.encode n))%nat.
Proof.
  unfold VarInt.encode. generalize (if n <? 0 then to_uint32 n else n).
  generalize 5%nat. intros fuel v.
  destruct fuel; cbn [VarInt.encode_loop]; [cbn [length]; lia |].
  destruct (127 <? v); cbn [length]; lia.
Qed.

Lemma create_sections T op data (enc : bool) :
  let payload0 := ProtocolWriter.writeMap T data in
  let payload :=
    if enc then Cipher.encrypt Cipher.default_key payload0 else payload0 in
  exists cs,
    Packet.create T op data enc
    = [0x42] ++ [0x4e] ++ [0x01] ++ [if enc then 0x01 else 0x00]
        ++ [OPCODE_value op] ++ VarInt.encode (blen payload) ++ payload
        ++ [cs]
    /\ Checksum.verify
         (slice (Packet.create T op data enc) 0
                (blen (Packet.create T op data enc) - 1)) cs = true
    /\ blen payload = blen payload0.
Proof.
  intros payload0 payload.
  pose proof (create_bytes T op data enc) as Hc. cbv zeta in Hc.
  fold payload0 in Hc. fold payload in Hc.
  eexists. split; [| split].
  - rewrite Hc. rewrite <- !app_assoc. reflexivity.
  - rewrite Hc. rewrite slice_init. unfold Checksum.verify. apply Z.eqb_refl.
  - subst payload. destruct enc; [| reflexivity].
    unfold blen, Cipher.encrypt. rewrite encrypt_from_length. reflexivity.
Qed.

Lemma parse_frame_prefix_created B T op data (enc : bool) (k : nat) :
  blen (ProtocolWriter.writeMap T data) < 2 ^ 31 ->
  (k < length (Packet.create T op data enc))%nat ->
  Packet.parse_frame B (firstn k (Packet.create T op data enc)) 0
  = Throw BufferUnderflow.
Proof.
  intros Hlen Hk.
  destruct (create_sections T op data enc) as [cs [Hc [_ Hpl]]].
  cbv zeta in Hc. rewrite Hc in *.
  apply parse_frame_prefix_underflows; [| exact Hk].
  rewrite Hpl. pose proof (blen_nonneg (ProtocolWriter.writeMap T data)). lia.
Qed.

(** X10.  [Packet.parse] throws 'Buffer underflow' on every buffer that
    stops short of the last byte of a packet made by [Packet.create],
    whatever the payload map (its encoding shorter than 2^31 bytes): the
    error on which the receive loops keep the bytes and wait for more. *)
Theorem parse_waits_for_whole_packet T op data (enc : bool) (k : nat) :
  blen (ProtocolWriter.writeMap T data) < 2 ^ 31 ->
  (k < length (Packet.create T op data enc))%nat ->
  Packet.parse (firstn k (Packet.create T op data enc))
  = Throw BufferUnderflow.
Proof.
  intros Hlen Hk. unfold Packet.parse.
  rewrite parse_frame_prefix_created by assumption. reflexivity.
Qed.

Lemma parse_waits_for_whole_packet_witness :
  let T : value -> number := fun _ => Int 0 in
  let data := [("room"%string, VStr "lobby"); ("n"%string, VNum (Int 1000))] in
  blen (ProtocolWriter.writeMap T data) < 2 ^ 31
  /\ (17 < length (Packet.create T CHAT_MESSAGE data true))%nat
  /\ Packet.parse (firstn 17 (Packet.create T CHAT_MESSAGE data true))
     = Throw BufferUnderflow.
Proof.
  intros T data.
  assert (H1 : blen (ProtocolWriter.writeMap T data) < 2 ^ 31)
    by (vm_compute; reflexivity).
  assert (H2 : (17 < length (Packet.create T CHAT_MESSAGE data true))%nat)
    by (vm_compute; lia).
  refine (conj H1 (conj H2 _)).
  exact (parse_waits_for_whole_packet T CHAT_MESSAGE data true 17 H1 H2).
Defined.

Lemma parse_created T op data (enc : bool) :
  wf_map data = true ->
  blen (ProtocolWriter.writeMap T data) < 2 ^ 31 ->
  Packet.parse (Packet.create T op data enc)
  = Ok {| Packet.opcode := Some (OPCODE_value op);
          Packet.data := data;
          Packet.isEncrypted := enc |}.
Proof.
  intros Hwf Hlen.
  destruct (create_sections T op data enc) as [cs [Hc [Hcs Hpl]]].
  cbv zeta in Hc, Hpl.
  set (payload0 := ProtocolWriter.writeMap T data) in *.
  set (payload := if enc then Cipher.encrypt Cipher.default_key payload0
                  else payload0) in *.
  assert (Hdec : (if enc then Cipher.decrypt Cipher.default_key payload
                  else payload) = payload0).
  { subst payload. destruct enc; [| reflexivity].
    unfold Cipher.decrypt, Cipher.encrypt.
    apply encrypt_from_involutive. apply writeMap_ok. exact Hwf. }
  pose proof (parse_frame_reads (Packet.create T op data enc) op enc payload
                cs ltac:(pose proof (blen_nonneg payload); lia) Hcs [] [])
    as Hp.
  rewrite app_nil_r in Hp. rewrite app_nil_l in Hp.
  unfold Packet.parse. rewrite Hc at 2. change (blen []) with 0 in Hp.
  rewrite Hp, Hdec. subst payload0.
  rewrite readMap_writeMap by exact Hwf. reflexivity.
Qed.

Lemma create_length T op data (enc : bool) :
  (8 <= length (Packet.create T op data enc))%nat.
Proof.
  destruct (create_sections T op data enc) as [cs [Hc [_ Hpl]]].
  cbv zeta in Hc, Hpl.
  set (payload := if enc then Cipher.encrypt _ _ else _) in *.
  pose proof (VarInt_encode_nonempty (blen payload)) as Hv.
  assert (1 <= length payload)%nat.
  { unfold blen in Hpl. apply Nat2Z.inj in Hpl. rewrite Hpl.
    unfold ProtocolWriter.writeMap. rewrite length_app.
    pose proof (VarInt_encode_nonempty (Z.of_nat (length data))).
    unfold ProtocolWriter.writeVarInt. lia. }
  rewrite Hc. rewrite !length_app. cbn [length]. lia.
Qed.

Lemma drain_short fuel wsOpen tcpBuffer sent :
  blen tcpBuffer < 6 ->
  WebSocketBridge.drain fuel wsOpen tcpBuffer sent = Some (tcpBuffer, sent).
Proof.
  intros H. destruct fuel; simpl;
    destruct (Z.leb_spec 6 (blen tcpBuffer)); try lia; reflexivity.
Qed.

Lemma onData_prefix T op data (enc : bool) wsOpen tcpBuffer chunk :
  blen (ProtocolWriter.writeMap T data) < 2 ^ 31 ->
  (length (tcpBuffer ++ chunk) < length (Packet.create T op data enc))%nat ->
  tcpBuffer ++ chunk
  = firstn (length (tcpBuffer ++ chunk)) (Packet.create T op data enc) ->
  WebSocketBridge.onData wsOpen tcpBuffer chunk
  = Some (tcpBuffer ++ chunk, []).
Proof.
  intros Hlen Hshort Hpre. unfold WebSocketBridge.onData.
  cbn [WebSocketBridge.drain].
  destruct (6 <=? blen (tcpBuffer ++ chunk)); [| reflexivity].
  cbn [negb]. rewrite Hpre at 1. unfold Packet.parse.
  rewrite parse_frame_prefix_created by assumption. reflexivity.
Qed.

Lemma onData_complete T op data (enc : bool) wsOpen tcpBuffer chunk :
  wf_map data = true ->
  blen (ProtocolWriter.writeMap T data) < 2 ^ 31 ->
  tcpBuffer ++ chunk = Packet.create T op data enc ->
  WebSocketBridge.onData wsOpen tcpBuffer chunk
  = Some ([], if wsOpen
              then [{| Packet.opcode := Some (OPCODE_value op);
                       Packet.data := data;
                       Packet.isEncrypted := enc |}]
              else []).
Proof.
  intros Hwf Hlen Heq. unfold WebSocketBridge.onData.
  cbn [WebSocketBridge.drain]. rewrite Heq.
  pose proof (create_length T op data enc) as H8.
  destruct (Z.leb_spec 6 (blen (Packet.create T op data enc))) as [_ | Hlt];
    [| unfold blen in Hlt; lia].
  cbn [negb]. rewrite parse_created by assumption.
  rewrite drain_short by (vm_compute; reflexivity).
  destruct wsOpen; reflexivity.
Qed.

Lemma onData_all_empty wsOpen chunks sent :
  concat chunks = [] ->
  onData_all wsOpen [] chunks sent = Some ([], sent).
Proof.
  revert sent. induction chunks as [| c chunks IH]; intros sent H.
  - reflexivity.
  - simpl in H. apply app_eq_nil in H. destruct H as [-> H].
    cbn [onData_all]. unfold WebSocketBridge.onData.
    rewrite drain_short by (vm_compute; reflexivity).
    rewrite IH by exact H. rewrite app_nil_r. reflexivity.
Qed.

(** X11.  However the bytes of one packet made by [Packet.create] (payload
    map well formed, encoding shorter than 2^31 bytes) are cut into the
    chunks of successive 'data' events, the bridge, started with an empty
    receive buffer, forwards the packet exactly once, when its last byte
    has arrived and if the WebSocket is open, and ends with an empty
    receive buffer. *)
Theorem bridge_reassembles_split_packet T op data (enc : bool) wsOpen chunks :
  wf_map data = true ->
  blen (ProtocolWriter.writeMap T data) < 2 ^ 31 ->
  concat chunks = Packet.create T op data enc ->
  onData_all wsOpen [] chunks []
  = Some ([], if wsOpen
              then [{| Packet.opcode := Some (OPCODE_value op);
                       Packet.data := data;
                       Packet.isEncrypted := enc |}]
              else []).
Proof.
  intros Hwf Hlen.
  set (packet := Packet.create T op data enc).
  assert (Hgen : forall chunks tcpBuffer,
             tcpBuffer ++ concat chunks = packet ->
             (length tcpBuffer < length packet)%nat ->
             onData_all wsOpen tcpBuffer chunks []
             = Some ([], if wsOpen
                         then [{| Packet.opcode := Some (OPCODE_value op);
                                  Packet.data := data;
                                  Packet.isEncrypted := enc |}]
                         else [])).
  { clear chunks. induction chunks as [| c chunks IH]; intros buf Heq Hshort.
    - simpl in Heq. rewrite app_nil_r in Heq. subst buf. lia.
    - cbn [onData_all]. simpl concat in Heq. rewrite app_assoc in Heq.
      destruct (Nat.ltb_spec (length (buf ++ c)) (length packet))
        as [Hlt | Hge].
      + rewrite (onData_prefix T op data enc) by
          (try assumption; fold packet; rewrite <- Heq;
           rewrite firstn_app, firstn_all, Nat.sub_diag, firstn_O, app_nil_r;
           reflexivity).
        apply IH; assumption.
      + assert (Hrest : concat chunks = []).
        { apply length_zero_iff_nil.
          apply (f_equal (@length Z)) in Heq. rewrite length_app in Heq. lia. }
        rewrite Hrest, app_nil_r in Heq.
        rewrite (onData_complete T op data enc) by assumption.
        rewrite onData_all_empty by exact Hrest. reflexivity. }
  intros Hc. apply Hgen; [exact Hc |].
  pose proof (create_length T op data enc). fold packet in H. simpl. lia.
Qed.

Lemma bridge_reassembles_split_packet_witness :
  let T : value -> number := fun _ => Int 0 in
  let data := [("room"%string, VStr "lobby"); ("n"%string, VNum (Int 1000))] in
  let packet := Packet.create T CHAT_MESSAGE data false in
  let chunks := [firstn 3 packet; []; firstn 9 (skipn 3 packet);
                 skipn 12 packet] in
  wf_map data = true
  /\ blen (ProtocolWriter.writeMap T data) < 2 ^ 31
  /\ concat chunks = packet
  /\ onData_all true [] chunks []
     = Some ([], [{| Packet.opcode := Some (OPCODE_value CHAT_MESSAGE);
                     Packet.data := data;
                     Packet.isEncrypted := false |}]).
Proof.
  intros T data packet chunks.
  assert (H1 : wf_map data = true) by (vm_compute; reflexivity).
  assert (H2 : blen (ProtocolWriter.writeMap T data) < 2 ^ 31)
    by (vm_compute; reflexivity).
  assert (H3 : concat chunks = packet) by (vm_compute; reflexivity).
  refine (conj H1 (conj H2 (conj H3 _))).
  exact (bridge_reassembles_split_packet T CHAT_MESSAGE data false true chunks
           H1 H2 H3).
Defined.

Lemma magic_match {A} (m1 m2 : Z) (a b : A) :
  match Some m1, Some m2 with
  | Some 0x42, Some 0x4e => a
  | _, _ => b
  end = if (m1 =? 0x42) && (m2 =? 0x4e) then a else b.
Proof.
  destruct m1 as [| p | p]; try reflexivity.
  do 7 (destruct p as [p | p |]; try reflexivity).
  destruct m2 as [| q | q]; try reflexivity.
  do 7 (destruct q as [q | q |]; try reflexivity).
Qed.

Lemma version_match {A} (v : Z) (a b : A) :
  match Some v with
  | Some 0x01 => a
  | _ => b
  end = if v =? 0x01 then a else b.
Proof.
  destruct v as [| p | p]; try reflexivity.
  destruct p; reflexivity.
Qed.

Lemma readByte_at buffer offset (pre : list Z) b post :
  buffer = pre ++ b :: post -> offset = blen pre ->
  readByte buffer offset = Ok (Some b, offset + 1).
Proof. intros -> ->. exact (reads_readByte b pre post). Qed.

Ltac read_byte pre :=
  match goal with
  | |- context [readByte ?buffer ?offset] =>
      erewrite (readByte_at buffer offset pre) by reflexivity
  end.

Lemma parse_frame_bad_magic B m1 m2 rest :
  m1 <> 0x42 \/ m2 <> 0x4e ->
  Packet.parse_frame B (m1 :: m2 :: rest) 0 = Throw InvalidMagic.
Proof.
  intros H. unfold Packet.parse_frame, bind.
  read_byte (@nil Z). read_byte ([m1]). rewrite magic_match.
  destruct (Z.eqb_spec m1 0x42) as [-> | H1]; [| reflexivity].
  destruct (Z.eqb_spec m2 0x4e) as [-> | H2]; [| reflexivity].
  destruct H as [H | H]; exfalso; apply H; reflexivity.
Qed.

Lemma parse_frame_bad_version B v rest :
  v <> 0x01 ->
  Packet.parse_frame B (0x42 :: 0x4e :: v :: rest) 0
  = Throw UnsupportedVersion.
Proof.
  intros H. unfold Packet.parse_frame, bind.
  read_byte (@nil Z). read_byte ([0x42]). cbv beta iota.
  read_byte ([0x42; 0x4e]). rewrite version_match.
  destruct (Z.eqb_spec v 0x01) as [-> | Hv]; [| reflexivity].
  exfalso; apply H; reflexivity.
Qed.

(** X12.  The header checks of [Packet.parse], in the order the code makes
    them and before any checksum is looked at: a buffer of fewer than two
    bytes fails with 'Buffer underflow'; a buffer whose first two bytes are
    not 0x42 0x4e fails with 'Invalid packet magic'; the two magic bytes
    alone fail with 'Buffer underflow'; and after the magic a version byte
    other than 1 fails with 'Unsupported version', whatever follows. *)
Theorem parse_rejects_bad_header :
  (forall b, (length b < 2)%nat -> Packet.parse b = Throw BufferUnderflow)
  /\ (forall m1 m2 rest,
         m1 <> 0x42 \/ m2 <> 0x4e ->
         Packet.parse (m1 :: m2 :: rest) = Throw InvalidMagic)
  /\ Packet.parse [0x42; 0x4e] = Throw BufferUnderflow
  /\ (forall v rest,
         v <> 0x01 ->
         Packet.parse (0x42 :: 0x4e :: v :: rest) = Throw UnsupportedVersion).
Proof.
  split; [| split; [| split]].
  - intros b Hb.
    destruct b as [| m1 [| m2 rest]]; [reflexivity | | simpl in Hb; lia].
    unfold Packet.parse, Packet.parse_frame, bind.
    read_byte (@nil Z). reflexivity.
  - intros m1 m2 rest H. unfold Packet.parse.
    rewrite parse_frame_bad_magic by exact H. reflexivity.
  - reflexivity.
  - intros v rest Hv. unfold Packet.parse.
    rewrite parse_frame_bad_version by exact Hv. reflexivity.
Qed.

Lemma parse_rejects_bad_header_witness :
  Packet.parse [0x42] = Throw BufferUnderflow
  /\ Packet.parse (0x42 :: 0x4f :: [1; 0; 3; 1; 0; 175]) = Throw InvalidMagic
  /\ Packet.parse (0x42 :: 0x4e :: 2 :: [0; 3; 1; 0; 175])
     = Throw UnsupportedVersion.
Proof.
  destruct parse_rejects_bad_header as [H1 [H2 [_ H4]]].
  refine (conj (H1 [0x42] _) (conj (H2 _ _ _ _) (H4 _ _ _))).
  - simpl. lia.
  - right. discriminate.
  - discriminate.
Defined.

(** X13.  When the receive buffer of the bridge, with the chunk just
    arrived, holds at least six bytes and does not start with the magic
    bytes 0x42 0x4e, the bridge forwards nothing and throws the whole buffer
    away, whatever follows the first two bytes. *)
Theorem bridge_discards_unframed_bytes wsOpen tcpBuffer chunk m1 m2 rest :
  tcpBuffer ++ chunk = m1 :: m2 :: rest ->
  (4 <= length rest)%nat ->
  m1 <> 0x42 \/ m2 <> 0x4e ->
  WebSocketBridge.onData wsOpen tcpBuffer chunk = Some ([], []).
Proof.
  intros Heq Hlen Hm. unfold WebSocketBridge.onData.
  cbn [WebSocketBridge.drain]. rewrite Heq.
  destruct (Z.leb_spec 6 (blen (m1 :: m2 :: rest))) as [_ | Hlt];
    [| unfold blen in Hlt; simpl length in Hlt; lia].
  cbn [negb]. unfold Packet.parse.
  rewrite parse_frame_bad_magic by exact Hm. reflexivity.
Qed.

Lemma bridge_discards_unframed_bytes_witness :
  [9; 9] ++ [1; 2; 3; 4; 5] = 9 :: 9 :: [1; 2; 3; 4; 5]
  /\ (4 <= length [1; 2; 3; 4; 5])%nat
  /\ (9 <> 0x42 \/ 9 <> 0x4e)
  /\ WebSocketBridge.onData true [9; 9] [1; 2; 3; 4; 5] = Some ([], []).
Proof.
  assert (H1 : [9; 9] ++ [1; 2; 3; 4; 5] = 9 :: 9 :: [1; 2; 3; 4; 5])
    by reflexivity.
  assert (H2 : (4 <= length [1; 2; 3; 4; 5])%nat) by (simpl; lia).
  assert (H3 : 9 <> 0x42 \/ 9 <> 0x4e) by (left; discriminate).
  refine (conj H1 (conj H2 (conj H3 _))).
  exact (bridge_discards_unframed_bytes true [9; 9] [1; 2; 3; 4; 5] 9 9
           [1; 2; 3; 4; 5] H1 H2 H3).
Defined.

Lemma type_match_unknown (readValue : M value) fuel (tag : Z) :
  tag < 0 \/ 13 < tag ->
  readValue_switch readValue fuel (Some tag) = throw UnknownType.
Proof.
  intros H. destruct tag as [| p | p]; [lia | | reflexivity].
  do 4 (destruct p as [p | p |]; try reflexivity; try lia).
Qed.

Lemma readBE_short (n : Z) pre rest post :
  post = [] -> blen rest < n ->
  readBE n (pre ++ rest ++ post) (blen pre) = Throw RangeError.
Proof.
  intros -> Hn. unfold readBE, read_be. rewrite app_nil_r, blen_app.
  assert (Hp := blen_nonneg pre).
  destruct (Z.leb_spec 0 (blen pre)); [| lia].
  destruct (Z.leb_spec (blen pre + n) (blen pre + blen rest)); [lia |].
  reflexivity.
Qed.

(** X14.  The errors of [readValue], wherever the value starts in the
    buffer: at the end of the buffer it throws 'Buffer underflow'; on a type
    byte outside 0..13 it throws 'Unknown type'; and on a SHORT, INT, FLOAT
    or DOUBLE with fewer bytes left than its width (2, 4, 4, 8) it fails
    with the runtime's RangeError, not with 'Buffer underflow'. *)
Theorem readValue_errors (fuel : nat) (pre rest : list Z) (tag : Z) :
  readValue (S fuel) pre (blen pre) = Throw BufferUnderflow
  /\ (tag < 0 \/ 13 < tag ->
      readValue (S fuel) (pre ++ tag :: rest) (blen pre) = Throw UnknownType)
  /\ (blen rest < 2 ->
      readValue (S fuel) (pre ++ TYPE.SHORT :: rest) (blen pre)
      = Throw RangeError)
  /\ (blen rest < 4 ->
      readValue (S fuel) (pre ++ TYPE.INT :: rest) (blen pre)
      = Throw RangeError
      /\ readValue (S fuel) (pre ++ TYPE.FLOAT :: rest) (blen pre)
         = Throw RangeError)
  /\ (blen rest < 8 ->
      readValue (S fuel) (pre ++ TYPE.DOUBLE :: rest) (blen pre)
      = Throw RangeError).
Proof.
  assert (Htag : forall t,
             readValue (S fuel) (pre ++ t :: rest) (blen pre)
             = readValue_switch (readValue fuel) fuel (Some t)
                                (pre ++ t :: rest) (blen pre + 1)).
  { intros t. cbn [readValue]. unfold bind at 1.
    rewrite (readByte_at _ _ pre t rest eq_refl eq_refl). reflexivity. }
  assert (Hbe : forall t n,
             blen rest < n ->
             readBE n (pre ++ t :: rest) (blen pre + 1) = Throw RangeError).
  { intros t n Hn.
    replace (pre ++ t :: rest) with ((pre ++ [t]) ++ rest ++ [])
      by (rewrite app_nil_r, <- app_assoc; reflexivity).
    replace (blen pre + 1) with (blen (pre ++ [t]))
      by (rewrite blen_app; reflexivity).
    apply readBE_short; [reflexivity | exact Hn]. }
  split; [| split; [| split; [| split]]].
  - cbn [readValue]. unfold bind, readByte, hasBytes.
    destruct (Z.leb_spec (blen pre + 1) (blen pre)); [lia | reflexivity].
  - intros H. rewrite Htag, type_match_unknown by exact H. reflexivity.
  - intros H. rewrite Htag.
    change (readValue_switch (readValue fuel) fuel (Some TYPE.SHORT))
      with (z <- readShort ;; ret (VNum (Int z))).
    unfold readShort, bind. rewrite Hbe by exact H. reflexivity.
  - intros H. split; rewrite Htag.
    + change (readValue_switch (readValue fuel) fuel (Some TYPE.INT))
        with (z <- readInt ;; ret (VNum (Int z))).
      unfold readInt, bind. rewrite Hbe by exact H. reflexivity.
    + change (readValue_switch (readValue fuel) fuel (Some TYPE.FLOAT))
        with (n <- readFloat ;; ret (VNum n)).
      unfold readFloat, bind. rewrite Hbe by exact H. reflexivity.
  - intros H. rewrite Htag.
    change (readValue_switch (readValue fuel) fuel (Some TYPE.DOUBLE))
      with (n <- readDouble ;; ret (VNum n)).
    unfold readDouble, bind. rewrite Hbe by exact H. reflexivity.
Qed.

Lemma readValue_errors_witness :
  readValue 1 [7; 7] (blen [7; 7]) = Throw BufferUnderflow
  /\ readValue 1 ([7; 7] ++ 200 :: [1; 2; 3]) (blen [7; 7])
     = Throw UnknownType
  /\ readValue 1 ([7; 7] ++ TYPE.INT :: [1; 2; 3]) (blen [7; 7])
     = Throw RangeError
  /\ readValue 1 ([7; 7] ++ TYPE.DOUBLE :: [1; 2; 3]) (blen [7; 7])
     = Throw RangeError.
Proof.
  destruct (readValue_errors 0 [7; 7] [1; 2; 3] 200)
    as (H1 & H2 & _ & H4 & H5).
  refine (conj H1 (conj (H2 _) (conj (proj1 (H4 _)) (H5 _)))).
  - right. reflexivity.
  - reflexivity.
  - reflexivity.
Defined.

Lemma xor_store_low_bits b k k' j :
  Z.land k 255 = Z.land k' 255 ->
  Z.land (Z.lxor (Z.lxor b k) j) 255 = Z.land (Z.lxor (Z.lxor b k') j) 255.
Proof.
  intros Hk. apply Z.bits_inj'. intros n Hn.
  rewrite !land_255_bits, !Z.lxor_spec by exact Hn.
  destruct (Z.ltb_spec n 8); [| reflexivity]. cbn [andb].
  assert (Hb : Z.testbit k n = Z.testbit k' n).
  { apply (f_equal (fun z => Z.testbit z n)) in Hk.
    rewrite !land_255_bits in Hk by exact Hn.
    destruct (Z.ltb_spec n 8); [exact Hk | lia]. }
  rewrite Hb. reflexivity.
Qed.

Lemma encrypt_from_low_bits k k' x :
  Z.land k 255 = Z.land k' 255 ->
  forall i, Cipher.encrypt_from k i x = Cipher.encrypt_from k' i x.
Proof.
  intros Hk. induction x as [| b x IH]; intros i; cbn [Cipher.encrypt_from].
  - reflexivity.
  - rewrite (xor_store_low_bits b k k' _ Hk), IH. reflexivity.
Qed.

Lemma encrypt_from_period key x :
  forall i j, Z.land i 255 = Z.land j 255 ->
              Cipher.encrypt_from key i x = Cipher.encrypt_from key j x.
Proof.
  induction x as [| b x IH]; intros i j Hij; cbn [Cipher.encrypt_from].
  - reflexivity.
  - rewrite Hij. rewrite (IH (i + 1) (j + 1)); [reflexivity |].
    rewrite !land_255_mod in *. lia.
Qed.

(** X15.  [encrypt] keeps the length and returns bytes; only the low eight
    bits of the key matter, so there are 256 different keys; and the
    keystream starts again every 256 bytes: after a block of 256 bytes the
    rest of the buffer is encrypted as a buffer of its own. *)
Theorem cipher_uses_low_key_byte (key : Z) (x y : list Z) :
  length (Cipher.encrypt key x) = length x
  /\ bytes_ok (Cipher.encrypt key x)
  /\ Cipher.encrypt key x = Cipher.encrypt (key mod 256) x
  /\ (length x = 256%nat ->
      Cipher.encrypt key (x ++ y)
      = Cipher.encrypt key x ++ Cipher.encrypt key y).
Proof.
  unfold Cipher.encrypt. split; [apply encrypt_from_length |].
  split; [apply encrypt_from_bytes_ok |]. split.
  - apply encrypt_from_low_bits. rewrite !land_255_mod.
    rewrite Z.mod_mod by lia. reflexivity.
  - intros Hlen.
    assert (Happ : forall a b i,
               Cipher.encrypt_from key i (a ++ b)
               = Cipher.encrypt_from key i a
                   ++ Cipher.encrypt_from key (i + blen a) b).
    { clear. induction a as [| c a IH]; intros b i.
      - cbn [app Cipher.encrypt_from blen length Z.of_nat].
        rewrite Z.add_0_r. reflexivity.
      - cbn [app Cipher.encrypt_from]. rewrite IH.
        replace (i + 1 + blen a) with (i + blen (c :: a))
          by (unfold blen; cbn [length]; lia).
        reflexivity. }
    rewrite Happ. f_equal. apply encrypt_from_period.
    unfold blen. rewrite Hlen. reflexivity.
Qed.

Lemma cipher_uses_low_key_byte_witness :
  Cipher.encrypt 0x15e [1; 2; 3] = Cipher.encrypt 0x5e [1; 2; 3]
  /\ length (repeat 0 256) = 256%nat
  /\ Cipher.encrypt 0x5e (repeat 0 256 ++ [1; 2; 3])
     = Cipher.encrypt 0x5e (repeat 0 256) ++ Cipher.encrypt 0x5e [1; 2; 3].
Proof.
  assert (H : length (repeat 0 256) = 256%nat) by reflexivity.
  refine (conj _ (conj H _)).
  - exact (proj1 (proj2 (proj2
             (cipher_uses_low_key_byte 0x15e [1; 2; 3] [])))).
  - exact (proj2 (proj2 (proj2
             (cipher_uses_low_key_byte 0x5e (repeat 0 256) [1; 2; 3]))) H).
Defined.

Lemma byte_sum_permutation a b : Permutation a b -> byte_sum a = byte_sum b.
Proof.
  induction 1 as [| x l l' _ IH | x y l | l l' l'' _ IH1 _ IH2];
    cbn [byte_sum fold_right] in *; try fold (byte_sum l) in *;
    try fold (byte_sum l') in *; lia.
Qed.

(** X16.  The checksum does not see the order of the bytes: two buffers
    that hold the same bytes in any order have the same checksum, and
    [verify] accepts one with a given checksum exactly when it accepts the
    other. *)
Theorem checksum_ignores_byte_order (a b : list Z) (c : Z) :
  Permutation a b ->
  Checksum.calculate a = Checksum.calculate b
  /\ Checksum.verify a c = Checksum.verify b c.
Proof.
  intros Hp.
  assert (Hc : Checksum.calculate a = Checksum.calculate b).
  { rewrite !calculate_spec, (byte_sum_permutation a b Hp). reflexivity. }
  split; [exact Hc |]. unfold Checksum.verify. rewrite Hc. reflexivity.
Qed.

Lemma checksum_ignores_byte_order_witness :
  Permutation [0x42; 0x4e; 1; 0; 3] [0x4e; 0x42; 1; 3; 0]
  /\ Checksum.calculate [0x42; 0x4e; 1; 0; 3]
     = Checksum.calculate [0x4e; 0x42; 1; 3; 0].
Proof.
  assert (H : Permutation [0x42; 0x4e; 1; 0; 3] [0x4e; 0x42; 1; 3; 0]).
  { apply perm_trans with (0x4e :: 0x42 :: [1; 0; 3]); [apply perm_swap |].
    do 3 apply perm_skip. apply perm_swap. }
  refine (conj H _).
  exact (proj1 (checksum_ignores_byte_order _ _ 0 H)).
Defined.

(** X27.  The shape of every packet [Packet.create] makes, whatever the
    payload: it has at least eight bytes, its last byte is the checksum
    [Checksum.verify] accepts for the bytes before it, and encrypting
    changes no length: the encrypted packet is as long as the plain one and
    carries the same length field. *)
Theorem created_packet_shape T op data :
  (forall enc : bool,
      let packet := Packet.create T op data enc in
      (8 <= length packet)%nat
      /\ Checksum.verify (slice packet 0 (blen packet - 1)) (last packet 0)
         = true)
  /\ length (Packet.create T op data true)
     = length (Packet.create T op data false)
  /\ firstn (length (VarInt.encode (blen (ProtocolWriter.writeMap T data))))
            (skipn 5 (Packet.create T op data true))
     = VarInt.encode (blen (ProtocolWriter.writeMap T data)).
Proof.
  split; [| split].
  - intros enc packet. subst packet. split; [apply create_length |].
    pose proof (create_bytes T op data enc) as Hc. cbv zeta in Hc.
    rewrite Hc, slice_init, last_last. unfold Checksum.verify.
    apply Z.eqb_refl.
  - destruct (create_sections T op data true) as [cs1 [H1 [_ Hp1]]].
    destruct (create_sections T op data false) as [cs2 [H2 [_ Hp2]]].
    cbv zeta in H1, H2, Hp1, Hp2. rewrite H1, H2, Hp1.
    rewrite !length_app. cbn [length].
    unfold blen in Hp1. apply Nat2Z.inj in Hp1. rewrite Hp1. reflexivity.
  - destruct (create_sections T op data true) as [cs1 [H1 [_ Hp1]]].
    cbv zeta in H1, Hp1. rewrite H1, Hp1.
    change (skipn 5 ([66] ++ [78] ++ [1] ++ [1] ++ [OPCODE_value op] ++ ?r))
      with r.
    rewrite firstn_app, firstn_all, Nat.sub_diag, firstn_O, app_nil_r.
    reflexivity.
Qed.

(** ** WebSocket frames *)

Import NyxWS.

(** C5.  From an empty fragment accumulator, the frames TEXT(fin=false,"ab"),
    CONTINUATION(fin=false,"cd") and CONTINUATION(fin=true,"ef") handled in
    this order emit nothing on the first two; the third emits exactly one
    message, the text "abcdef", tagged with the TEXT opcode of the opening
    frame, and leaves the accumulator empty. *)
Theorem fragmentation_reassembly (m : SocketMode) (b : list Z) (a : bool) :
  let s0 := {| mode := m; buffer := b; fragments := []; isAlive := a |} in
  exists s1 s2 s3,
    handleFrame s0 false (OpCode_value TEXT) (bytes_of_string "ab")
    = Ok (s1, [])
    /\ handleFrame s1 false (OpCode_value CONTINUATION) (bytes_of_string "cd")
       = Ok (s2, [])
    /\ handleFrame s2 true (OpCode_value CONTINUATION) (bytes_of_string "ef")
       = Ok (s3, [EmitMessage (Str "abcdef")])
    /\ fragments s3 = [].
Proof.
  intros s0. subst s0. do 3 eexists.
  split; [reflexivity |]. split; [reflexivity |]. split; reflexivity.
Qed.

Lemma emitMessage_TEXT payload :
  emitMessage (OpCode_value TEXT) payload
  = [EmitMessage (Str (string_of_bytes payload))].
Proof. reflexivity. Qed.

Lemma emitMessage_BINARY payload :
  emitMessage (OpCode_value BINARY) payload = [EmitMessage (Buf payload)].
Proof. reflexivity. Qed.

Lemma concat_payloads_snoc fs f :
  concat_payloads (fs ++ [f]) = concat_payloads fs ++ payload f.
Proof.
  unfold concat_payloads. rewrite map_app, concat_app. simpl.
  rewrite app_nil_r. reflexivity.
Qed.

(** C10.  A TEXT or BINARY frame with fin=true that arrives while the
    fragment accumulator is not empty is appended to it; exactly one message
    is emitted, whose payload is the concatenation of the accumulated
    payloads in arrival order followed by this frame's, and whose type is
    given by this final frame's opcode (a string for TEXT, a buffer for
    BINARY), whatever the opcodes of the accumulated frames; in the state
    that results the accumulator is empty, and the mode, the receive buffer
    and the liveness flag are those of the state before. *)
Theorem final_data_frame_flushes_accumulation
        (s : Socket) (op : OpCode) (payload : list Z) :
  op = TEXT \/ op = BINARY ->
  fragments s <> [] ->
  let fullPayload := concat (map NyxWS.payload (fragments s)) ++ payload in
  exists s',
    handleFrame s true (OpCode_value op) payload
    = Ok (s',
          [EmitMessage (match op with
                        | TEXT => Str (string_of_bytes fullPayload)
                        | _ => Buf fullPayload
                        end)])
    /\ fragments s' = []
    /\ mode s' = mode s
    /\ buffer s' = buffer s
    /\ isAlive s' = isAlive s.
Proof.
  intros Hop Hne fullPayload. subst fullPayload.
  exists (set_fragments s []). split.
  - unfold handleFrame.
    destruct (fragments s) as [| f fs] eqn:Hfr; [congruence |].
    rewrite concat_payloads_snoc. unfold concat_payloads.
    destruct Hop as [-> | ->]; reflexivity.
  - destruct s; repeat split; reflexivity.
Qed.

Lemma final_data_frame_flushes_accumulation_witness :
  let s := {| mode := WEBSOCKET; buffer := [7];
              fragments := [{| opcode := OpCode_value TEXT;
                               payload := [97; 98] |};
                            {| opcode := OpCode_value CONTINUATION;
                               payload := [99] |}];
              isAlive := true |} in
  (BINARY = TEXT \/ BINARY = BINARY)
  /\ fragments s <> []
  /\ handleFrame s true (OpCode_value BINARY) [100; 101]
     = Ok ({| mode := WEBSOCKET; buffer := [7]; fragments := [];
              isAlive := true |},
           [EmitMessage (Buf [97; 98; 99; 100; 101])]).
Proof.
  intros s.
  assert (Hop : BINARY = TEXT \/ BINARY = BINARY) by (right; reflexivity).
  assert (Hne : fragments s <> []) by discriminate.
  refine (conj Hop (conj Hne _)).
  destruct (final_data_frame_flushes_accumulation s BINARY [100; 101] Hop Hne)
    as (s' & H & Hf & Hm & Hb & Ha).
  rewrite H. destruct s' as [m' b' f' a']. simpl in Hf, Hm, Hb, Ha.
  rewrite Hf, Hm, Hb, Ha. reflexivity.
Defined.

(** *** Outgoing frames *)

Lemma buildFrame_first_byte opcode d masked key frame :
  buildFrame opcode d masked key = Ok frame ->
  hd_error frame = Some (Z.lor 0x80 (OpCode_value opcode))
  /\ frame_fin frame = true
  /\ frame_opcode frame = Some (OpCode_value opcode).
Proof.
  unfold buildFrame. intros H.
  assert (E : forall a b : list Z, Ok a = Ok b -> b = a)
    by (intros a b E; injection E as ->; reflexivity).
  destruct (blen (data_bytes d) <? 126);
    [| destruct (blen (data_bytes d) <? 65536);
       [| destruct (blen (data_bytes d) <? 2 ^ 32); [| discriminate]]];
    apply E in H; rewrite H; destruct opcode; repeat split; reflexivity.
Qed.

Lemma buildFrame_total opcode d masked key :
  blen (data_bytes d) < 2 ^ 32 ->
  exists frame, buildFrame opcode d masked key = Ok frame.
Proof.
  intros Hlen. unfold buildFrame.
  destruct (blen (data_bytes d) <? 126); [eexists; reflexivity |].
  destruct (blen (data_bytes d) <? 65536); [eexists; reflexivity |].
  destruct (Z.ltb_spec (blen (data_bytes d)) (2 ^ 32)); [| lia].
  eexists; reflexivity.
Qed.

Lemma sendFrame_writes opcode d masked key effs frame :
  sendFrame opcode d masked key = Ok effs ->
  In (SocketWrite frame) effs ->
  buildFrame opcode d masked key = Ok frame.
Proof.
  unfold sendFrame. intros H Hin.
  destruct (buildFrame opcode d masked key) as [fr | e |]; try discriminate.
  injection H as <-. destruct Hin as [Heq | []]. congruence.
Qed.

Lemma sendFrame_frame_final opcode d masked key effs frame :
  opcode <> CONTINUATION ->
  sendFrame opcode d masked key = Ok effs ->
  In (SocketWrite frame) effs ->
  frame_fin frame = true
  /\ frame_opcode frame <> Some (OpCode_value CONTINUATION).
Proof.
  intros Hop H Hin.
  apply (sendFrame_writes _ _ _ _ _ _ H) in Hin.
  apply buildFrame_first_byte in Hin. destruct Hin as (_ & Hfin & Hopc).
  split; [assumption |]. rewrite Hopc.
  destruct opcode; try congruence; discriminate.
Qed.

(** C9.  Every frame [sendFrame] builds, whatever the opcode, payload and
    mask flag, starts with the byte [0x80 | opcode]: its FIN bit is set.
    A frame is built and written whenever the payload is shorter than 2^32
    bytes, and nothing is written otherwise.  The frames the engine sends
    through [send], [ping], [close] and [handlePing] are therefore final and
    none of them is a CONTINUATION frame. *)
Theorem outgoing_frames_are_final :
  (forall opcode d masked key frame,
      buildFrame opcode d masked key = Ok frame ->
      hd_error frame = Some (Z.lor 0x80 (OpCode_value opcode))
      /\ frame_fin frame = true
      /\ frame_opcode frame = Some (OpCode_value opcode))
  /\ (forall opcode d masked key,
         if blen (data_bytes d) <? 2 ^ 32
         then exists frame,
             buildFrame opcode d masked key = Ok frame
             /\ sendFrame opcode d masked key = Ok [SocketWrite frame]
         else sendFrame opcode d masked key = Throw RangeError)
  /\ (forall s d code reason payload effs frame,
         mode s = WEBSOCKET ->
         send s d = Ok effs \/ ping s = Ok effs
         \/ close s code reason = Ok effs \/ handlePing payload = Ok effs ->
         In (SocketWrite frame) effs ->
         frame_fin frame = true
         /\ frame_opcode frame <> Some (OpCode_value CONTINUATION)).
Proof.
  split; [| split].
  - apply buildFrame_first_byte.
  - intros opcode d masked key.
    destruct (Z.ltb_spec (blen (data_bytes d)) (2 ^ 32)) as [Hlt | Hge].
    + destruct (buildFrame_total opcode d masked key Hlt) as [frame Hf].
      exists frame. split; [assumption |]. unfold sendFrame. rewrite Hf.
      reflexivity.
    + unfold sendFrame, buildFrame.
      destruct (Z.ltb_spec (blen (data_bytes d)) 126); [lia |].
      destruct (Z.ltb_spec (blen (data_bytes d)) 65536); [lia |].
      destruct (Z.ltb_spec (blen (data_bytes d)) (2 ^ 32)); [lia |].
      reflexivity.
  - intros s d code reason payload effs frame Hmode Hcall Hin.
    destruct Hcall as [H | [H | [H | H]]].
    + unfold send in H. rewrite Hmode in H.
      eapply sendFrame_frame_final; [| exact H | exact Hin].
      destruct d; discriminate.
    + unfold ping in H. rewrite Hmode in H.
      eapply sendFrame_frame_final; [| exact H | exact Hin]. discriminate.
    + unfold close in H. rewrite Hmode in H.
      destruct ((0 <=? code) && (code <? 65536)); [| discriminate].
      destruct (sendFrame CLOSE (Buf (be16 code ++ bytes_of_string reason))
                          false []) as [es | e |] eqn:Hs; try discriminate.
      injection H as <-. apply in_app_or in Hin.
      destruct Hin as [Hin | [Hin | []]]; [| discriminate].
      eapply sendFrame_frame_final; [| exact Hs | exact Hin]. discriminate.
    + unfold handlePing in H.
      destruct (sendFrame PONG (Buf payload) false []) as [es | e |] eqn:Hs;
        try discriminate.
      injection H as <-. apply in_app_or in Hin.
      destruct Hin as [Hin | [Hin | []]]; [| discriminate].
      eapply sendFrame_frame_final; [| exact Hs | exact Hin]. discriminate.
Qed.

Lemma outgoing_frames_are_final_witness :
  buildFrame TEXT (Str "hi") true [1; 2; 3; 4]
  = Ok [129; 130; 1; 2; 3; 4; 105; 107]
  /\ frame_fin [129; 130; 1; 2; 3; 4; 105; 107] = true
  /\ frame_opcode [129; 130; 1; 2; 3; 4; 105; 107]
     = Some (OpCode_value TEXT).
Proof.
  assert (H : buildFrame TEXT (Str "hi") true [1; 2; 3; 4]
              = Ok [129; 130; 1; 2; 3; 4; 105; 107]) by reflexivity.
  refine (conj H _).
  exact (proj2 (proj1 outgoing_frames_are_final
                      TEXT (Str "hi") true [1; 2; 3; 4] _ H)).
Defined.

(** *** Building then parsing a frame *)

Lemma header_byte2 (masked : bool) (n : Z) :
  0 <= n < 128 ->
  (Z.land (Z.land (Z.lor (mask_bit masked) n) 255) 0x80 =? 0x80) = masked
  /\ Z.land (Z.land (Z.lor (mask_bit masked) n) 255) 0x7f = n.
Proof.
  intros Hn.
  assert (Hall :
    forallb (fun k =>
      forallb (fun m =>
        Bool.eqb (Z.land (Z.land (Z.lor (mask_bit m) k) 255) 0x80 =? 0x80) m
        && (Z.land (Z.land (Z.lor (mask_bit m) k) 255) 0x7f =? k))
        [true; false])
      (map Z.of_nat (seq 0 128)) = true) by (vm_compute; reflexivity).
  rewrite forallb_forall in Hall.
  assert (Hin : In n (map Z.of_nat (seq 0 128))).
  { apply in_map_iff. exists (Z.to_nat n). split; [lia |].
    apply in_seq. lia. }
  specialize (Hall n Hin). rewrite forallb_forall in Hall.
  assert (Hm : In masked [true; false]) by (destruct masked; simpl; auto).
  specialize (Hall masked Hm). apply andb_true_iff in Hall.
  destruct Hall as [H1 H2]. split.
  - apply Bool.eqb_prop in H1. exact H1.
  - apply Z.eqb_eq. exact H2.
Qed.

Lemma of_be_be16 z : 0 <= z < 2 ^ 16 -> of_be (be16 z) 0 = z.
Proof.
  intros Hz. unfold be16, of_be.
  rewrite !land_255_mod, Z.shiftr_div_pow2 by lia.
  change (2 ^ 8) with 256. change (2 ^ 16) with 65536 in Hz. lia.
Qed.

Lemma of_be_be32 z : 0 <= z < 2 ^ 32 -> of_be (be32 z) 0 = z.
Proof.
  intros Hz. unfold be32, of_be.
  rewrite !land_255_mod, !Z.shiftr_div_pow2 by lia.
  change (2 ^ 8) with 256. change (2 ^ 16) with 65536.
  change (2 ^ 24) with 16777216. change (2 ^ 32) with 4294967296 in Hz. lia.
Qed.

Lemma xor_mask_involutive b k :
  is_byte b -> Z.land (Z.lxor (Z.land (Z.lxor b k) 255) k) 255 = b.
Proof.
  intros Hb. rewrite <- (xor_store_involutive b k 0 Hb) at 2.
  rewrite !Z.lxor_0_r. reflexivity.
Qed.

Lemma mask_from_length key i p : length (mask_from key i p) = length p.
Proof.
  revert i. induction p as [| b p IH]; intros i; simpl; [| rewrite IH];
    reflexivity.
Qed.

Lemma mask_from_involutive key p :
  bytes_ok p -> forall i, mask_from key i (mask_from key i p) = p.
Proof.
  intros Hp. induction Hp as [| b p Hb Hp IH]; intros i; simpl.
  - reflexivity.
  - rewrite xor_mask_involutive by assumption. rewrite IH. reflexivity.
Qed.

Lemma first_byte_parsed opcode :
  (Z.land (Z.land (Z.lor 0x80 (OpCode_value opcode)) 255) 0x80 =? 0x80) = true
  /\ Z.land (Z.land (Z.lor 0x80 (OpCode_value opcode)) 255) 0x0f
     = OpCode_value opcode.
Proof. destruct opcode; split; reflexivity. Qed.

Lemma bytes_ok_repeat b n : is_byte b -> bytes_ok (repeat b n).
Proof.
  intros Hb. unfold bytes_ok. apply Forall_forall. intros x Hx.
  apply repeat_spec in Hx. subst x. exact Hb.
Qed.

Lemma blen_repeat b n : blen (repeat b n) = Z.of_nat n.
Proof. unfold blen. rewrite repeat_length. reflexivity. Qed.

(** ** The liveness sweep *)


Lemma sweep_kept cs id c' :
  In (id, c') (fst (sweep cs))
  <-> exists c, In (id, c) cs /\ isAlive c = true /\ c' = set_isAlive c false.
Proof.
  induction cs as [| [id0 c0] cs IH]; simpl.
  - split; [intros [] | intros (c & [] & _)].
  - destruct (sweep cs) as [rest' effs] eqn:Hs. simpl in IH.
    destruct (isAlive c0) eqn:Ha; simpl.
    + split.
      * intros [Heq | Hin].
        -- injection Heq as <- <-. exists c0. auto.
        -- apply IH in Hin. destruct Hin as (c & Hin & H1 & H2).
           exists c. auto.
      * intros (c & [Heq | Hin] & H1 & H2).
        -- injection Heq as <- <-. left. congruence.
        -- right. apply IH. exists c. auto.
    + split.
      * intros Hin. apply IH in Hin. destruct Hin as (c & Hin & H1 & H2).
        exists c. auto.
      * intros (c & [Heq | Hin] & H1 & H2).
        -- injection Heq as <- <-. congruence.
        -- apply IH. exists c. auto.
Qed.




Lemma set_isAlive_twice c a b :
  set_isAlive (set_isAlive c a) b = set_isAlive c b.
Proof. reflexivity. Qed.




(** ** Further properties of the WebSocket engine *)

Lemma buildFrame_layout opcode d (masked : bool) key frame :
  buildFrame opcode d masked key = Ok frame ->
  frame = frame_header opcode masked (blen (data_bytes d))
            ++ frame_body masked key (data_bytes d)
  /\ blen (data_bytes d) < 2 ^ 32.
Proof.
  unfold buildFrame, frame_header, frame_body. intros H.
  destruct (Z.ltb_spec (blen (data_bytes d)) 126).
  - injection H as <-. split; [reflexivity | lia].
  - destruct (Z.ltb_spec (blen (data_bytes d)) 65536).
    + injection H as <-. split; [reflexivity | lia].
    + destruct (Z.ltb_spec (blen (data_bytes d)) (2 ^ 32)); [| discriminate].
      split; [| assumption].
      assert (E : forall a b : list Z, Ok a = Ok b -> b = a)
        by (intros a b E; injection E as ->; reflexivity).
      apply E in H. rewrite H.
      cbn [app]. rewrite <- app_assoc. reflexivity.
Qed.

Lemma frame_header_length opcode masked n :
  (2 <= length (frame_header opcode masked n))%nat.
Proof.
  unfold frame_header. cbn [length].
  destruct (n <? 126); [cbn [length]; lia |].
  destruct (n <? 65536); cbn [length]; lia.
Qed.

Lemma frame_body_length (masked : bool) key payload :
  (masked = true -> length key = 4%nat) ->
  blen (frame_body masked key payload)
  = (if masked then 4 else 0) + blen payload.
Proof.
  intros Hk. unfold frame_body, blen. destruct masked; [| reflexivity].
  rewrite length_app, mask_from_length, (Hk eq_refl). lia.
Qed.

(** A buffer that starts with a whole header is parsed up to the length
    field: what is left is the second half of the round. *)
Lemma parseFrame_header opcode (masked : bool) n tail :
  0 <= n < 2 ^ 32 ->
  parseFrame (frame_header opcode masked n ++ tail)
  = parseFrame_payload (frame_header opcode masked n ++ tail) true
                       (OpCode_value opcode) masked n
                       (blen (frame_header opcode masked n)).
Proof.
  intros Hn. destruct (first_byte_parsed opcode) as [Hfin Hop].
  unfold frame_header.
  set (byte0 := Z.land (Z.lor 0x80 (OpCode_value opcode)) 255) in *.
  destruct (Z.ltb_spec n 126) as [H126 |].
  - destruct (header_byte2 masked n) as [Hm Hl]; [lia |].
    cbn [app]. unfold parseFrame. rewrite Hfin, Hop, Hm, Hl.
    destruct (Z.eqb_spec n 126); [lia |].
    destruct (Z.eqb_spec n 127); [lia |]. reflexivity.
  - destruct (Z.ltb_spec n 65536) as [H64k |].
    + destruct (header_byte2 masked 126) as [Hm Hl]; [lia |].
      cbn [app]. unfold parseFrame. rewrite Hfin, Hop, Hm, Hl.
      change (126 =? 126) with true. cbv iota.
      set (B := byte0 :: _).
      assert (HB : 4 <= blen B)
        by (subst B; unfold blen, be16; cbn [length app]; lia).
      destruct (Z.ltb_spec (blen B) 4); [lia |].
      subst B.
      rewrite (slice_at _ [byte0; Z.land (Z.lor (mask_bit masked) 126) 255]
                        (be16 n) tail 2 4);
        [| reflexivity | reflexivity | reflexivity].
      rewrite of_be_be16 by (change (2 ^ 16) with 65536; lia).
      reflexivity.
    + destruct (header_byte2 masked 127) as [Hm Hl]; [lia |].
      cbn [app]. unfold parseFrame. rewrite Hfin, Hop, Hm, Hl.
      change (127 =? 126) with false. change (127 =? 127) with true.
      cbv iota.
      set (B := byte0 :: _).
      assert (HB : 10 <= blen B)
        by (subst B; unfold blen, be32; cbn [length app]; lia).
      destruct (Z.ltb_spec (blen B) 10); [lia |].
      subst B. cbv zeta.
      rewrite (slice_at _ [byte0; Z.land (Z.lor (mask_bit masked) 127) 255]
                        (be32 0) (be32 n ++ tail) 2 6);
        [| rewrite <- app_assoc; reflexivity | reflexivity | reflexivity].
      rewrite (slice_at _ ([byte0; Z.land (Z.lor (mask_bit masked) 127) 255]
                             ++ be32 0)
                        (be32 n) tail 6 10);
        [| rewrite <- app_assoc; reflexivity | reflexivity | reflexivity].
      rewrite (of_be_be32 n) by lia.
      rewrite (of_be_be32 0) by lia.
      rewrite js_number_exact by (change (2 ^ 53) with 9007199254740992;
                                  change (2 ^ 32) with 4294967296 in Hn; lia).
      replace (0 * 4294967296 + n) with n by lia.
      reflexivity.
Qed.

Lemma parseFrame_payload_stream hdr fin opcode (masked : bool) key payload
      rest :
  bytes_ok payload ->
  (masked = true -> length key = 4%nat) ->
  parseFrame_payload (hdr ++ frame_body masked key payload ++ rest)
                     fin opcode masked (blen payload) (blen hdr)
  = Some (fin, opcode, payload, rest).
Proof.
  intros Hp Hkey. unfold parseFrame_payload, frame_body.
  assert (Hh := blen_nonneg hdr). assert (Hl := blen_nonneg payload).
  assert (Hr := blen_nonneg rest).
  destruct masked.
  - specialize (Hkey eq_refl).
    assert (Hk : blen key = 4) by (unfold blen; rewrite Hkey; reflexivity).
    assert (Hm : blen (mask_from key 0 payload) = blen payload)
      by (unfold blen; rewrite mask_from_length; reflexivity).
    rewrite !blen_app, Hk, Hm.
    destruct (Z.ltb_spec (blen hdr + (4 + blen payload + blen rest))
                         (blen hdr + 4 + blen payload)); [lia |].
    rewrite (slice_at _ hdr key (mask_from key 0 payload ++ rest)
                      (blen hdr) (blen hdr + 4));
      [| rewrite <- app_assoc; reflexivity | lia | lia].
    rewrite (slice_at _ (hdr ++ key) (mask_from key 0 payload) rest
                      (blen hdr + 4) (blen hdr + 4 + blen payload));
      [| rewrite <- !app_assoc; reflexivity
       | rewrite blen_app; lia | rewrite blen_app; lia].
    rewrite (slice_at _ (hdr ++ key ++ mask_from key 0 payload) rest []
                      (blen hdr + 4 + blen payload)
                      (blen hdr + (4 + blen payload + blen rest)));
      [| rewrite app_nil_r, <- !app_assoc; reflexivity
       | rewrite !blen_app; lia
       | rewrite !blen_app; lia].
    rewrite mask_from_involutive by assumption. reflexivity.
  - rewrite !blen_app.
    destruct (Z.ltb_spec (blen hdr + (blen payload + blen rest))
                         (blen hdr + blen payload));
      [lia |].
    rewrite (slice_at _ hdr payload rest (blen hdr) (blen hdr + blen payload));
      [| reflexivity | lia | lia].
    rewrite (slice_at _ (hdr ++ payload) rest []
                      (blen hdr + blen payload)
                      (blen hdr + (blen payload + blen rest)));
      [| rewrite app_nil_r, <- app_assoc; reflexivity
       | rewrite !blen_app; lia
       | rewrite !blen_app; lia].
    reflexivity.
Qed.

Lemma parseFrame_payload_short hdr fin opcode (masked : bool) key payload
      (j : nat) :
  (masked = true -> length key = 4%nat) ->
  (j < length (frame_body masked key payload))%nat ->
  parseFrame_payload (hdr ++ firstn j (frame_body masked key payload))
                     fin opcode masked (blen payload) (blen hdr)
  = None.
Proof.
  intros Hkey Hj. unfold parseFrame_payload.
  pose proof (frame_body_length masked key payload Hkey) as Hb.
  assert (Hlen : blen (hdr ++ firstn j (frame_body masked key payload))
                 = blen hdr + Z.of_nat j).
  { unfold blen. rewrite length_app, length_firstn. lia. }
  rewrite Hlen. unfold blen in Hb.
  destruct masked.
  - destruct (Z.ltb_spec (blen hdr + Z.of_nat j)
                         (blen hdr + 4 + blen payload));
      [reflexivity | unfold blen in *; lia].
  - destruct (Z.ltb_spec (blen hdr + Z.of_nat j) (blen hdr + blen payload));
      [reflexivity | unfold blen in *; lia].
Qed.

Lemma parseFrame_header_short opcode (masked : bool) n (k : nat) :
  0 <= n ->
  (k < length (frame_header opcode masked n))%nat ->
  parseFrame (firstn k (frame_header opcode masked n)) = None.
Proof.
  intros Hn Hk. unfold frame_header in *.
  destruct k as [| [| k]]; [reflexivity | reflexivity |].
  cbn [firstn].
  set (byte0 := Z.land (Z.lor 0x80 (OpCode_value opcode)) 255) in *.
  destruct (Z.ltb_spec n 126) as [H126 |].
  - cbn [length] in Hk. lia.
  - destruct (Z.ltb_spec n 65536) as [H64k |].
    + destruct (header_byte2 masked 126) as [Hm Hl]; [lia |].
      unfold parseFrame. rewrite Hl. change (126 =? 126) with true. cbv iota.
      match goal with
      | |- (if ?b <? 4 then _ else _) = _ =>
          destruct (Z.ltb_spec b 4) as [| Hge]; [reflexivity |]
      end.
      unfold blen, be16 in *. cbn [length] in *.
      rewrite length_firstn in Hge. cbn [length] in Hge. lia.
    + destruct (header_byte2 masked 127) as [Hm Hl]; [lia |].
      unfold parseFrame. rewrite Hl.
      change (127 =? 126) with false. change (127 =? 127) with true.
      cbv iota.
      match goal with
      | |- (if ?b <? 10 then _ else _) = _ =>
          destruct (Z.ltb_spec b 10) as [| Hge]; [reflexivity |]
      end.
      unfold blen, be32 in *. cbn [length app] in *.
      rewrite length_firstn in Hge. cbn [length] in Hge. lia.
Qed.

(** A buffer that stops short of the last byte of a frame holds no frame
    yet. *)
Lemma parseFrame_short opcode d (masked : bool) key frame (k : nat) :
  buildFrame opcode d masked key = Ok frame ->
  (masked = true -> length key = 4%nat) ->
  (k < length frame)%nat ->
  parseFrame (firstn k frame) = None.
Proof.
  intros Hf Hkey Hk.
  apply buildFrame_layout in Hf. destruct Hf as [-> Hlen].
  assert (Hl := blen_nonneg (data_bytes d)).
  set (hdr := frame_header opcode masked (blen (data_bytes d))) in *.
  rewrite firstn_app.
  destruct (Nat.ltb_spec k (length hdr)) as [Hin | Hout].
  - replace (k - length hdr)%nat with 0%nat by lia.
    rewrite firstn_O, app_nil_r.
    apply parseFrame_header_short; [lia | exact Hin].
  - rewrite firstn_all2 by exact Hout. subst hdr.
    rewrite parseFrame_header by lia.
    apply parseFrame_payload_short; [exact Hkey |].
    rewrite length_app in Hk. lia.
Qed.

(** A frame at the head of a buffer is parsed whatever follows it, and
    what follows it is the buffer left. *)
Lemma parseFrame_stream opcode d (masked : bool) key frame rest :
  buildFrame opcode d masked key = Ok frame ->
  bytes_ok (data_bytes d) ->
  (masked = true -> length key = 4%nat) ->
  parseFrame (frame ++ rest)
  = Some (true, OpCode_value opcode, data_bytes d, rest).
Proof.
  intros Hf Hp Hkey.
  apply buildFrame_layout in Hf. destruct Hf as [-> Hlen].
  assert (Hl := blen_nonneg (data_bytes d)).
  rewrite <- app_assoc. rewrite parseFrame_header by lia.
  apply parseFrame_payload_stream; assumption.
Qed.

Lemma lxor_bytes a b :
  is_byte a -> is_byte b -> Z.land (Z.lxor a b) 255 = Z.lxor a b.
Proof.
  intros Ha Hb. apply Z.bits_inj'. intros n Hn.
  rewrite land_255_bits by exact Hn. rewrite Z.lxor_spec.
  destruct (Z.ltb_spec n 8); [reflexivity |]. cbn [andb].
  rewrite (byte_bits_high a), (byte_bits_high b) by assumption.
  reflexivity.
Qed.

Lemma key_byte key (n : nat) : bytes_ok key -> is_byte (nth n key 0).
Proof.
  intros Hk. destruct (nth_in_or_default n key 0) as [Hin | ->].
  - unfold bytes_ok in Hk. rewrite Forall_forall in Hk. apply Hk, Hin.
  - unfold is_byte. lia.
Qed.

(** What [sendFrame] stores for a masked payload: byte [i] is
    [payload[i] ^ maskingKey[i % 4]]. *)
Lemma mask_from_nth key payload :
  bytes_ok payload -> bytes_ok key ->
  forall (j i : nat) b,
    nth_error payload i = Some b ->
    nth_error (mask_from key j payload) i
    = Some (Z.lxor b (nth ((j + i) mod 4) key 0)).
Proof.
  intros Hp Hk. induction Hp as [| c payload Hc Hp IH]; intros j i b Hb.
  - destruct i; discriminate.
  - destruct i as [| i]; cbn [mask_from nth_error] in *.
    + injection Hb as ->. rewrite Nat.add_0_r.
      rewrite lxor_bytes by (try assumption; apply key_byte; exact Hk).
      reflexivity.
    + rewrite (IH (S j) i b Hb).
      replace (S j + i)%nat with (j + S i)%nat by lia. reflexivity.
Qed.

(** C4.  For every opcode, mask flag, 4-byte masking key and payload of
    bytes shorter than 2^32, [sendFrame] builds a frame, and parsing that
    frame gives back fin = true, the opcode, the payload and an empty rest
    of the buffer.  The frame is the header followed, without a mask, by
    the payload itself, and with a mask by the key and by the bytes
    [payload[i] ^ maskingKey[i % 4]]; the payload the parser returns is
    these bytes XORed again with [maskingKey[i % 4]]. *)
Theorem frame_round_trip opcode d (masked : bool) key :
  bytes_ok (data_bytes d) ->
  (masked = true -> length key = 4%nat) ->
  blen (data_bytes d) < 2 ^ 32 ->
  exists frame,
    buildFrame opcode d masked key = Ok frame
    /\ parseFrame frame = Some (true, OpCode_value opcode, data_bytes d, [])
    /\ (masked = false ->
        frame = frame_header opcode false (blen (data_bytes d))
                  ++ data_bytes d)
    /\ (masked = true -> bytes_ok key ->
        exists wire,
          frame = frame_header opcode true (blen (data_bytes d))
                    ++ key ++ wire
          /\ length wire = length (data_bytes d)
          /\ (forall (i : nat) b,
                 nth_error (data_bytes d) i = Some b ->
                 nth_error wire i = Some (Z.lxor b (nth (i mod 4) key 0)))
          /\ (forall (i : nat) w,
                 nth_error wire i = Some w ->
                 nth_error (data_bytes d) i
                 = Some (Z.lxor w (nth (i mod 4) key 0)))).
Proof.
  intros Hp Hkey Hlen.
  destruct (buildFrame_total opcode d masked key Hlen) as [frame Hf].
  exists frame. split; [exact Hf |]. split.
  { rewrite <- (app_nil_r frame).
    apply (parseFrame_stream opcode d masked key frame [] Hf Hp Hkey). }
  destruct (buildFrame_layout opcode d masked key frame Hf) as [Hlay _].
  unfold frame_body in Hlay. split.
  - intros ->. exact Hlay.
  - intros -> Hk. exists (mask_from key 0 (data_bytes d)).
    split; [exact Hlay |]. split; [apply mask_from_length |].
    assert (Hbuild : forall (i : nat) b,
               nth_error (data_bytes d) i = Some b ->
               nth_error (mask_from key 0 (data_bytes d)) i
               = Some (Z.lxor b (nth (i mod 4) key 0))).
    { intros i b Hb.
      apply (mask_from_nth key (data_bytes d) Hp Hk 0%nat i b Hb). }
    split; [exact Hbuild |].
    intros i w Hw.
    destruct (nth_error (data_bytes d) i) as [b |] eqn:Hb.
    + rewrite (Hbuild i b Hb) in Hw. injection Hw as <-.
      rewrite Z.lxor_assoc, Z.lxor_nilpotent, Z.lxor_0_r. reflexivity.
    + apply nth_error_None in Hb.
      assert (Hsome : nth_error (mask_from key 0 (data_bytes d)) i <> None)
        by congruence.
      apply nth_error_Some in Hsome. rewrite mask_from_length in Hsome. lia.
Qed.

(** The round trip at the payload sizes where the length encoding changes,
    and the bytes of a masked frame. *)
Lemma frame_round_trip_witness :
  Forall (fun case : Z * bool =>
            exists frame,
              buildFrame BINARY (Buf (repeat 65 (Z.to_nat (fst case))))
                         (snd case) [1; 2; 3; 4]
              = Ok frame
              /\ parseFrame frame
                 = Some (true, OpCode_value BINARY,
                         repeat 65 (Z.to_nat (fst case)), []))
         [(0, false); (0, true); (125, true); (126, false); (126, true);
          (65535, true); (65536, false); (65536, true)]
  /\ buildFrame TEXT (Str "hello") true [0x37; 0xfa; 0x21; 0x3d]
     = Ok [0x81; 0x85; 0x37; 0xfa; 0x21; 0x3d; 0x5f; 0x9f; 0x4d; 0x51; 0x58]
  /\ exists wire,
       [0x81; 0x85; 0x37; 0xfa; 0x21; 0x3d; 0x5f; 0x9f; 0x4d; 0x51; 0x58]
       = frame_header TEXT true 5 ++ [0x37; 0xfa; 0x21; 0x3d] ++ wire
       /\ nth_error wire 4 = Some (Z.lxor 0x6f 0x37)
       /\ nth_error (data_bytes (Str "hello")) 1 = Some (Z.lxor 0x9f 0xfa).
Proof.
  assert (H : forall case : Z * bool,
             0 <= fst case < 2 ^ 32 ->
             exists frame,
               buildFrame BINARY (Buf (repeat 65 (Z.to_nat (fst case))))
                          (snd case) [1; 2; 3; 4]
               = Ok frame
               /\ parseFrame frame
                  = Some (true, OpCode_value BINARY,
                          repeat 65 (Z.to_nat (fst case)), [])).
  { intros case Hs.
    destruct (frame_round_trip BINARY
                (Buf (repeat 65 (Z.to_nat (fst case))))
                (snd case) [1; 2; 3; 4]) as (frame & Hb & Hq & _).
    - apply bytes_ok_repeat. unfold is_byte. lia.
    - intros _. reflexivity.
    - simpl data_bytes. rewrite blen_repeat. lia.
    - exists frame. split; assumption. }
  split; [repeat (constructor; [apply H; simpl; lia |]); constructor |].
  split; [reflexivity |].
  destruct (frame_round_trip TEXT (Str "hello") true [0x37; 0xfa; 0x21; 0x3d])
    as (frame & Hb & _ & _ & Hm).
  - apply bytes_of_string_ok.
  - intros _. reflexivity.
  - reflexivity.
  - destruct (Hm eq_refl) as (wire & Hw & _ & Hx & Hy).
    + apply bytes_okb_spec. reflexivity.
    + assert (Hfr : frame = [0x81; 0x85; 0x37; 0xfa; 0x21; 0x3d; 0x5f; 0x9f;
                             0x4d; 0x51; 0x58])
        by (cbv in Hb; congruence).
      exists wire. rewrite <- Hfr. split; [exact Hw |]. split.
      * exact (Hx 4%nat 0x6f eq_refl).
      * apply (Hy 1%nat 0x9f). rewrite Hfr in Hw.
        cbv in Hw. injection Hw as <-. reflexivity.
Defined.

(** X17.  A frame built by [sendFrame] is parsed only when whole.  From a
    buffer that stops short of the frame's last byte the loop of
    [handleData] takes no frame; from a buffer that starts with the frame it
    takes fin = true, the opcode and the payload unmasked, and leaves in the
    buffer exactly what followed the frame. *)
Theorem parseFrame_needs_whole_frame opcode d (masked : bool) key frame :
  buildFrame opcode d masked key = Ok frame ->
  bytes_ok (data_bytes d) ->
  (masked = true -> length key = 4%nat) ->
  (forall k : nat, (k < length frame)%nat ->
                   parseFrame (firstn k frame) = None)
  /\ (forall rest,
         parseFrame (frame ++ rest)
         = Some (true, OpCode_value opcode, data_bytes d, rest)).
Proof.
  intros Hf Hok Hkey. split.
  - intros k Hk. apply (parseFrame_short opcode d masked key frame k Hf Hkey Hk).
  - intros rest. apply (parseFrame_stream opcode d masked key frame rest Hf Hok Hkey).
Qed.

Lemma parseFrame_needs_whole_frame_witness :
  let d := Str "hello" in
  let key := [0x37; 0xfa; 0x21; 0x3d] in
  let frame := [0x81; 0x85; 0x37; 0xfa; 0x21; 0x3d; 0x5f; 0x9f; 0x4d; 0x51;
                0x58] in
  buildFrame TEXT d true key = Ok frame
  /\ parseFrame (firstn 10 frame) = None
  /\ parseFrame (frame ++ [0x89; 0x00])
     = Some (true, OpCode_value TEXT, data_bytes d, [0x89; 0x00]).
Proof.
  intros d key frame.
  assert (Hf : buildFrame TEXT d true key = Ok frame) by reflexivity.
  assert (Hok : bytes_ok (data_bytes d)) by (apply bytes_okb_spec; reflexivity).
  assert (Hkey : true = true -> length key = 4%nat) by reflexivity.
  assert (Hk : (10 < length frame)%nat) by (simpl; lia).
  refine (conj Hf (conj _ _)).
  - exact (proj1 (parseFrame_needs_whole_frame TEXT d true key frame
                    Hf Hok Hkey) 10%nat Hk).
  - exact (proj2 (parseFrame_needs_whole_frame TEXT d true key frame
                    Hf Hok Hkey) [0x89; 0x00]).
Defined.

Lemma set_buffer_same s : set_buffer s (buffer s) = s.
Proof. destruct s; reflexivity. Qed.

Lemma handleData_loop_waits fuel s effs :
  blen (buffer s) < 2 \/ parseFrame (buffer s) = None ->
  handleData_loop fuel s effs = Ok (s, effs).
Proof.
  intros H. destruct fuel; cbn [handleData_loop];
    destruct (Z.leb_spec 2 (blen (buffer s))); cbn [negb];
    try reflexivity;
    (destruct H as [H | H]; [lia | rewrite H; reflexivity]).
Qed.

Lemma is_frame_of_length m f : is_frame_of m f -> (2 <= length f)%nat.
Proof.
  destruct m as [[d masked] key]. intros [Hf _].
  apply buildFrame_layout in Hf. destruct Hf as [-> _].
  rewrite length_app.
  pose proof (frame_header_length
                (match d with Str _ => TEXT | Buf _ => BINARY end) masked
                (blen (data_bytes d))). lia.
Qed.

Lemma message_ok_bytes d : message_ok d -> bytes_ok (data_bytes d).
Proof.
  destruct d as [str | b]; cbn [message_ok data_bytes]; intros H;
    [apply bytes_of_string_ok | exact H].
Qed.

Lemma handleFrame_message s d :
  fragments s = [] ->
  message_ok d ->
  handleFrame s true
              (OpCode_value (match d with Str _ => TEXT | Buf _ => BINARY end))
              (data_bytes d)
  = Ok (s, [EmitMessage d]).
Proof.
  intros Hfr Hok. unfold handleFrame. rewrite Hfr.
  destruct d as [str | b]; cbn -[string_of_bytes bytes_of_string].
  - cbn [message_ok] in Hok.
    rewrite string_of_bytes_of_string by exact Hok. reflexivity.
  - reflexivity.
Qed.

(** The loop of [handleData] on a buffer that holds whole frames followed
    by the beginning [p] of another: every frame is handled, [p] stays. *)
Lemma handleData_loop_frames msgs frames :
  Forall2 is_frame_of msgs frames ->
  forall p fuel s effs,
    blen p < 2 \/ parseFrame p = None ->
    buffer s = concat frames ++ p ->
    fragments s = [] ->
    (length frames <= fuel)%nat ->
    handleData_loop fuel s effs
    = Ok (set_buffer s p,
          effs ++ map (fun m => EmitMessage (fst (fst m))) msgs).
Proof.
  induction 1 as [| m f msgs frames Hm Hrest IH];
    intros p fuel s effs Hp Hbuf Hfr Hfuel.
  - cbn [concat app] in Hbuf. rewrite <- Hbuf, set_buffer_same.
    cbn [map]. rewrite app_nil_r.
    apply handleData_loop_waits. rewrite Hbuf. exact Hp.
  - pose proof (is_frame_of_length m f Hm) as Hlen.
    destruct m as [[d masked] key]. destruct Hm as (Hf & Hok & Hkey).
    cbn [concat] in Hbuf. rewrite <- app_assoc in Hbuf.
    destruct fuel as [| fuel]; [cbn [length] in Hfuel; lia |].
    cbn [handleData_loop]. rewrite Hbuf.
    destruct (Z.leb_spec 2 (blen (f ++ concat frames ++ p))) as [_ | Hlt];
      [| unfold blen in Hlt; rewrite length_app in Hlt; lia].
    cbn [negb].
    rewrite (parseFrame_stream _ d masked key f _ Hf
               (message_ok_bytes d Hok) Hkey).
    rewrite handleFrame_message by assumption.
    rewrite (IH p fuel (set_buffer s (concat frames ++ p))
                (effs ++ [EmitMessage d]) Hp eq_refl Hfr)
      by (cbn [length] in Hfuel; lia).
    cbn [map fst app]. rewrite <- app_assoc. reflexivity.
Qed.

Lemma partial_frame_waits msgs frames p R :
  Forall2 is_frame_of msgs frames ->
  partial_frame p frames ->
  p ++ R = concat frames ->
  blen p < 2 \/ parseFrame p = None.
Proof.
  intros HF Hp Heq. destruct HF as [| m f msgs frames Hm _].
  - cbn in Hp. subst p. left. reflexivity.
  - right. cbn in Hp. cbn [concat] in Heq.
    assert (Hpre : p = firstn (length p) f).
    { apply (f_equal (firstn (length p))) in Heq.
      rewrite !firstn_app, firstn_all, Nat.sub_diag, firstn_O, app_nil_r
        in Heq.
      replace (length p - length f)%nat with 0%nat in Heq by lia.
      rewrite firstn_O, app_nil_r in Heq. exact Heq. }
    destruct m as [[d masked] key]. destruct Hm as (Hf & _ & Hkey).
    rewrite Hpre. eapply parseFrame_short; eassumption.
Qed.

(** A beginning [B] of a stream of frames is a number of whole frames
    followed by the beginning of the next one. *)
Lemma stream_prefix msgs frames :
  Forall2 is_frame_of msgs frames ->
  forall B R,
    B ++ R = concat frames ->
    exists msgs1 msgs2 frames1 frames2 p,
      msgs = msgs1 ++ msgs2
      /\ Forall2 is_frame_of msgs1 frames1
      /\ Forall2 is_frame_of msgs2 frames2
      /\ B = concat frames1 ++ p
      /\ p ++ R = concat frames2
      /\ partial_frame p frames2
      /\ (length frames1 <= length B)%nat.
Proof.
  induction 1 as [| m f msgs frames Hm Hrest IH]; intros B R Heq.
  - cbn [concat] in Heq. apply app_eq_nil in Heq. destruct Heq as [-> ->].
    exists [], [], [], [], []. repeat split; constructor.
  - cbn [concat] in Heq.
    destruct (Nat.ltb_spec (length B) (length f)) as [Hlt | Hge].
    + exists [], (m :: msgs), [], (f :: frames), B.
      repeat split; try constructor; try assumption. cbn. lia.
    + assert (Hpre : firstn (length f) B = f).
      { apply (f_equal (firstn (length f))) in Heq.
        rewrite !firstn_app, firstn_all, Nat.sub_diag, firstn_O, app_nil_r
          in Heq.
        replace (length f - length B)%nat with 0%nat in Heq by lia.
        rewrite firstn_O, app_nil_r in Heq. exact Heq. }
      assert (HB : B = f ++ skipn (length f) B).
      { rewrite <- Hpre at 1. symmetry. apply firstn_skipn. }
      rewrite HB, <- app_assoc in Heq. apply app_inv_head in Heq.
      destruct (IH _ _ Heq)
        as (msgs1 & msgs2 & fs1 & fs2 & p & -> & H1 & H2 & HB' & Hp & Hpar
            & Hlen).
      exists (m :: msgs1), msgs2, (f :: fs1), fs2, p.
      repeat split; try assumption.
      * constructor; assumption.
      * rewrite HB, HB' at 1. cbn [concat]. rewrite <- app_assoc.
        reflexivity.
      * pose proof (is_frame_of_length m f Hm).
        rewrite HB, length_app. cbn [length]. lia.
Qed.

(** X18.  In WebSocket mode [handleData] delivers a stream of messages
    whatever the chunks it arrives in.  Take the frames [send] builds for a
    list of messages (strings without unpaired surrogates, buffers of
    bytes), unmasked or masked, and cut their concatenation into
    the chunks of successive 'data' events in any way (several frames in one
    chunk, one frame over several chunks, empty chunks): a socket that
    starts with an empty buffer and no fragments emits exactly these
    messages, in order, each once, and ends in its starting state. *)
Theorem handleData_any_chunking s msgs frames chunks :
  mode s = WEBSOCKET ->
  buffer s = [] ->
  fragments s = [] ->
  Forall2 is_frame_of msgs frames ->
  concat chunks = concat frames ->
  handleData_all s chunks []
  = Ok (s, map (fun m => EmitMessage (fst (fst m))) msgs).
Proof.
  intros Hmode Hbuf Hfr HF Hcat.
  assert (Hgen : forall chunks msgs frames p s effs,
             mode s = WEBSOCKET -> buffer s = p -> fragments s = [] ->
             Forall2 is_frame_of msgs frames ->
             partial_frame p frames ->
             p ++ concat chunks = concat frames ->
             handleData_all s chunks effs
             = Ok (set_buffer s [],
                   effs ++ map (fun m => EmitMessage (fst (fst m))) msgs)).
  { clear. induction chunks as [| c chunks IH];
      intros msgs frames p s effs Hmode Hbuf Hfr HF Hpar Heq.
    - cbn [concat] in Heq. rewrite app_nil_r in Heq.
      destruct HF as [| m f msgs frames Hm _].
      + cbn in Hpar. rewrite Hpar in Hbuf. rewrite <- Hbuf, set_buffer_same.
        cbn [handleData_all map]. rewrite app_nil_r. reflexivity.
      + cbn in Hpar. cbn [concat] in Heq.
        rewrite Heq, length_app in Hpar. lia.
    - cbn [concat] in Heq. rewrite app_assoc in Heq.
      destruct (stream_prefix msgs frames HF _ _ Heq)
        as (msgs1 & msgs2 & fs1 & fs2 & p' & -> & H1 & H2 & HB & Hp' & Hpar'
            & Hlen).
      cbn [handleData_all]. unfold handleData. rewrite Hmode.
      assert (Hb : (if blen (buffer s) =? 0 then c else buffer s ++ c)
                   = p ++ c).
      { rewrite Hbuf. destruct (Z.eqb_spec (blen p) 0) as [H0 | _];
          [| reflexivity].
        destruct p; [reflexivity | discriminate H0]. }
      rewrite Hb.
      rewrite (handleData_loop_frames msgs1 fs1 H1 p' (length (p ++ c))
                 (set_buffer s (p ++ c)) []
                 (partial_frame_waits _ _ _ _ H2 Hpar' Hp') HB Hfr Hlen).
      rewrite (IH msgs2 fs2 p' (set_buffer (set_buffer s (p ++ c)) p') _
                  Hmode eq_refl Hfr H2 Hpar' Hp').
      rewrite map_app. repeat rewrite <- app_assoc. reflexivity. }
  rewrite (Hgen chunks msgs frames [] s [] Hmode Hbuf Hfr HF).
  - rewrite <- Hbuf, set_buffer_same. reflexivity.
  - destruct frames as [| f frames]; [reflexivity |].
    inversion HF as [| m ? ? ? Hm _]; subst.
    pose proof (is_frame_of_length m f Hm). cbn. lia.
  - exact Hcat.
Qed.

Lemma handleData_any_chunking_witness :
  let s := new_connection WEBSOCKET in
  let msgs := [(Str "hello", true, [0x37; 0xfa; 0x21; 0x3d]);
               (Buf [1; 2; 3], false, [])] in
  let frames := [[0x81; 0x85; 0x37; 0xfa; 0x21; 0x3d; 0x5f; 0x9f; 0x4d; 0x51;
                  0x58];
                 [0x82; 0x03; 1; 2; 3]] in
  let chunks := [[0x81]; [0x85; 0x37; 0xfa; 0x21; 0x3d; 0x5f; 0x9f]; [];
                 [0x4d; 0x51; 0x58; 0x82; 0x03; 1]; [2; 3]] in
  Forall2 is_frame_of msgs frames
  /\ concat chunks = concat frames
  /\ handleData_all s chunks []
     = Ok (s, [EmitMessage (Str "hello"); EmitMessage (Buf [1; 2; 3])]).
Proof.
  intros s msgs frames chunks.
  assert (HF : Forall2 is_frame_of msgs frames).
  { constructor; [| constructor; [| constructor]].
    - split; [reflexivity |]. split; reflexivity.
    - split; [reflexivity |]. split; [| discriminate].
      apply bytes_okb_spec. reflexivity. }
  assert (Hc : concat chunks = concat frames) by reflexivity.
  refine (conj HF (conj Hc _)).
  exact (handleData_any_chunking s msgs frames chunks eq_refl eq_refl eq_refl
           HF Hc).
Defined.

(** Outside these messages: a string that holds an unpaired surrogate is
    not delivered as sent, [send] writes U+FFFD in its place; and a TEXT
    frame whose payload is not UTF-8 is delivered with U+FFFD in place of
    the offending bytes. *)
Lemma unpaired_surrogate_message_replaced :
  let s := new_connection WEBSOCKET in
  send s (Str (string_of_list [0x61; 0xED; 0xA0; 0x80]))
  = Ok [SocketWrite [0x81; 0x04; 0x61; 0xEF; 0xBF; 0xBD]]
  /\ handleData s [0x81; 0x04; 0x61; 0xEF; 0xBF; 0xBD]
     = Ok (s, [EmitMessage (Str (string_of_list [0x61; 0xEF; 0xBF; 0xBD]))])
  /\ handleData s [0x81; 0x04; 0x61; 0xFF; 0xE2; 0x82]
     = Ok (s, [EmitMessage (Str (string_of_list [0x61; 0xEF; 0xBF; 0xBD;
                                                 0xEF; 0xBF; 0xBD]))]).
Proof. repeat split; vm_compute; reflexivity. Qed.

Lemma concat_payloads_app fs gs :
  concat_payloads (fs ++ gs) = concat_payloads fs ++ concat_payloads gs.
Proof. unfold concat_payloads. rewrite map_app, concat_app. reflexivity. Qed.

Lemma continuations_accumulate middle :
  forall s effs,
    handleFrames s
      (map (fun p => (false, OpCode_value CONTINUATION, p)) middle) effs
    = Ok (set_fragments s
            (fragments s
               ++ map (fun p => {| opcode := OpCode_value CONTINUATION;
                                   payload := p |}) middle),
          effs).
Proof.
  induction middle as [| p middle IH]; intros s effs.
  - cbn [map handleFrames]. rewrite app_nil_r. destruct s; reflexivity.
  - cbn [map handleFrames]. unfold handleFrame.
    change (OpCode_value CONTINUATION =? OpCode_value TEXT) with false.
    change (OpCode_value CONTINUATION =? OpCode_value BINARY) with false.
    change (OpCode_value CONTINUATION =? OpCode_value CONTINUATION) with true.
    cbv iota. cbn [orb]. cbv iota. rewrite IH.
    cbn [fragments set_fragments]. rewrite <- app_assoc, app_nil_r.
    reflexivity.
Qed.

(** X19.  A message sent in fragments is reassembled whatever the number
    and the contents of the fragments: after an opening TEXT or BINARY
    frame with fin = false, any number of CONTINUATION frames with
    fin = false and a closing CONTINUATION frame with fin = true, handled
    from an empty accumulator, exactly one message is emitted; its payload
    is the concatenation of all the payloads in order, its type that of the
    opening frame, and the socket is back in its starting state. *)
Theorem fragmented_message_is_reassembled
        (s : Socket) (op : OpCode) (first : list Z) (middle : list (list Z))
        (last : list Z) :
  op = TEXT \/ op = BINARY ->
  fragments s = [] ->
  handleFrames s
    ((false, OpCode_value op, first)
       :: map (fun p => (false, OpCode_value CONTINUATION, p)) middle
       ++ [(true, OpCode_value CONTINUATION, last)]) []
  = Ok (s, emitMessage (OpCode_value op)
                       (first ++ concat middle ++ last)).
Proof.
  intros Hop Hfr.
  assert (Hfirst : handleFrame s false (OpCode_value op) first
                   = Ok (set_fragments s [{| opcode := OpCode_value op;
                                             payload := first |}], [])).
  { unfold handleFrame. rewrite Hfr. destruct Hop as [-> | ->]; reflexivity. }
  cbn [handleFrames]. rewrite Hfirst. cbn [app].
  assert (Hsplit : forall s' fs gs effs,
             handleFrames s' (fs ++ gs) effs
             = match handleFrames s' fs effs with
               | Ok (s'', effs') => handleFrames s'' gs effs'
               | Throw e => Throw e
               | OutOfFuel => OutOfFuel
               end).
  { clear. intros s' fs. revert s'.
    induction fs as [| [[fin o] p] fs IH]; intros s' gs effs.
    - reflexivity.
    - cbn [app handleFrames].
      destruct (handleFrame s' fin o p) as [[s'' effs'] | e |];
        [apply IH | reflexivity | reflexivity]. }
  rewrite Hsplit, continuations_accumulate.
  cbn [handleFrames fragments set_fragments app].
  unfold handleFrame.
  change (OpCode_value CONTINUATION =? OpCode_value TEXT) with false.
  change (OpCode_value CONTINUATION =? OpCode_value BINARY) with false.
  change (OpCode_value CONTINUATION =? OpCode_value CONTINUATION) with true.
  cbv iota. cbn [orb fragments set_fragments app NyxWS.opcode]. cbv iota.
  change ({| opcode := OpCode_value op; payload := first |}
            :: map (fun p => {| opcode := OpCode_value CONTINUATION;
                                payload := p |}) middle
            ++ [{| opcode := OpCode_value CONTINUATION; payload := last |}])
    with ([{| opcode := OpCode_value op; payload := first |}]
            ++ map (fun p => {| opcode := OpCode_value CONTINUATION;
                                payload := p |}) middle
            ++ [{| opcode := OpCode_value CONTINUATION; payload := last |}]).
  rewrite !concat_payloads_app.
  assert (Hmid : concat_payloads
                   (map (fun p => {| opcode := OpCode_value CONTINUATION;
                                     payload := p |}) middle)
                 = concat middle).
  { unfold concat_payloads. rewrite map_map. cbn [payload].
    rewrite map_id. reflexivity. }
  rewrite Hmid. unfold concat_payloads. cbn [map concat payload].
  rewrite !app_nil_r.
  replace (set_fragments _ []) with s
    by (destruct s; cbn in *; subst; reflexivity).
  reflexivity.
Qed.

Lemma fragmented_message_is_reassembled_witness :
  let s := new_connection WEBSOCKET in
  (BINARY = TEXT \/ BINARY = BINARY)
  /\ fragments s = []
  /\ handleFrames s
       [(false, OpCode_value BINARY, [1; 2]);
        (false, OpCode_value CONTINUATION, []);
        (false, OpCode_value CONTINUATION, [3]);
        (true, OpCode_value CONTINUATION, [4; 5])] []
     = Ok (s, [EmitMessage (Buf [1; 2; 3; 4; 5])]).
Proof.
  intros s.
  assert (H1 : BINARY = TEXT \/ BINARY = BINARY) by (right; reflexivity).
  assert (H2 : fragments s = []) by reflexivity.
  refine (conj H1 (conj H2 _)).
  exact (fragmented_message_is_reassembled s BINARY [1; 2] [[]; [3]] [4; 5]
           H1 H2).
Defined.

(** X20.  A PING frame is answered at once with a PONG that carries the
    same payload: for every payload of bytes shorter than 2^32,
    [handleFrame] writes one frame, which parses as a final PONG frame with
    that payload, then emits 'ping', and leaves the socket unchanged,
    whatever the fin flag of the PING and the state of the accumulator. *)
Theorem ping_is_answered_with_its_payload (s : Socket) (fin : bool)
        (payload : list Z) :
  bytes_ok payload ->
  blen payload < 2 ^ 32 ->
  exists frame,
    handleFrame s fin (OpCode_value PING) payload
    = Ok (s, [SocketWrite frame; EmitPing])
    /\ parseFrame frame = Some (true, OpCode_value PONG, payload, []).
Proof.
  intros Hok Hlen.
  destruct (buildFrame_total PONG (Buf payload) false [] Hlen) as [frame Hf].
  exists frame. split.
  - unfold handleFrame.
    change (OpCode_value PING =? OpCode_value TEXT) with false.
    change (OpCode_value PING =? OpCode_value BINARY) with false.
    change (OpCode_value PING =? OpCode_value CONTINUATION) with false.
    change (OpCode_value PING =? OpCode_value CLOSE) with false.
    change (OpCode_value PING =? OpCode_value PING) with true.
    cbv iota. cbn [orb]. cbv iota.
    unfold handlePing, sendFrame. rewrite Hf. reflexivity.
  - rewrite <- (app_nil_r frame).
    apply (parseFrame_stream PONG (Buf payload) false [] frame [] Hf Hok).
    discriminate.
Qed.

Lemma ping_is_answered_with_its_payload_witness :
  let s := new_connection WEBSOCKET in
  bytes_ok [7; 8; 9]
  /\ blen [7; 8; 9] < 2 ^ 32
  /\ exists frame,
       handleFrame s true (OpCode_value PING) [7; 8; 9]
       = Ok (s, [SocketWrite frame; EmitPing])
       /\ parseFrame frame = Some (true, OpCode_value PONG, [7; 8; 9], []).
Proof.
  intros s.
  assert (H1 : bytes_ok [7; 8; 9]) by (apply bytes_okb_spec; reflexivity).
  assert (H2 : blen [7; 8; 9] < 2 ^ 32) by reflexivity.
  refine (conj H1 (conj H2 _)).
  exact (ping_is_answered_with_its_payload s true [7; 8; 9] H1 H2).
Defined.

(** X21.  A frame whose opcode is not CONTINUATION, TEXT or BINARY never
    touches a message being reassembled: when [handleFrame] returns, the
    fragment accumulator, the receive buffer and the mode are as before and
    no message is emitted.  If the opcode is not CLOSE, PING or PONG either,
    the frame is ignored: nothing changes and nothing is emitted or
    written. *)
Theorem control_frames_leave_fragments (s s' : Socket) (fin : bool)
        (opcode : Z) (payload : list Z) (effs : list effect) :
  opcode <> OpCode_value CONTINUATION ->
  opcode <> OpCode_value TEXT ->
  opcode <> OpCode_value BINARY ->
  handleFrame s fin opcode payload = Ok (s', effs) ->
  fragments s' = fragments s
  /\ buffer s' = buffer s
  /\ mode s' = mode s
  /\ (forall d, ~ In (EmitMessage d) effs)
  /\ (opcode <> OpCode_value CLOSE -> opcode <> OpCode_value PING ->
      opcode <> OpCode_value PONG -> s' = s /\ effs = []).
Proof.
  intros H0 H1 H2 H. unfold handleFrame in H.
  destruct (Z.eqb_spec opcode (OpCode_value TEXT)); [contradiction |].
  destruct (Z.eqb_spec opcode (OpCode_value BINARY)); [contradiction |].
  destruct (Z.eqb_spec opcode (OpCode_value CONTINUATION)); [contradiction |].
  cbn [orb] in H.
  assert (Hfin : forall (t : Socket) (es : list effect),
             fragments t = fragments s -> buffer t = buffer s ->
             mode t = mode s ->
             (forall d, ~ In (EmitMessage d) es) ->
             (opcode <> OpCode_value CLOSE -> opcode <> OpCode_value PING ->
              opcode <> OpCode_value PONG -> t = s /\ es = []) ->
             Ok (t, es) = Ok (s', effs) ->
             fragments s' = fragments s
             /\ buffer s' = buffer s
             /\ mode s' = mode s
             /\ (forall d, ~ In (EmitMessage d) effs)
             /\ (opcode <> OpCode_value CLOSE ->
                 opcode <> OpCode_value PING ->
                 opcode <> OpCode_value PONG -> s' = s /\ effs = [])).
  { intros t es Ha Hb Hc Hd He Heq. injection Heq as <- <-. auto. }
  destruct (Z.eqb_spec opcode (OpCode_value CLOSE)) as [Hc |].
  - unfold handleCloseFrame, close in H.
    destruct (mode s) eqn:Hm; cbn in H; revert H; apply Hfin;
      try reflexivity; try assumption; try (intros; contradiction).
    + intros d [Hd | []]. discriminate.
    + intros d [Hd | [Hd | []]]; discriminate.
  - destruct (Z.eqb_spec opcode (OpCode_value PING)) as [Hp |].
    + unfold handlePing, sendFrame in H.
      destruct (buildFrame PONG (Buf payload) false []) as [fr | e |];
        try discriminate.
      revert H; apply Hfin; try reflexivity; try (intros; contradiction).
      intros d [Hd | [Hd | []]]; discriminate.
    + destruct (Z.eqb_spec opcode (OpCode_value PONG)) as [Hq |].
      * unfold handlePong in H.
        revert H; apply Hfin; try reflexivity; try (intros; contradiction).
        intros d [Hd | []]. discriminate.
      * revert H; apply Hfin; try reflexivity.
        -- intros d [].
        -- intros; split; reflexivity.
Qed.

Lemma control_frames_leave_fragments_witness :
  let s := {| mode := WEBSOCKET; buffer := [0x81];
              fragments := [{| opcode := OpCode_value TEXT;
                               payload := [97] |}];
              isAlive := false |} in
  handleFrame s true (OpCode_value PONG) []
  = Ok (set_isAlive s true, [EmitPong])
  /\ fragments (set_isAlive s true) = fragments s
  /\ (forall d, ~ In (EmitMessage d) [EmitPong]).
Proof.
  intros s.
  assert (H : handleFrame s true (OpCode_value PONG) []
              = Ok (set_isAlive s true, [EmitPong])) by reflexivity.
  refine (conj H _).
  destruct (control_frames_leave_fragments s (set_isAlive s true) true
              (OpCode_value PONG) [] [EmitPong]
              ltac:(discriminate) ltac:(discriminate) ltac:(discriminate) H)
    as (Hf & _ & _ & Hn & _).
  exact (conj Hf Hn).
Defined.

(** X22.  [close] in WebSocket mode, for a status code that fits 16 bits
    and a reason shorter than 2^32 - 2 bytes, writes one frame and then ends
    the socket; the frame parses as a final CLOSE frame whose payload is the
    code in two bytes, big-endian, followed by the reason, and the two
    bytes read back as the code. *)
Theorem close_sends_code_and_ends (s : Socket) (code : Z) (reason : string) :
  mode s = WEBSOCKET ->
  0 <= code < 65536 ->
  blen (bytes_of_string reason) < 2 ^ 32 - 2 ->
  exists frame,
    close s code reason = Ok [SocketWrite frame; SocketEnd]
    /\ parseFrame frame
       = Some (true, OpCode_value CLOSE,
               be16 code ++ bytes_of_string reason, [])
    /\ of_be (be16 code) 0 = code.
Proof.
  intros Hm Hcode Hlen.
  assert (Hl : blen (data_bytes (Buf (be16 code ++ bytes_of_string reason)))
               < 2 ^ 32).
  { cbn [data_bytes]. rewrite blen_app. change (blen (be16 code)) with 2.
    lia. }
  destruct (buildFrame_total CLOSE _ false [] Hl) as [frame Hf].
  exists frame. split; [| split].
  - unfold close. rewrite Hm.
    destruct (Z.leb_spec 0 code); [| lia].
    destruct (Z.ltb_spec code 65536); [| lia]. cbn [andb].
    unfold sendFrame. rewrite Hf. reflexivity.
  - rewrite <- (app_nil_r frame).
    apply (parseFrame_stream CLOSE _ false [] frame [] Hf);
      [| discriminate].
    cbn [data_bytes]. apply bytes_ok_app;
      [apply be16_ok | apply bytes_of_string_ok].
  - apply of_be_be16. change (2 ^ 16) with 65536. lia.
Qed.

Lemma close_sends_code_and_ends_witness :
  let s := new_connection WEBSOCKET in
  mode s = WEBSOCKET
  /\ 0 <= 1001 < 65536
  /\ blen (bytes_of_string "bye") < 2 ^ 32 - 2
  /\ exists frame,
       close s 1001 "bye" = Ok [SocketWrite frame; SocketEnd]
       /\ parseFrame frame
          = Some (true, OpCode_value CLOSE,
                  be16 1001 ++ bytes_of_string "bye", []).
Proof.
  intros s.
  assert (H1 : mode s = WEBSOCKET) by reflexivity.
  assert (H2 : 0 <= 1001 < 65536) by lia.
  assert (H3 : blen (bytes_of_string "bye") < 2 ^ 32 - 2) by reflexivity.
  refine (conj H1 (conj H2 (conj H3 _))).
  destruct (close_sends_code_and_ends s 1001 "bye" H1 H2 H3)
    as (frame & Hc & Hp & _).
  exact (ex_intro _ frame (conj Hc Hp)).
Defined.

Lemma sweep_shrinks cs : (length (fst (sweep cs)) <= length cs)%nat.
Proof.
  induction cs as [| [id c] cs IH]; [cbn; lia |].
  cbn [sweep]. destruct (sweep cs) as [rest effs].
  destruct (isAlive c); simpl in *; lia.
Qed.

(** X23.  A sweep never adds a connection, and every connection it keeps
    has its alive flag cleared.  So a second sweep, with no PONG received in
    between, destroys every connection the first one kept and leaves the
    set of connections empty. *)
Theorem two_sweeps_without_pong_drop_everyone (cs : clients) :
  let cs1 := fst (sweep cs) in
  (forall id c, In (id, c) cs1 -> isAlive c = false)
  /\ (length cs1 <= length cs)%nat
  /\ fst (sweep cs1) = []
  /\ snd (sweep cs1) = map (fun ic => (fst ic, SocketDestroy)) cs1.
Proof.
  intros cs1.
  assert (Hdead : forall id c, In (id, c) cs1 -> isAlive c = false).
  { intros id c Hin. apply sweep_kept in Hin.
    destruct Hin as (c0 & _ & _ & ->). reflexivity. }
  split; [exact Hdead |]. split.
  - apply sweep_shrinks.
  - clearbody cs1. induction cs1 as [| [id c] cs1 IH]; [split; reflexivity |].
    cbn [sweep].
    destruct (sweep cs1) as [rest effs].
    rewrite (Hdead id c (or_introl eq_refl)). cbn [negb fst snd map].
    destruct IH as [IH1 IH2].
    + intros id' c' Hin. apply (Hdead id' c'). right. exact Hin.
    + cbn [fst snd] in IH1, IH2. subst. split; reflexivity.
Qed.

Lemma two_sweeps_without_pong_drop_everyone_witness :
  let cs := [(1%nat, new_connection WEBSOCKET);
             (2%nat, set_isAlive (new_connection WEBSOCKET) false);
             (3%nat, new_connection TCP)] in
  map fst (fst (sweep cs)) = [1%nat; 3%nat]
  /\ fst (sweep (fst (sweep cs))) = []
  /\ snd (sweep (fst (sweep cs)))
     = [(1%nat, SocketDestroy); (3%nat, SocketDestroy)].
Proof.
  intros cs.
  destruct (two_sweeps_without_pong_drop_everyone cs) as (_ & _ & H3 & H4).
  refine (conj eq_refl (conj H3 _)).
  rewrite H4. reflexivity.
Defined.

Lemma handleData_one_frame s d (masked : bool) key frame :
  mode s = WEBSOCKET ->
  buffer s = [] ->
  fragments s = [] ->
  is_frame_of (d, masked, key) frame ->
  handleData s frame = Ok (s, [EmitMessage d]).
Proof.
  intros Hmode Hbuf Hfr Hf. unfold handleData. rewrite Hmode, Hbuf.
  change (blen [] =? 0) with true. cbv iota.
  pose proof (is_frame_of_length _ _ Hf) as Hlen.
  rewrite (handleData_loop_frames [(d, masked, key)] [frame]
             (Forall2_cons _ _ Hf (Forall2_nil _)) []
             (length frame) (set_buffer s frame) []);
    [| left; reflexivity
     | cbn [concat buffer set_buffer]; rewrite !app_nil_r; reflexivity
     | exact Hfr
     | cbn [length]; lia].
  destruct s as [m b f a]. cbn [buffer] in Hbuf. subst b. reflexivity.
Qed.

(** X25.  [broadcast] reaches every connection of the set exactly once, in
    the order of the set.  For a message whose bytes are fewer than 2^32,
    each connection in WebSocket mode is written the same unmasked frame,
    each connection in TCP mode the bare bytes of the message; and when the
    message is a string without unpaired surrogates or a buffer of bytes, a
    peer that receives this frame, with an empty buffer and no fragments,
    emits the message. *)
Theorem broadcast_reaches_every_client (cs : clients) (d : data) :
  blen (data_bytes d) < 2 ^ 32 ->
  exists frame,
    broadcast cs d
    = map (fun ic => (fst ic,
                      SocketWrite (match mode (snd ic) with
                                   | WEBSOCKET => frame
                                   | TCP => data_bytes d
                                   end))) cs
    /\ (message_ok d ->
        forall peer,
          mode peer = WEBSOCKET -> buffer peer = [] -> fragments peer = [] ->
          handleData peer frame = Ok (peer, [EmitMessage d])).
Proof.
  intros Hlen.
  destruct (buildFrame_total (match d with Str _ => TEXT | Buf _ => BINARY end)
                             d false [] Hlen) as [frame Hf].
  exists frame. split.
  - unfold broadcast. induction cs as [| [id c] cs IH]; [reflexivity |].
    cbn [flat_map map fst snd]. rewrite IH. unfold send, sendFrame.
    destruct (mode c); [reflexivity |]. rewrite Hf. reflexivity.
  - intros Hok peer Hmode Hbuf Hfr.
    apply (handleData_one_frame peer d false [] frame Hmode Hbuf Hfr).
    split; [exact Hf |]. split; [exact Hok | discriminate].
Qed.

Lemma broadcast_reaches_every_client_witness :
  let cs := [(1%nat, new_connection WEBSOCKET); (2%nat, new_connection TCP);
             (3%nat, new_connection WEBSOCKET)] in
  blen (data_bytes (Str "hi")) < 2 ^ 32
  /\ message_ok (Str "hi")
  /\ exists frame,
       broadcast cs (Str "hi")
       = [(1%nat, SocketWrite frame); (2%nat, SocketWrite [104; 105]);
          (3%nat, SocketWrite frame)]
       /\ handleData (new_connection WEBSOCKET) frame
          = Ok (new_connection WEBSOCKET, [EmitMessage (Str "hi")]).
Proof.
  intros cs.
  assert (H1 : blen (data_bytes (Str "hi")) < 2 ^ 32) by reflexivity.
  assert (H2 : message_ok (Str "hi")) by reflexivity.
  refine (conj H1 (conj H2 _)).
  destruct (broadcast_reaches_every_client cs (Str "hi") H1)
    as (frame & Hb & Hp).
  exact (ex_intro _ frame
           (conj Hb (Hp H2 (new_connection WEBSOCKET)
                       eq_refl eq_refl eq_refl))).
Defined.



